(** * semtxtsplitter: a shallow embedding of the semantic text splitter

    The Go package [semchunk] splits a text into chunks of bounded token
    count.  This development embeds [NewTextSplitter], [innerSplit],
    [LookbehindSplit], [mergeSplits], [split] and [Split] of [semchunk.go]
    and [utils.go], together with the parts of Go's [strings], [unicode/utf8],
    [unicode] and [regexp] packages they call, and proves properties of them.

    Data model.  A Go [string] is a sequence of bytes: [list ascii].  A Go
    [int] is a 64-bit two's complement integer: a [Z] whose arithmetic wraps
    around.  A [float32] is an IEEE-754 binary32 value: [spec_float] with
    precision 24 and maximal exponent 128.  A run-time panic (index or slice
    out of range) is the result [Panic]; the recursion of [split] is driven
    by a fuel counter and [OutOfFuel] is the result of a run whose recursion
    depth exceeds the fuel.

    The embedded [semchunk.go] is the one with preserve patterns; the
    script detection of [utils.go] ([IsChinese]) is not called by it. *)

From Stdlib Require Import List String Ascii ZArith NArith Lia Bool Arith SpecFloat.
Import ListNotations.

Local Open Scope list_scope.

(** ** Go values *)

Definition gostring := list ascii.

(** A string literal of the source, as its bytes. *)
Definition str (s : string) : gostring := list_ascii_of_string s.

Definition byte_of (n : nat) : ascii := ascii_of_nat n.

(** The strings "\n", "\r" and "\t". *)
Definition LF : gostring := [byte_of 10].
Definition CR : gostring := [byte_of 13].
Definition TAB : gostring := [byte_of 9].

Fixpoint gostring_eqb (a b : gostring) : bool :=
  match a, b with
  | [], [] => true
  | x :: a', y :: b' => Ascii.eqb x y && gostring_eqb a' b'
  | _, _ => false
  end.

(** Go's [int] on a 64-bit platform. *)
Module Int.
Definition modulus : Z := 2 ^ 64.
Definition half : Z := 2 ^ 63.
Definition wrap (z : Z) : Z := (z + half) mod modulus - half.
Definition add (a b : Z) : Z := wrap (a + b).
Definition sub (a b : Z) : Z := wrap (a - b).
Definition min_int : Z := - half.
Definition max_int : Z := half - 1.
End Int.

(** Go's [float32], with the conversions [float32(n)] and [int(f)]. *)
Module Float32.
Definition prec : Z := 24.
Definition emax : Z := 128.
Definition zero : spec_float := S754_zero false.
Definition one : spec_float := S754_finite false 8388608 (-23).
Definition half : spec_float := S754_finite false 8388608 (-24).
Definition mul (x y : spec_float) : spec_float := SFmul prec emax x y.
Definition ltb (x y : spec_float) : bool := SFltb x y.
Definition leb (x y : spec_float) : bool := SFleb x y.
(** [float32(n)] for an [int] n: rounding to nearest even. *)
Definition of_int (n : Z) : spec_float := binary_normalize prec emax n 0 false.
(** [int(f)]: truncation towards zero.  Where the value does not fit an
    [int] (and for infinities and NaN) the language leaves the result to
    the implementation; amd64 yields the least [int]. *)
Definition to_int (f : spec_float) : Z :=
  match f with
  | S754_zero _ => 0
  | S754_finite s m e =>
      let v := if (0 <=? e)%Z then (Z.pos m * 2 ^ e)%Z
               else (Z.pos m / 2 ^ (- e))%Z in
      let v := if s then (- v)%Z else v in
      if ((Int.min_int <=? v) && (v <=? Int.max_int))%Z then v else Int.min_int
  | _ => Int.min_int
  end.
End Float32.

(** Results of code that can panic or recurse without bound. *)
Inductive result (A : Type) : Type :=
| Ok (a : A)
| Panic
| OutOfFuel.
Arguments Ok {A} a.
Arguments Panic {A}.
Arguments OutOfFuel {A}.

Definition bind {A B : Type} (r : result A) (k : A -> result B) : result B :=
  match r with
  | Ok a => k a
  | Panic => Panic
  | OutOfFuel => OutOfFuel
  end.

Notation "x <- r ;; k" := (bind r (fun x => k))
  (at level 61, r at next level, right associativity).

(** ** Package unicode/utf8 and unicode *)
Module Utf8.
Local Open Scope N_scope.

Definition RuneError : N := 0xFFFD.

Definition byteval (c : ascii) : N := N_of_ascii c.

Definition between (lo hi x : N) : bool := (lo <=? x) && (x <=? hi).

(** The accept range of the second byte, by the first byte
    ([first] and [acceptRanges] of the package). *)
Definition acceptRange (s0 : N) : N * N :=
  if s0 =? 0xE0 then (0xA0, 0xBF)
  else if s0 =? 0xED then (0x80, 0x9F)
  else if s0 =? 0xF0 then (0x90, 0xBF)
  else if s0 =? 0xF4 then (0x80, 0x8F)
  else (0x80, 0xBF).

Definition seqLen (s0 : N) : nat :=
  if s0 <? 0xE0 then 2%nat else if s0 <? 0xF0 then 3%nat else 4%nat.

(** [utf8.DecodeRuneInString]: the first rune of [s] and its width in
    bytes; an invalid encoding is [RuneError] of width 1. *)
Definition DecodeRuneInString (s : gostring) : N * nat :=
  match s with
  | [] => (RuneError, 0%nat)
  | c0 :: t =>
      let s0 := byteval c0 in
      if s0 <? 0x80 then (s0, 1%nat)
      else if (s0 <? 0xC2) || (0xF4 <? s0) then (RuneError, 1%nat)
      else
        let sz := seqLen s0 in
        let '(lo, hi) := acceptRange s0 in
        if (List.length s <? sz)%nat then (RuneError, 1%nat)
        else
          match t with
          | c1 :: t1 =>
              let s1 := byteval c1 in
              if negb (between lo hi s1) then (RuneError, 1%nat)
              else if (sz <=? 2)%nat
                   then ((s0 mod 0x20) * 0x40 + s1 mod 0x40, 2%nat)
              else
                match t1 with
                | c2 :: t2 =>
                    let s2 := byteval c2 in
                    if negb (between 0x80 0xBF s2) then (RuneError, 1%nat)
                    else if (sz <=? 3)%nat
                         then ((s0 mod 0x10) * 0x1000 + (s1 mod 0x40) * 0x40
                               + s2 mod 0x40, 3%nat)
                    else
                      match t2 with
                      | c3 :: _ =>
                          let s3 := byteval c3 in
                          if negb (between 0x80 0xBF s3) then (RuneError, 1%nat)
                          else ((s0 mod 0x08) * 0x40000 + (s1 mod 0x40) * 0x1000
                                + (s2 mod 0x40) * 0x40 + s3 mod 0x40, 4%nat)
                      | [] => (RuneError, 1%nat)
                      end
                | [] => (RuneError, 1%nat)
                end
          | [] => (RuneError, 1%nat)
          end
  end.

Definition width (s : gostring) : nat := snd (DecodeRuneInString s).

(** The runes of a string, as [for _, r := range s] yields them. *)
Fixpoint runesLoop (n : nat) (s : gostring) : list N :=
  match n with
  | O => []
  | S n' =>
      match s with
      | [] => []
      | _ :: _ =>
          fst (DecodeRuneInString s) :: runesLoop n' (skipn (width s) s)
      end
  end.

Definition runes (s : gostring) : list N := runesLoop (List.length s) s.

(** [unicode.IsSpace]. *)
Definition IsSpace (r : N) : bool :=
  if r <=? 0xFF then
    between 0x09 0x0D r || (r =? 0x20) || (r =? 0x85) || (r =? 0xA0)
  else
    (r =? 0x1680) || between 0x2000 0x200A r || between 0x2028 0x2029 r
    || (r =? 0x202F) || (r =? 0x205F) || (r =? 0x3000).
End Utf8.

(** ** Package strings *)
Module Strings.

Fixpoint HasPrefix (s prefix : gostring) : bool :=
  match prefix, s with
  | [], _ => true
  | p :: prefix', c :: s' => Ascii.eqb c p && HasPrefix s' prefix'
  | _ :: _, [] => false
  end.

(** [strings.Index]: the offset of the first occurrence of [substr];
    Go's -1 is [None]. *)
Fixpoint Index (s substr : gostring) : option nat :=
  if HasPrefix s substr then Some 0
  else match s with
       | [] => None
       | _ :: s' => option_map S (Index s' substr)
       end.

Definition Contains (s substr : gostring) : bool :=
  match Index s substr with
  | Some _ => true
  | None => false
  end.

Fixpoint Join (elems : list gostring) (sep : gostring) : gostring :=
  match elems with
  | [] => []
  | [e] => e
  | e :: rest => e ++ sep ++ Join rest sep
  end.

(** [explode]: one string per UTF-8 sequence, invalid bytes one by one. *)
Fixpoint explodeLoop (n : nat) (s : gostring) : list gostring :=
  match n with
  | O => []
  | S n' =>
      match s with
      | [] => []
      | _ :: _ =>
          let w := Utf8.width s in
          firstn w s :: explodeLoop n' (skipn w s)
      end
  end.

Definition explode (s : gostring) : list gostring :=
  explodeLoop (List.length s) s.

(** The loop of [genSplit]: cut at each next occurrence of [sep], at most
    [n] times, and keep the remainder as the last piece. *)
Fixpoint genSplitLoop (n : nat) (s sep : gostring) : list gostring :=
  match n with
  | O => [s]
  | S n' =>
      match Index s sep with
      | None => [s]
      | Some m =>
          firstn m s :: genSplitLoop n' (skipn (m + List.length sep) s) sep
      end
  end.

(** [strings.Split(s, sep)].  With a non-empty [sep] the source allocates
    [Count(s, sep) + 1] pieces, at most [len(s) + 1]. *)
Definition Split (s sep : gostring) : list gostring :=
  match sep with
  | [] => explode s
  | _ :: _ => genSplitLoop (List.length s) s sep
  end.

(** [strings.Fields], counted: the number of maximal runs of non-space
    runes. *)
Fixpoint countFields (rs : list N) (inField : bool) : nat :=
  match rs with
  | [] => 0
  | r :: rs' =>
      if Utf8.IsSpace r then countFields rs' false
      else if inField then countFields rs' true
      else S (countFields rs' true)
  end.

Definition FieldsLen (s : gostring) : Z :=
  Z.of_nat (countFields (Utf8.runes s) false).
End Strings.

(** ** Package regexp, as far as the program uses it *)
Module Regexp.

(** A compiled regular expression is used through [FindAllStringIndex]
    only: the successive non-overlapping matches, as (start, end) byte
    offsets.  A preserve pattern is any such function.  The fixed patterns
    of the program are literals and classes of ASCII bytes; for them
    matching on bytes and matching on runes agree, because a byte below
    0x80 or the first byte of a UTF-8 sequence never lies inside another
    sequence. *)
Record Regexp : Type := mkRegexp {
  FindAllStringIndex : gostring -> list (nat * nat)
}.

(** What the package guarantees of the offsets it returns: they lie in
    the text, in increasing order, and no match starts before the
    previous one ended. *)
Fixpoint matchesFrom (pos len : nat) (ms : list (nat * nat)) : Prop :=
  match ms with
  | [] => True
  | (a, b) :: ms' => pos <= a /\ a <= b /\ b <= len /\ matchesFrom b len ms'
  end.

Definition wellBehaved (re : Regexp) : Prop :=
  forall text, matchesFrom 0 (List.length text) (FindAllStringIndex re text).

(** The character classes of the program's fixed patterns. *)
Definition isNewline (c : ascii) : bool :=
  Ascii.eqb c (byte_of 10) || Ascii.eqb c (byte_of 13).   (* [\r\n] *)

Definition isTab (c : ascii) : bool := Ascii.eqb c (byte_of 9).   (* \t *)

(** [\s] of RE2 syntax is [\t\n\f\r ]. *)
Definition isSpaceClass (c : ascii) : bool :=
  Ascii.eqb c (byte_of 9) || Ascii.eqb c (byte_of 10)
  || Ascii.eqb c (byte_of 12) || Ascii.eqb c (byte_of 13)
  || Ascii.eqb c (byte_of 32).

(** [FindAllString] of a pattern [[class]+]: the maximal runs of bytes
    of the class, from left to right.  [cur] is the run being read. *)
Fixpoint runsLoop (cls : ascii -> bool) (s cur : gostring) : list gostring :=
  match s with
  | [] => match cur with [] => [] | _ :: _ => [cur] end
  | c :: s' =>
      if cls c then runsLoop cls s' (cur ++ [c])
      else match cur with
           | [] => runsLoop cls s' []
           | _ :: _ => cur :: runsLoop cls s' []
           end
  end.

Definition FindAllRuns (cls : ascii -> bool) (s : gostring) : list gostring :=
  runsLoop cls s [].

(** [FindStringSubmatch] of the pattern [QuoteMeta(lit) + `(\s)`]: the
    leftmost occurrence of [lit] followed by a byte of class [\s];
    the result is the captured group. *)
Fixpoint FindLiteralSpace (lit s : gostring) : option gostring :=
  let here :=
    if Strings.HasPrefix s lit then
      match skipn (List.length lit) s with
      | c :: _ => if isSpaceClass c then Some [c] else None
      | [] => None
      end
    else None in
  match here with
  | Some m => Some m
  | None => match s with
            | [] => None
            | _ :: s' => FindLiteralSpace lit s'
            end
  end.

(** [FindAllStringIndex] of the pattern [QuoteMeta(lit)].  [pos] is the
    offset of [s] in the whole text.  After an empty match the search
    moves on by one rune, and ends behind the end of the text. *)
Fixpoint literalLoop (n : nat) (lit : gostring) (pos : nat) (s : gostring)
  : list (nat * nat) :=
  match n with
  | O => []
  | S n' =>
      match Strings.Index s lit with
      | None => []
      | Some m =>
          let start := pos + m in
          let stop := start + List.length lit in
          match lit with
          | [] =>
              (start, stop) ::
              match s with
              | [] => []
              | _ :: _ =>
                  let w := Utf8.width s in
                  literalLoop n' lit (pos + w) (skipn w s)
              end
          | _ :: _ =>
              (start, stop) ::
              literalLoop n' lit stop (skipn (m + List.length lit) s)
          end
      end
  end.

Definition FindAllLiteralIndex (lit s : gostring) : list (nat * nat) :=
  literalLoop (S (List.length s)) lit 0 s.

(** [regexp.MustCompile(regexp.QuoteMeta(lit))]. *)
Definition literal (lit : gostring) : Regexp :=
  mkRegexp (FindAllLiteralIndex lit).
End Regexp.

Import Regexp.

(** ** utils.go *)

(** The slice expression [text[lo:hi]] for offsets within the text. *)
Definition slice (text : gostring) (lo hi : nat) : gostring :=
  firstn (hi - lo) (skipn lo text).

Fixpoint lookbehindLoop (text precededBy : gostring) (matches : list (nat * nat))
         (lastIndex : nat) (parts : list gostring) : list gostring :=
  match matches with
  | [] => parts ++ [skipn lastIndex text]
  | (m0, m1) :: matches' =>
      lookbehindLoop text precededBy matches' m1
        (parts ++ [slice text lastIndex m0 ++ precededBy])
  end.

Definition LookbehindSplit (text precededBy splitter : gostring) : list gostring :=
  let matches := FindAllLiteralIndex (precededBy ++ splitter) text in
  lookbehindLoop text precededBy matches 0 [].

Definition ContainsSpace (text : gostring) : bool :=
  existsb Utf8.IsSpace (Utf8.runes text).

(** ** semchunk.go *)

Record TextSplitterOption : Type := mkOption {
  PreserveURLs : bool;
  PreservePatterns : list Regexp
}.

Record TextSplitter : Type := mkTextSplitter {
  chunkSize : Z;
  countTokenFunc : gostring -> Z;
  overlap : Z;
  opts : TextSplitterOption
}.

(** The option functions; [urlRegex] is the compiled URL pattern. *)
Definition WithPreserveURLs (urlRegex : Regexp) (preserveURLs : bool)
  : TextSplitterOption -> TextSplitterOption :=
  fun o => mkOption preserveURLs (PreservePatterns o ++ [urlRegex]).

Definition WithPreservePatterns (preservePatterns : list gostring)
  : TextSplitterOption -> TextSplitterOption :=
  fun o => mkOption (PreserveURLs o)
                    (PreservePatterns o ++ map literal preservePatterns).

(** The type parameter [K int | float32] of [NewTextSplitter]. *)
Inductive Overlap : Type :=
| OverlapInt (k : Z)
| OverlapFloat32 (f : spec_float).

(** [NewTextSplitter].  The result is the pair the source returns: the
    splitter or nil, and the error or nil.  In the [int] branch the source
    declares a second [overlapInt] in the [else if] header; the variable
    stored in the splitter is the outer one, which that branch leaves at
    its zero value. *)
Definition NewTextSplitter (chunkSize : Z) (overlap : Overlap)
           (countTokenFunc : gostring -> Z)
           (options : list (TextSplitterOption -> TextSplitterOption))
  : option TextSplitter * option string :=
  let build (overlapInt : Z) :=
    let ts := mkTextSplitter chunkSize countTokenFunc overlapInt
                (fold_left (fun o opt => opt o) options (mkOption false [])) in
    (Some ts, None) in
  let overlapInt := 0%Z in
  match overlap with
  | OverlapFloat32 overlapFloat =>
      if Float32.ltb overlapFloat Float32.zero
         || Float32.ltb Float32.one overlapFloat
      then (None, Some "overlap must be between 0 and 1"%string)
      else build (Float32.to_int
                    (Float32.mul overlapFloat (Float32.of_int chunkSize)))
  | OverlapInt overlapInt' =>
      if (overlapInt' <? 0)%Z || (chunkSize <? overlapInt')%Z
      then (None, Some "overlap must be between 0 and chunkSize"%string)
      else build overlapInt
  end.

(** The terminators, as their UTF-8 bytes. *)
Definition fullWidthSentenceTerminators : list gostring :=
  [ str "。"; str "？"; str "！" ].
Definition fullWidthClauseSparators : list gostring :=
  [ str "，"; str "；"; str "、"; str "："; str "－" ].
Definition sentenceTerminators : list gostring :=
  [ str "."; str "?"; str "!" ].
Definition clauseSeparators : list gostring :=
  [ str "—"; str "…"; str ","; str ";"; str ":" ].

Definition nonWhitespaceSemanticSplitters : list gostring :=
  sentenceTerminators ++ clauseSeparators.
Definition fullWidthNonWhitespaceSemanticSpliters : list gostring :=
  fullWidthSentenceTerminators ++ fullWidthClauseSparators.

Definition longestSplitter (splitters : list gostring) : gostring :=
  match splitters with
  | [] => []
  | first :: rest =>
      fold_left (fun longest splitter =>
                   if List.length longest <? List.length splitter
                   then splitter else longest)
                rest first
  end.

(** The branches of [innerSplit]; each yields [None] where the source
    falls through to the next one. *)
Definition SplitResult : Type := gostring * bool * list gostring.

Definition splitAtRuns (cls : ascii -> bool) (text : gostring)
  : option SplitResult :=
  let matches := FindAllRuns cls text in
  if 0 <? List.length matches then
    let splitter := longestSplitter matches in
    Some (splitter, true, Strings.Split text splitter)
  else None.

Fixpoint preserveLoop (text : gostring) (matches : list (nat * nat))
         (lastIndex : nat) (parts : list gostring) : list gostring :=
  match matches with
  | [] =>
      if lastIndex <? List.length text
      then parts ++ [skipn lastIndex text] else parts
  | (start, stop) :: matches' =>
      let parts := if lastIndex <? start
                   then parts ++ [slice text lastIndex start] else parts in
      preserveLoop text matches' stop (parts ++ [slice text start stop])
  end.

Fixpoint splitAtPatterns (text : gostring) (preservePatterns : list Regexp)
  : option SplitResult :=
  match preservePatterns with
  | [] => None
  | pattern :: rest =>
      let matches := FindAllStringIndex pattern text in
      if 0 <? List.length matches
      then Some ([], true, preserveLoop text matches 0 [])
      else splitAtPatterns text rest
  end.

Fixpoint splitAtLiteral (text : gostring) (splitters : list gostring)
  : option SplitResult :=
  match splitters with
  | [] => None
  | splitter :: rest =>
      if Strings.Contains text splitter
      then Some (splitter, false, Strings.Split text splitter)
      else splitAtLiteral text rest
  end.

Fixpoint splitAtPreceded (text : gostring) (preceders : list gostring)
  : option SplitResult :=
  match preceders with
  | [] => None
  | preceder :: rest =>
      match FindLiteralSpace preceder text with
      | Some splitter =>
          Some (splitter, true, LookbehindSplit text preceder splitter)
      | None => splitAtPreceded text rest
      end
  end.

Definition splitAtWhitespace (text : gostring) : option SplitResult :=
  let matches := FindAllRuns isSpaceClass text in
  if 0 <? List.length matches then
    let splitter := longestSplitter matches in
    let refined :=
      if List.length splitter =? 1
      then splitAtPreceded text nonWhitespaceSemanticSplitters
      else None in
    match refined with
    | Some r => Some r
    | None => Some (splitter, true, Strings.Split text splitter)
    end
  else None.

Definition orElse {A : Type} (o : option A) (k : A) : A :=
  match o with
  | Some a => a
  | None => k
  end.

(** [innerSplit]: the splitter, whether it is whitespace, and the splits. *)
Definition innerSplit (text : gostring) (preservePatterns : list Regexp)
  : SplitResult :=
  orElse (if Strings.Contains text LF
             || Strings.Contains text CR
          then splitAtRuns isNewline text else None)
  (orElse (if Strings.Contains text TAB
           then splitAtRuns isTab text else None)
  (orElse (splitAtPatterns text preservePatterns)
  (orElse (splitAtLiteral text fullWidthNonWhitespaceSemanticSpliters)
  (orElse (if ContainsSpace text then splitAtWhitespace text else None)
  (orElse (splitAtLiteral text nonWhitespaceSemanticSplitters)
          ([], true, Strings.Split text [])))))).

Definition estimateSize (size splitSize splitterSize : Z) (appendSplitter : bool)
  : Z :=
  let nextSize := Int.add size splitSize in
  if appendSplitter then Int.add nextSize splitterSize else nextSize.

(** An index expression [s[i]] on a slice of ints. *)
Definition index (s : list Z) (i : Z) : option Z :=
  if (i <? 0)%Z then None else nth_error s (Z.to_nat i).

Definition nonEmpty {A : Type} (l : list A) : bool := 0 <? List.length l.

(** The condition of the eviction loop of [mergeSplits]. *)
Definition evictCond (c : TextSplitter) (l splitterSize chunkSize : Z)
           (toMerge : list gostring) (size : Z) : bool :=
  (overlap c <? size)%Z
  || ((chunkSize <? estimateSize size l splitterSize (nonEmpty toMerge))%Z
      && (0 <? size)%Z).

(** The eviction loop: each turn reads [splitSizes[splitIds[0]]] and drops
    the first element of [toMerge] and of [splitIds]. *)
Fixpoint evict (c : TextSplitter) (splitSizes : list Z)
         (l splitterSize chunkSize : Z)
         (splitIds : list Z) (toMerge : list gostring) (size : Z)
  : result (list gostring * list Z * Z) :=
  if evictCond c l splitterSize chunkSize toMerge size then
    match splitIds with
    | [] => Panic
    | id :: splitIds' =>
        match index splitSizes id with
        | None => Panic
        | Some frontSize =>
            let size := Int.sub size frontSize in
            let size := if 1 <? List.length toMerge
                        then Int.sub size splitterSize else size in
            match toMerge with
            | [] => Panic
            | _ :: toMerge' =>
                evict c splitSizes l splitterSize chunkSize splitIds' toMerge' size
            end
        end
    end
  else Ok (toMerge, splitIds, size).

Definition appendMerged (merges : list gostring) (merged : gostring)
  : list gostring :=
  if 0 <? List.length merged then merges ++ [merged] else merges.

(** The main loop of [mergeSplits]; [i] is the index of the next split. *)
Fixpoint mergeLoop (c : TextSplitter) (splitSizes : list Z)
         (splitter : gostring) (splitterSize chunkSize : Z)
         (splits : list gostring) (i : nat)
         (merges toMerge : list gostring) (splitIds : list Z) (size : Z)
  : result (list gostring) :=
  match splits with
  | [] =>
      Ok (if nonEmpty toMerge
          then appendMerged merges (Strings.Join toMerge splitter)
          else merges)
  | split :: rest =>
      match nth_error splitSizes i with
      | None => Panic
      | Some l =>
          st <- (if (chunkSize <?
                     estimateSize size l splitterSize (nonEmpty toMerge))%Z
                 then
                   let merges :=
                     appendMerged merges (Strings.Join toMerge splitter) in
                   if (0 <? overlap c)%Z then
                     ev <- evict c splitSizes l splitterSize chunkSize
                                 splitIds toMerge size ;;
                     let '(toMerge, splitIds, size) := ev in
                     Ok (merges, toMerge, splitIds, size)
                   else Ok (merges, [], splitIds, 0%Z)
                 else Ok (merges, toMerge, splitIds, size)) ;;
          let '(merges, toMerge, splitIds, size) := st in
          let toMerge := toMerge ++ [split] in
          let size := Int.add size l in
          let size := if 1 <? List.length toMerge
                      then Int.add size splitterSize else size in
          mergeLoop c splitSizes splitter splitterSize chunkSize rest (S i)
                    merges toMerge splitIds size
      end
  end.

Definition mergeSplits (c : TextSplitter) (splits : list gostring)
           (splitSizes splitIds : list Z) (splitter : gostring) (chunkSize : Z)
  : result (list gostring) :=
  let splitterSize := countTokenFunc c splitter in
  mergeLoop c splitSizes splitter splitterSize chunkSize splits 0
            [] [] splitIds 0%Z.

(** The loop of [split] over the splits of one level; [recurse] is the
    call [c.split(split, chunkSize, recursionDepth+1)]. *)
Fixpoint splitLoop (recurse : gostring -> result (list gostring))
         (c : TextSplitter) (splitter : gostring) (chunkSize : Z)
         (splits : list gostring) (i : Z)
         (rets goodSplits : list gostring) (goodSplitSizes goodSplitIds : list Z)
  : result (list gostring) :=
  match splits with
  | [] =>
      if nonEmpty goodSplits then
        merges <- mergeSplits c goodSplits goodSplitSizes goodSplitIds
                              splitter chunkSize ;;
        Ok (rets ++ merges)
      else Ok rets
  | split :: rest =>
      let l := countTokenFunc c split in
      if (l <? chunkSize)%Z then
        splitLoop recurse c splitter chunkSize rest (i + 1)%Z rets
                  (goodSplits ++ [split]) (goodSplitSizes ++ [l])
                  (goodSplitIds ++ [i])
      else
        st <- (if nonEmpty goodSplits then
                 merges <- mergeSplits c goodSplits goodSplitSizes goodSplitIds
                                       splitter chunkSize ;;
                 Ok (rets ++ merges)
               else Ok rets) ;;
        newSplits <- recurse split ;;
        splitLoop recurse c splitter chunkSize rest (i + 1)%Z
                  (st ++ newSplits) [] [] []
  end.

(** [split]; [fuel] bounds the depth of the recursion. *)
Fixpoint split (fuel : nat) (c : TextSplitter) (text : gostring)
         (chunkSize : Z) (recursionDepth : Z) : result (list gostring) :=
  match fuel with
  | O => OutOfFuel
  | S fuel' =>
      let '(splitter, _, splits) :=
        innerSplit text (PreservePatterns (opts c)) in
      splitLoop (fun part => split fuel' c part chunkSize (Int.add recursionDepth 1))
                c splitter chunkSize splits 0%Z [] [] [] []
  end.

Definition Split (fuel : nat) (c : TextSplitter) (text : gostring)
  : result (list gostring) :=
  split fuel c text (chunkSize c) 0%Z.

(** The token counters of the tests and of the command line. *)
Definition countBytes (text : gostring) : Z := Z.of_nat (List.length text).
Definition countWords (text : gostring) : Z := Strings.FieldsLen text.
Definition countWordsTwice (text : gostring) : Z := (Strings.FieldsLen text * 2)%Z.

(** The splitters of the tests, built as the tests build them. *)
Definition bytesSplitter (size ov : Z) : TextSplitter :=
  mkTextSplitter size countBytes ov (mkOption false []).

Definition wordsSplitter (size ov : Z) : TextSplitter :=
  mkTextSplitter size countWordsTwice ov (mkOption false []).

(** ** Notions used to state the properties *)

(** A match (start, end) of a literal pattern covers that literal. *)
Definition matchIs (text lit : gostring) (ab : nat * nat) : Prop :=
  slice text (fst ab) (snd ab) = lit.

(** The splits of a result, joined with its splitter, give the text. *)
Definition rejoins (text : gostring) (r : SplitResult) : Prop :=
  Strings.Join (snd r) (fst (fst r)) = text.

(** The first string of a priority list that occurs in the text. *)
Definition firstContained (splitters : list gostring) (text : gostring)
  : option gostring :=
  find (fun splitter => Strings.Contains text splitter) splitters.

(** Strings made of delimiters only: bytes of the class [\s] and the
    terminators of the two priority lists. *)
Inductive delimString : gostring -> Prop :=
| delim_nil : delimString []
| delim_space (c : ascii) (s : gostring) :
    isSpaceClass c = true -> delimString s -> delimString (c :: s)
| delim_terminator (t s : gostring) :
    In t (fullWidthNonWhitespaceSemanticSpliters
          ++ nonWhitespaceSemanticSplitters) ->
    delimString s -> delimString (t ++ s).

(** The splitter of a result is a delimiter string. *)
Definition delimResult (r : SplitResult) : Prop := delimString (fst (fst r)).

Definition nonEmptyChunks (chunks : list gostring) : Prop :=
  Forall (fun chunk => chunk <> []) chunks.

Definition lastChunk (chunks : list gostring) : gostring := last chunks [].

Definition isSuffix (a b : gostring) : Prop := exists p, b = p ++ a.

(** [rebuilds gapOk text chunks]: the text is rebuilt from the chunks in
    order.  Each chunk is [dup ++ fresh], where [dup] repeats the end of
    the chunk before it (the overlap) and [fresh] is the part of the text
    the chunk contributes; between two contributions, before the first and
    behind the last, the text has a gap that satisfies [gapOk]. *)
Inductive rebuilds (gapOk : gostring -> Prop)
  : gostring -> list gostring -> Prop :=
| rec_nil (gap : gostring) :
    gapOk gap -> rebuilds gapOk gap []
| rec_chunk (text : gostring) (chunks : list gostring)
            (dup fresh gap : gostring) :
    rebuilds gapOk text chunks ->
    isSuffix dup (lastChunk chunks) ->
    gapOk gap ->
    rebuilds gapOk (text ++ gap ++ fresh) (chunks ++ [dup ++ fresh])
| rec_gap (text : gostring) (chunks : list gostring) (gap : gostring) :
    rebuilds gapOk text chunks ->
    gapOk gap ->
    rebuilds gapOk (text ++ gap) chunks.

(** The chunks rebuild the text up to delimiters dropped between them. *)
Definition reconstructs : gostring -> list gostring -> Prop :=
  rebuilds delimString.

(** Nothing is dropped between the chunks. *)
Definition noGap (gap : gostring) : Prop := gap = [].

(** The state of the loop of [mergeSplits] after the fragments [done]:
    the chunks emitted so far rebuild a prefix [covered] of their join,
    and the accumulator [toMerge] holds an overlap [dup] with the last
    chunk followed by the part [fresh] not emitted yet. *)
Definition mergeInv (gapOk : gostring -> Prop) (splitter : gostring)
           (done merges toMerge : list gostring) : Prop :=
  exists covered dup gap fresh : gostring,
    rebuilds gapOk covered merges
    /\ isSuffix dup (lastChunk merges)
    /\ gapOk gap
    /\ Strings.Join toMerge splitter = dup ++ fresh
    /\ Strings.Join done splitter = covered ++ gap ++ fresh
    /\ (toMerge <> [] -> done <> []).

(** A single character: the first UTF-8 sequence (or invalid byte) of a
    non-empty text. *)
Definition singleChar (s : gostring) : Prop :=
  exists text, text <> [] /\ s = firstn (Utf8.width text) text.

(** [d] is a substring of [text]. *)
Definition occursIn (d text : gostring) : Prop :=
  exists p q, text = p ++ d ++ q.

(** A fragment of a span that the recursion can take: shorter than the
    span, or a single character. *)
Definition shorterOrChar (text fragment : gostring) : Prop :=
  List.length fragment < List.length text \/ singleChar fragment.

(** The overlap argument lies in its range. *)
Definition overlapInRange (chunkSize : Z) (o : Overlap) : Prop :=
  match o with
  | OverlapInt k => (0 <= k <= chunkSize)%Z
  | OverlapFloat32 f =>
      Float32.leb Float32.zero f = true /\ Float32.leb f Float32.one = true
  end.

(** The selection of a terminator as the fourth step of the delimiter
    priority states it, over the terminators of both lists. *)
Definition terminatorsFirst : Prop :=
  forall (text : gostring) (preservePatterns : list Regexp) (t : gostring),
    Strings.Contains text LF = false ->
    Strings.Contains text CR = false ->
    Strings.Contains text TAB = false ->
    Forall (fun p => FindAllStringIndex p text = []) preservePatterns ->
    firstContained (fullWidthNonWhitespaceSemanticSpliters
                    ++ nonWhitespaceSemanticSplitters) text = Some t ->
    innerSplit text preservePatterns = (t, false, Strings.Split text t).

(** ** Notions used to state further properties *)

(** The first preserve pattern that matches in the text. *)
Definition firstMatching (preservePatterns : list Regexp) (text : gostring)
  : option Regexp :=
  find (fun p => nonEmpty (FindAllStringIndex p text)) preservePatterns.

(** The size [mergeSplits] keeps for an accumulator that was empty with
    size 0 and then took fragments of the sizes [sizes]: the first size,
    then each further size and one splitter size, in [int] arithmetic. *)
Definition accumulate (splitterSize : Z) (size l : Z) : Z :=
  Int.add (Int.add size l) splitterSize.

Definition runSize (splitterSize : Z) (sizes : list Z) : Z :=
  match sizes with
  | [] => 0%Z
  | l :: rest => fold_left (accumulate splitterSize) rest (Int.add 0 l)
  end.

(** The same sum without wrap-around. *)
Definition plainSize (splitterSize : Z) (sizes : list Z) : Z :=
  match sizes with
  | [] => 0%Z
  | l :: rest =>
      fold_left (fun acc x => (acc + x + splitterSize)%Z) rest l
  end.

(** A group of fragments with their sizes, and the chunk it is joined to. *)
Definition Group : Type := list (gostring * Z).

Definition joinGroup (splitter : gostring) (g : Group) : gostring :=
  Strings.Join (map fst g) splitter.

(** The chunks of a list of groups: the joins that are not empty. *)
Definition chunksOf (splitter : gostring) (groups : list Group)
  : list gostring :=
  filter (fun chunk => 0 <? List.length chunk)
         (map (joinGroup splitter) groups).

(** A group is within the budget, or is a single fragment. *)
Definition withinBudget (splitterSize chunkSize : Z) (g : Group) : Prop :=
  List.length g = 1 \/ (runSize splitterSize (map snd g) <= chunkSize)%Z.

(** The size of the first fragment of the first group. *)
Definition firstSize (groups : list Group) : option Z :=
  match groups with
  | ((_, l) :: _) :: _ => Some l
  | _ => None
  end.

(** The groups are packed greedily: the first fragment of a group did not
    fit into the group before it. *)
Fixpoint greedy (splitterSize chunkSize : Z) (groups : list Group) : Prop :=
  match groups with
  | [] => True
  | g :: rest =>
      match firstSize rest with
      | Some l => (chunkSize < runSize splitterSize (map snd g ++ [l]))%Z
      | None => True
      end
      /\ greedy splitterSize chunkSize rest
  end.

(** The splitter with another value of the field [PreserveURLs]. *)
Definition setPreserveURLs (flag : bool) (c : TextSplitter) : TextSplitter :=
  mkTextSplitter (chunkSize c) (countTokenFunc c) (overlap c)
                 (mkOption flag (PreservePatterns (opts c))).

(** The positions 0, 1, ... of a run of [n] fragments. *)
Definition positions (n : nat) : list Z := map Z.of_nat (seq 0 n).

(** The bytes that [unicode.IsSpace] holds of, among the ASCII bytes. *)
Definition isAsciiSpace (b : ascii) : bool :=
  Ascii.eqb b (byte_of 9) || Ascii.eqb b (byte_of 10)
  || Ascii.eqb b (byte_of 11) || Ascii.eqb b (byte_of 12)
  || Ascii.eqb b (byte_of 13) || Ascii.eqb b (byte_of 32).

(** The first terminator of the second list that is followed by a byte of
    the class [\s] somewhere in the text. *)
Definition firstPreceder (text : gostring) : option gostring :=
  find (fun p => match FindLiteralSpace p text with
                 | Some _ => true
                 | None => false
                 end)
       nonWhitespaceSemanticSplitters.

(** The sizes of the [k] fragments from position [j] on. *)
Definition window (splitSizes : list Z) (j k : nat) : list Z :=
  firstn k (skipn j splitSizes).

(** The size kept for an accumulator of [k] fragments from position [j]. *)
Definition keptSize (splitterSize : Z) (splitSizes : list Z) (j k : nat) : Z :=
  Int.wrap (plainSize splitterSize (window splitSizes j k)).

(** [utf8.ValidString]: no byte of the string starts a sequence that
    decodes to the error rune of width 1. *)
Fixpoint validLoop (n : nat) (s : gostring) : bool :=
  match n with
  | O => match s with [] => true | _ :: _ => false end
  | S n' =>
      match s with
      | [] => true
      | _ :: _ =>
          let '(r, w) := Utf8.DecodeRuneInString s in
          negb ((r =? Utf8.RuneError)%N && (w =? 1))
          && validLoop n' (skipn w s)
      end
  end.

Definition ValidString (s : gostring) : bool := validLoop (List.length s) s.

(** * Properties of the string functions *)
Section StringFacts.

Lemma HasPrefix_true (p s : gostring) :
  Strings.HasPrefix s p = true -> s = p ++ skipn (List.length p) s.
Proof.
  revert s; induction p as [|c p IH]; intros s H.
  - reflexivity.
  - destruct s as [|d s]; [discriminate|]. simpl in H.
    apply andb_true_iff in H as [Hc Hp].
    apply Ascii.eqb_eq in Hc; subst d.
    simpl. f_equal. now apply IH.
Qed.

Lemma HasPrefix_app (p r : gostring) : Strings.HasPrefix (p ++ r) p = true.
Proof.
  induction p as [|c p IH]; simpl; [now destruct r|].
  now rewrite Ascii.eqb_refl, IH.
Qed.

Lemma Index_eq (s sep : gostring) :
  Strings.Index s sep =
  if Strings.HasPrefix s sep then Some 0
  else match s with
       | [] => None
       | _ :: s' => option_map S (Strings.Index s' sep)
       end.
Proof. destruct s; reflexivity. Qed.

Lemma Index_Some (sep s : gostring) (m : nat) :
  Strings.Index s sep = Some m ->
  s = firstn m s ++ sep ++ skipn (m + List.length sep) s.
Proof.
  revert m; induction s as [|c s IH]; intros m H; rewrite Index_eq in H.
  - destruct (Strings.HasPrefix [] sep) eqn:Hp; [|discriminate].
    injection H as <-. now apply HasPrefix_true in Hp.
  - destruct (Strings.HasPrefix (c :: s) sep) eqn:Hp.
    + injection H as <-. now apply HasPrefix_true in Hp.
    + destruct (Strings.Index s sep) as [k|] eqn:Hk; [|discriminate].
      injection H as <-. simpl. f_equal. now apply IH.
Qed.

Lemma Index_length (sep s : gostring) (m : nat) :
  Strings.Index s sep = Some m -> m + List.length sep <= List.length s.
Proof.
  revert m; induction s as [|c s IH]; intros m H; rewrite Index_eq in H.
  - destruct (Strings.HasPrefix [] sep) eqn:Hp; [|discriminate].
    injection H as <-. apply HasPrefix_true in Hp.
    apply (f_equal (@List.length _)) in Hp. rewrite length_app in Hp.
    simpl in *. lia.
  - destruct (Strings.HasPrefix (c :: s) sep) eqn:Hp.
    + injection H as <-. apply HasPrefix_true in Hp.
      apply (f_equal (@List.length _)) in Hp. rewrite length_app in Hp.
      simpl in *. lia.
    + destruct (Strings.Index s sep) as [k|] eqn:Hk; [|discriminate].
      injection H as <-. specialize (IH _ eq_refl). simpl. lia.
Qed.

Lemma Join_cons (e : gostring) (rest : list gostring) (sep : gostring) :
  rest <> [] -> Strings.Join (e :: rest) sep = e ++ sep ++ Strings.Join rest sep.
Proof. destruct rest; [congruence|reflexivity]. Qed.

Lemma Join_empty_sep (l : list gostring) : Strings.Join l [] = List.concat l.
Proof.
  induction l as [|e l IH]; [reflexivity|].
  destruct l as [|e' l].
  - simpl. now rewrite app_nil_r.
  - rewrite Join_cons by discriminate. simpl in *. now rewrite IH.
Qed.

Lemma genSplitLoop_nonempty (n : nat) (s sep : gostring) :
  Strings.genSplitLoop n s sep <> [].
Proof.
  destruct n; simpl; [discriminate|].
  destruct (Strings.Index s sep); discriminate.
Qed.

Lemma genSplitLoop_Join (n : nat) (s sep : gostring) :
  Strings.Join (Strings.genSplitLoop n s sep) sep = s.
Proof.
  revert s; induction n as [|n IH]; intros s; simpl; [reflexivity|].
  destruct (Strings.Index s sep) as [m|] eqn:Hm; [|reflexivity].
  rewrite Join_cons by apply genSplitLoop_nonempty.
  rewrite IH. symmetry. now apply Index_Some.
Qed.

Ltac break_match :=
  match goal with
  | |- context [if ?b then _ else _] => destruct b
  | |- context [match ?x with _ => _ end] => destruct x
  end.

Lemma width_bounds (c : ascii) (s : gostring) :
  1 <= Utf8.width (c :: s) <= List.length (c :: s).
Proof.
  unfold Utf8.width, Utf8.DecodeRuneInString.
  generalize (Utf8.byteval c); intros s0.
  destruct (s0 <? 128)%N; [simpl; lia|].
  destruct ((s0 <? 194)%N || (244 <? s0)%N); [simpl; lia|].
  unfold Utf8.seqLen.
  destruct (Utf8.acceptRange s0) as [lo hi].
  destruct (s0 <? 224)%N; [|destruct (s0 <? 240)%N].
  all: destruct s as [|c1 [|c2 [|c3 s]]]; simpl; repeat break_match; simpl.
  all: try lia.
Qed.

Lemma width_le_4 (s : gostring) : Utf8.width s <= 4.
Proof.
  unfold Utf8.width, Utf8.DecodeRuneInString.
  destruct s as [|b s]; [simpl; lia|].
  generalize (Utf8.byteval b); intros s0.
  destruct (Utf8.acceptRange s0) as [lo hi].
  destruct s as [|c1 [|c2 [|c3 s]]]; simpl; repeat break_match; simpl; lia.
Qed.

Lemma explodeLoop_concat (n : nat) (s : gostring) :
  List.length s <= n -> List.concat (Strings.explodeLoop n s) = s.
Proof.
  revert s; induction n as [|n IH]; intros s Hn.
  - destruct s; simpl in *; [reflexivity|lia].
  - destruct s as [|c s]; [reflexivity|].
    cbn [Strings.explodeLoop List.concat].
    pose proof (width_bounds c s) as Hw.
    rewrite IH.
    + apply firstn_skipn.
    + rewrite length_skipn. cbn [List.length] in *. lia.
Qed.

Lemma Split_Join (s sep : gostring) :
  Strings.Join (Strings.Split s sep) sep = s.
Proof.
  destruct sep as [|c sep]; simpl.
  - rewrite Join_empty_sep. now apply explodeLoop_concat.
  - apply genSplitLoop_Join.
Qed.

Lemma slice_skipn (text : gostring) (lo hi : nat) :
  lo <= hi -> slice text lo hi ++ skipn hi text = skipn lo text.
Proof.
  intros H. unfold slice.
  replace hi with ((hi - lo) + lo) at 2 by lia.
  rewrite <- skipn_skipn. apply firstn_skipn.
Qed.

End StringFacts.

(** * The splits of [innerSplit] rejoin to the text *)
Section Rejoin.

Lemma matchesFrom_weaken (pos pos' len : nat) (ms : list (nat * nat)) :
  pos <= pos' -> matchesFrom pos' len ms -> matchesFrom pos len ms.
Proof. destruct ms as [|[a b] ms]; simpl; intuition lia. Qed.

Lemma preserveLoop_concat (text : gostring) (ms : list (nat * nat)) :
  forall (last : nat) (parts : list gostring),
  matchesFrom last (List.length text) ms ->
  List.concat (preserveLoop text ms last parts)
  = List.concat parts ++ skipn last text.
Proof.
  induction ms as [|[a b] ms IH]; intros last parts H; simpl.
  - destruct (last <? List.length text) eqn:E.
    + rewrite concat_app. simpl. now rewrite app_nil_r.
    + apply Nat.ltb_ge in E. rewrite skipn_all2 by exact E.
      now rewrite app_nil_r.
  - destruct H as (H1 & H2 & H3 & H4).
    rewrite IH by exact H4.
    rewrite concat_app. simpl. rewrite app_nil_r, <- app_assoc.
    rewrite (slice_skipn text a b) by exact H2.
    destruct (last <? a) eqn:E.
    + rewrite concat_app. simpl. rewrite app_nil_r, <- app_assoc.
      now rewrite (slice_skipn text last a) by exact H1.
    + apply Nat.ltb_ge in E. now replace a with last by lia.
Qed.

Lemma lookbehindLoop_acc (text p : gostring) (ms : list (nat * nat)) :
  forall (last : nat) (parts : list gostring),
  lookbehindLoop text p ms last parts
  = parts ++ lookbehindLoop text p ms last [].
Proof.
  induction ms as [|[a b] ms IH]; intros last parts; simpl; [reflexivity|].
  rewrite IH, (IH b [_]). now rewrite <- app_assoc.
Qed.

Lemma lookbehindLoop_nonempty (text p : gostring) (ms : list (nat * nat))
      (last : nat) (parts : list gostring) :
  lookbehindLoop text p ms last parts <> [].
Proof.
  rewrite lookbehindLoop_acc.
  destruct ms as [|[a b] ms]; simpl.
  - now destruct parts.
  - rewrite lookbehindLoop_acc. now destruct parts.
Qed.

Lemma lookbehindLoop_Join (text p sp : gostring) (ms : list (nat * nat)) :
  forall last : nat,
  matchesFrom last (List.length text) ms ->
  Forall (matchIs text (p ++ sp)) ms ->
  Strings.Join (lookbehindLoop text p ms last []) sp = skipn last text.
Proof.
  induction ms as [|[a b] ms IH]; intros last Hm Hs; simpl.
  - reflexivity.
  - destruct Hm as (H1 & H2 & H3 & H4).
    inversion Hs as [|? ? Hab Hs']; subst. unfold matchIs in Hab; simpl in Hab.
    rewrite lookbehindLoop_acc. cbn [app].
    rewrite Join_cons by apply lookbehindLoop_nonempty.
    rewrite IH by assumption.
    rewrite <- (slice_skipn text last a) by exact H1.
    rewrite <- (slice_skipn text a b) by exact H2.
    rewrite Hab. now rewrite <- !app_assoc.
Qed.

Lemma literalLoop_spec (lit text : gostring) (n : nat) :
  forall (pos : nat) (s : gostring),
  s = skipn pos text -> pos <= List.length text ->
  matchesFrom pos (List.length text) (literalLoop n lit pos s)
  /\ Forall (matchIs text lit) (literalLoop n lit pos s).
Proof.
  induction n as [|n IH]; intros pos s Hs Hpos; simpl; [now split|].
  destruct (Strings.Index s lit) as [m|] eqn:Hm; [|now split].
  pose proof (Index_length _ _ _ Hm) as Hlen.
  pose proof (Index_Some _ _ _ Hm) as Hsplit.
  assert (Hs_len : List.length s = List.length text - pos)
    by (subst s; apply length_skipn).
  assert (Hhere : matchIs text lit (pos + m, pos + m + List.length lit)).
  { unfold matchIs, slice; simpl.
    replace (pos + m + List.length lit - (pos + m)) with (List.length lit) by lia.
    rewrite Nat.add_comm, <- skipn_skipn, <- Hs.
    rewrite Hsplit at 1. rewrite skipn_app, skipn_firstn_comm.
    replace (m - m) with 0 by lia. simpl.
    rewrite length_firstn. replace (m - Nat.min m (List.length s)) with 0 by lia.
    simpl. rewrite firstn_app, firstn_all.
    replace (List.length lit - List.length lit) with 0 by lia.
    simpl. apply app_nil_r. }
  destruct lit as [|c lit].
  - assert (Hm0 : m = 0).
    { rewrite Index_eq in Hm. destruct s; simpl in Hm; congruence. }
    destruct s as [|d s'] eqn:Es.
    + simpl in *. repeat split; try lia. constructor; [exact Hhere|constructor].
    + pose proof (width_bounds d s') as Hw.
      remember (Utf8.width (d :: s')) as w eqn:Ew. clear Ew.
      cbn [List.length] in Hlen, Hs_len, Hw.
      destruct (IH (pos + w) (skipn w (d :: s'))) as [I1 I2].
      * rewrite Hs, skipn_skipn. f_equal. lia.
      * lia.
      * split.
        -- simpl. repeat split; try lia.
           eapply matchesFrom_weaken; [|exact I1]. lia.
        -- constructor; assumption.
  - destruct (IH (pos + m + List.length (c :: lit))
                 (skipn (m + List.length (c :: lit)) s)) as [I1 I2].
    + rewrite Hs, skipn_skipn. f_equal. lia.
    + lia.
    + split.
      * cbn [matchesFrom]. repeat split; try lia. exact I1.
      * constructor; assumption.
Qed.

Lemma FindAllLiteralIndex_spec (lit text : gostring) :
  matchesFrom 0 (List.length text) (FindAllLiteralIndex lit text)
  /\ Forall (matchIs text lit) (FindAllLiteralIndex lit text).
Proof. apply literalLoop_spec; [reflexivity|lia]. Qed.

Lemma literal_wellBehaved (lit : gostring) : wellBehaved (literal lit).
Proof. intros text. apply FindAllLiteralIndex_spec. Qed.

Lemma LookbehindSplit_Join (text precededBy splitter : gostring) :
  Strings.Join (LookbehindSplit text precededBy splitter) splitter = text.
Proof.
  unfold LookbehindSplit.
  destruct (FindAllLiteralIndex_spec (precededBy ++ splitter) text) as [H1 H2].
  now rewrite lookbehindLoop_Join.
Qed.

Lemma guarded_Some {A : Type} (b : bool) (o : option A) (r : A) :
  (if b then o else None) = Some r -> b = true /\ o = Some r.
Proof. destruct b; [now split|discriminate]. Qed.

Lemma splitAtRuns_rejoins cls text r :
  splitAtRuns cls text = Some r -> rejoins text r.
Proof.
  unfold splitAtRuns. destruct (0 <? _); [|discriminate].
  intros [= <-]. apply Split_Join.
Qed.

Lemma splitAtPatterns_rejoins text pats r :
  Forall wellBehaved pats ->
  splitAtPatterns text pats = Some r -> rejoins text r.
Proof.
  induction pats as [|p pats IH]; intros Hwf; simpl; [discriminate|].
  inversion Hwf as [|? ? Hp Hps]; subst.
  destruct (0 <? _).
  - intros [= <-]. unfold rejoins; simpl.
    rewrite Join_empty_sep, preserveLoop_concat by apply Hp. reflexivity.
  - now apply IH.
Qed.

Lemma splitAtLiteral_rejoins text splitters r :
  splitAtLiteral text splitters = Some r -> rejoins text r.
Proof.
  induction splitters as [|d ds IH]; simpl; [discriminate|].
  destruct (Strings.Contains text d); [|exact IH].
  intros [= <-]. apply Split_Join.
Qed.

Lemma splitAtPreceded_rejoins text preceders r :
  splitAtPreceded text preceders = Some r -> rejoins text r.
Proof.
  induction preceders as [|p ps IH]; simpl; [discriminate|].
  destruct (FindLiteralSpace p text) as [sp|]; [|exact IH].
  intros [= <-]. apply LookbehindSplit_Join.
Qed.

Lemma splitAtWhitespace_rejoins text r :
  splitAtWhitespace text = Some r -> rejoins text r.
Proof.
  unfold splitAtWhitespace. destruct (0 <? _); [|discriminate].
  destruct (if _ =? 1 then _ else None) as [r'|] eqn:E.
  - intros [= <-]. apply guarded_Some in E as [_ E].
    now apply splitAtPreceded_rejoins in E.
  - intros [= <-]. apply Split_Join.
Qed.

(** Case analysis on the branch [innerSplit] takes. *)
Lemma innerSplit_cases (P : SplitResult -> Prop) text pats :
  (forall r, splitAtRuns isNewline text = Some r -> P r) ->
  (forall r, splitAtRuns isTab text = Some r -> P r) ->
  (forall r, splitAtPatterns text pats = Some r -> P r) ->
  (forall r, splitAtLiteral text fullWidthNonWhitespaceSemanticSpliters = Some r
             -> P r) ->
  (forall r, splitAtWhitespace text = Some r -> P r) ->
  (forall r, splitAtLiteral text nonWhitespaceSemanticSplitters = Some r
             -> P r) ->
  P ([], true, Strings.Split text []) ->
  P (innerSplit text pats).
Proof.
  intros H1 H2 H3 H4 H5 H6 H7. unfold innerSplit, orElse.
  destruct (if _ || _ then _ else None) eqn:E1.
  { apply guarded_Some in E1 as [_ E1]. now apply H1. }
  destruct (if Strings.Contains _ _ then _ else None) eqn:E2.
  { apply guarded_Some in E2 as [_ E2]. now apply H2. }
  destruct (splitAtPatterns text pats) eqn:E3; [now apply H3|].
  destruct (splitAtLiteral text fullWidthNonWhitespaceSemanticSpliters) eqn:E4;
    [now apply H4|].
  destruct (if ContainsSpace text then _ else None) eqn:E5.
  { apply guarded_Some in E5 as [_ E5]. now apply H5. }
  destruct (splitAtLiteral text nonWhitespaceSemanticSplitters) eqn:E6;
    [now apply H6|].
  exact H7.
Qed.

Lemma innerSplit_rejoins text pats :
  Forall wellBehaved pats -> rejoins text (innerSplit text pats).
Proof.
  intros Hwf. apply innerSplit_cases.
  - apply splitAtRuns_rejoins.
  - apply splitAtRuns_rejoins.
  - intros r. apply splitAtPatterns_rejoins. exact Hwf.
  - apply splitAtLiteral_rejoins.
  - apply splitAtWhitespace_rejoins.
  - apply splitAtLiteral_rejoins.
  - apply Split_Join.
Qed.

End Rejoin.

(** * The loops of [mergeSplits] and [split] *)
Section Loops.

Variable c : TextSplitter.

Lemma nonEmpty_false {A : Type} (l : list A) : nonEmpty l = false -> l = [].
Proof. destruct l; [reflexivity|discriminate]. Qed.

Lemma nonEmpty_true {A : Type} (l : list A) : nonEmpty l = true -> l <> [].
Proof. destruct l; [discriminate|discriminate]. Qed.

Lemma evict_eq splitSizes l splitterSize chunkSize splitIds toMerge size :
  evict c splitSizes l splitterSize chunkSize splitIds toMerge size =
  if evictCond c l splitterSize chunkSize toMerge size then
    match splitIds with
    | [] => Panic
    | id :: splitIds' =>
        match index splitSizes id with
        | None => Panic
        | Some frontSize =>
            let size := Int.sub size frontSize in
            let size := if 1 <? List.length toMerge
                        then Int.sub size splitterSize else size in
            match toMerge with
            | [] => Panic
            | _ :: toMerge' =>
                evict c splitSizes l splitterSize chunkSize splitIds' toMerge' size
            end
        end
    end
  else Ok (toMerge, splitIds, size).
Proof. destruct splitIds; reflexivity. Qed.

(** The eviction loop leaves a tail of the accumulator. *)
Lemma evict_tail splitSizes l splitterSize chunkSize splitIds :
  forall toMerge size toMerge' splitIds' size',
  evict c splitSizes l splitterSize chunkSize splitIds toMerge size
  = Ok (toMerge', splitIds', size') ->
  exists k, toMerge' = skipn k toMerge.
Proof.
  induction splitIds as [|id ids IH]; intros tm size tm' ids' size' H;
    rewrite evict_eq in H;
    destruct (evictCond c l splitterSize chunkSize tm size).
  - discriminate.
  - injection H as <- _ _. now exists 0.
  - destruct (index splitSizes id); [|discriminate].
    destruct tm as [|f tm]; [discriminate|].
    apply IH in H as [k ->]. now exists (S k).
  - injection H as <- _ _. now exists 0.
Qed.

(** One turn of the loop of [mergeSplits]: either nothing is emitted, or
    the accumulator is emitted and a tail of it is kept; then the split is
    appended. *)
Lemma mergeLoop_step splitSizes splitter splitterSize chunkSize
      split rest i merges toMerge splitIds size r :
  mergeLoop c splitSizes splitter splitterSize chunkSize (split :: rest) i
            merges toMerge splitIds size = Ok r ->
  exists merges' toMerge' splitIds' size',
    ((merges' = merges /\ toMerge' = toMerge)
     \/ (merges' = appendMerged merges (Strings.Join toMerge splitter)
         /\ exists k, toMerge' = skipn k toMerge))
    /\ mergeLoop c splitSizes splitter splitterSize chunkSize rest (S i)
                 merges' (toMerge' ++ [split]) splitIds' size' = Ok r.
Proof.
  cbn [mergeLoop]. destruct (nth_error splitSizes i) as [l|]; [|discriminate].
  destruct (chunkSize <? estimateSize size l splitterSize (nonEmpty toMerge))%Z.
  - destruct (0 <? overlap c)%Z.
    + destruct (evict c splitSizes l splitterSize chunkSize splitIds toMerge size)
        as [[[tm ids] sz]| |] eqn:E; cbn [bind]; try discriminate.
      intros H. apply evict_tail in E.
      eexists _, tm, _, _. split; [right; split; [reflexivity|exact E]|exact H].
    + cbn [bind]. intros H.
      eexists _, [], _, _. split; [right; split; [reflexivity|]|exact H].
      exists (List.length toMerge). now rewrite skipn_all.
  - cbn [bind]. intros H.
    eexists _, toMerge, _, _. split; [left; split; reflexivity|exact H].
Qed.

(** An invariant of the loop of [mergeSplits], over the fragments done,
    the chunks emitted and the accumulator. *)
Lemma mergeLoop_invariant (I : list gostring -> list gostring -> list gostring -> Prop)
      splitSizes splitter splitterSize chunkSize :
  (forall done merges toMerge k,
      I done merges toMerge ->
      I done (appendMerged merges (Strings.Join toMerge splitter))
        (skipn k toMerge)) ->
  (forall done merges toMerge split,
      I done merges toMerge -> I (done ++ [split]) merges (toMerge ++ [split])) ->
  forall splits done i merges toMerge splitIds size r,
    I done merges toMerge ->
    mergeLoop c splitSizes splitter splitterSize chunkSize splits i
              merges toMerge splitIds size = Ok r ->
    exists merges' toMerge',
      I (done ++ splits) merges' toMerge'
      /\ r = if nonEmpty toMerge'
             then appendMerged merges' (Strings.Join toMerge' splitter)
             else merges'.
Proof.
  intros Hemit Hpush.
  induction splits as [|f rest IH]; intros done i merges tm ids size r HI H.
  - cbn [mergeLoop] in H. injection H as <-.
    exists merges, tm. now rewrite app_nil_r.
  - apply mergeLoop_step in H
      as (merges' & tm' & ids' & size' & [[-> ->]|[-> [k ->]]] & H).
    + apply IH with (done := done ++ [f]) in H; [|now apply Hpush].
      now rewrite <- app_assoc in H.
    + apply IH with (done := done ++ [f]) in H; [|now apply Hpush, Hemit].
      now rewrite <- app_assoc in H.
Qed.

(** An invariant of the loop of [split], over the fragments whose chunks
    are in [rets]. *)
Lemma splitLoop_invariant (Q : list gostring -> list gostring -> Prop)
      (recurse : gostring -> result (list gostring)) splitter chunkSize :
  (forall done rets good sizes ids merges,
      Q done rets -> good <> [] ->
      mergeSplits c good sizes ids splitter chunkSize = Ok merges ->
      Q (done ++ good) (rets ++ merges)) ->
  (forall done rets split newSplits,
      Q done rets -> recurse split = Ok newSplits ->
      Q (done ++ [split]) (rets ++ newSplits)) ->
  forall splits done good i rets sizes ids r,
    Q done rets ->
    splitLoop recurse c splitter chunkSize splits i rets good sizes ids = Ok r ->
    Q (done ++ good ++ splits) r.
Proof.
  intros Hflush Hrec.
  induction splits as [|f rest IH]; intros done good i rets sizes ids r HQ H.
  - cbn [splitLoop] in H. rewrite app_nil_r.
    destruct (nonEmpty good) eqn:Eg.
    + destruct (mergeSplits c good sizes ids splitter chunkSize) as [m| |] eqn:Em;
        cbn [bind] in H; try discriminate.
      injection H as <-. eapply Hflush; eauto using nonEmpty_true.
    + injection H as <-. apply nonEmpty_false in Eg. subst good.
      now rewrite app_nil_r.
  - cbn [splitLoop] in H.
    destruct (countTokenFunc c f <? chunkSize)%Z.
    + apply IH with (done := done) in H; [|exact HQ].
      now rewrite <- app_assoc in H.
    + assert (Hst : exists st,
                 (if nonEmpty good
                  then merges <- mergeSplits c good sizes ids splitter chunkSize ;;
                       Ok (rets ++ merges)
                  else Ok rets) = Ok st /\ Q (done ++ good) st).
      { destruct (nonEmpty good) eqn:Eg.
        - destruct (mergeSplits c good sizes ids splitter chunkSize)
            as [m| |] eqn:Em; cbn [bind] in H; try discriminate.
          exists (rets ++ m). split; [reflexivity|].
          eapply Hflush; eauto using nonEmpty_true.
        - exists rets. split; [reflexivity|].
          apply nonEmpty_false in Eg. subst good. now rewrite app_nil_r. }
      destruct Hst as (st & Est & HQst). rewrite Est in H. cbn [bind] in H.
      destruct (recurse f) as [sub| |] eqn:Er; cbn [bind] in H; try discriminate.
      apply IH with (done := (done ++ good) ++ [f]) in H; [|now eapply Hrec].
      cbn [app] in H. now rewrite <- !app_assoc in H.
Qed.

End Loops.

(** * Chunks are non-empty and rebuild the text *)
Section Chunks.

Variable c : TextSplitter.

Lemma appendMerged_nonEmptyChunks merges merged :
  nonEmptyChunks merges -> nonEmptyChunks (appendMerged merges merged).
Proof.
  intros H. unfold appendMerged. destruct merged as [|b merged]; simpl.
  - exact H.
  - apply Forall_app. split; [exact H|]. now repeat constructor.
Qed.

Lemma mergeSplits_nonEmptyChunks splits sizes ids splitter chunkSize r :
  mergeSplits c splits sizes ids splitter chunkSize = Ok r -> nonEmptyChunks r.
Proof.
  unfold mergeSplits. intros H.
  apply (mergeLoop_invariant c (fun _ merges _ => nonEmptyChunks merges))
    with (done := []) in H as (merges' & tm' & HI & ->).
  - destruct (nonEmpty tm'); [now apply appendMerged_nonEmptyChunks|exact HI].
  - intros. now apply appendMerged_nonEmptyChunks.
  - intros. assumption.
  - constructor.
Qed.

Lemma split_nonEmptyChunks fuel :
  forall text chunkSize depth r,
  split fuel c text chunkSize depth = Ok r -> nonEmptyChunks r.
Proof.
  induction fuel as [|fuel IH]; intros text chunkSize depth r H;
    cbn [split] in H; [discriminate|].
  destruct (innerSplit text (PreservePatterns (opts c))) as [[splitter ws] splits].
  apply (splitLoop_invariant c (fun _ rets => nonEmptyChunks rets))
    with (done := []) in H.
  - exact H.
  - intros done rets good sizes ids merges Hr _ Hm.
    apply Forall_app. split; [exact Hr|].
    now apply mergeSplits_nonEmptyChunks in Hm.
  - intros done rets f sub Hr Hs.
    apply Forall_app. split; [exact Hr|]. now apply IH in Hs.
  - constructor.
Qed.

(** ** Delimiter strings *)

Lemma delimString_app a b :
  delimString a -> delimString b -> delimString (a ++ b).
Proof.
  intros Ha Hb. induction Ha as [|x s Hx Hs IH|t s Ht Hs IH]; simpl.
  - exact Hb.
  - now apply delim_space.
  - rewrite <- app_assoc. now apply delim_terminator.
Qed.

Lemma delimString_spaces s :
  Forall (fun b => isSpaceClass b = true) s -> delimString s.
Proof.
  induction 1 as [|b s Hb Hs IH]; [constructor|now apply delim_space].
Qed.

Lemma delimString_terminator t :
  In t (fullWidthNonWhitespaceSemanticSpliters ++ nonWhitespaceSemanticSplitters)
  -> delimString t.
Proof.
  intros H. rewrite <- (app_nil_r t). apply delim_terminator; [exact H|constructor].
Qed.

Lemma isNewline_space b : isNewline b = true -> isSpaceClass b = true.
Proof.
  unfold isNewline, isSpaceClass. intros H.
  apply orb_true_iff in H as [H|H]; rewrite H; now rewrite ?orb_true_r.
Qed.

Lemma isTab_space b : isTab b = true -> isSpaceClass b = true.
Proof. unfold isTab, isSpaceClass. now intros ->. Qed.

Lemma runsLoop_class (cls : ascii -> bool) s :
  forall cur,
  Forall (fun b => cls b = true) cur ->
  Forall (Forall (fun b => cls b = true)) (runsLoop cls s cur).
Proof.
  induction s as [|b s IH]; intros cur Hcur; simpl.
  - destruct cur; [constructor|]. constructor; [exact Hcur|constructor].
  - destruct (cls b) eqn:Hb.
    + apply IH. apply Forall_app. split; [exact Hcur|].
      constructor; [exact Hb|constructor].
    + destruct cur.
      * apply IH. constructor.
      * constructor; [exact Hcur|]. apply IH. constructor.
Qed.

Lemma longestSplitter_elim_cons (P : gostring -> Prop) first rest :
  Forall P (first :: rest) -> P (longestSplitter (first :: rest)).
Proof.
  intros Hall. inversion Hall as [|? ? Hfirst Hrest]; subst. simpl.
  clear Hall. revert first Hfirst.
  induction Hrest as [|x rest Hx Hrest IH]; intros first Hfirst; simpl.
  - exact Hfirst.
  - apply IH. now destruct (_ <? _).
Qed.

Lemma longestSplitter_elim (P : gostring -> Prop) splitters :
  P [] -> Forall P splitters -> P (longestSplitter splitters).
Proof.
  intros Hnil Hall. destruct splitters as [|first rest]; [exact Hnil|].
  now apply longestSplitter_elim_cons.
Qed.

Lemma FindLiteralSpace_eq lit s :
  FindLiteralSpace lit s =
  match (if Strings.HasPrefix s lit then
           match skipn (List.length lit) s with
           | b :: _ => if isSpaceClass b then Some [b] else None
           | [] => None
           end
         else None) with
  | Some m => Some m
  | None => match s with
            | [] => None
            | _ :: s' => FindLiteralSpace lit s'
            end
  end.
Proof. destruct s; reflexivity. Qed.

Lemma FindLiteralSpace_space lit s m :
  FindLiteralSpace lit s = Some m ->
  exists b, m = [b] /\ isSpaceClass b = true.
Proof.
  induction s as [|x s IH]; rewrite FindLiteralSpace_eq;
    destruct (Strings.HasPrefix _ lit);
    try destruct (skipn (List.length lit) _) as [|b tl];
    try destruct (isSpaceClass b) eqn:Hb;
    intros H; try discriminate; try (now apply IH);
    injection H as <-; now exists b.
Qed.

Lemma splitAtRuns_delim cls text r :
  (forall b, cls b = true -> isSpaceClass b = true) ->
  splitAtRuns cls text = Some r -> delimResult r.
Proof.
  intros Hcls. unfold splitAtRuns. destruct (0 <? _); [|discriminate].
  intros [= <-]. unfold delimResult; simpl.
  apply longestSplitter_elim; [constructor|].
  eapply Forall_impl; [|apply runsLoop_class; constructor].
  intros run Hrun. apply delimString_spaces.
  eapply Forall_impl; [|exact Hrun]. exact Hcls.
Qed.

Lemma splitAtPatterns_delim text pats r :
  splitAtPatterns text pats = Some r -> delimResult r.
Proof.
  induction pats as [|p pats IH]; simpl; [discriminate|].
  destruct (0 <? _); [|exact IH]. intros [= <-]. constructor.
Qed.

Lemma splitAtLiteral_In text splitters r :
  splitAtLiteral text splitters = Some r -> In (fst (fst r)) splitters.
Proof.
  induction splitters as [|d ds IH]; simpl; [discriminate|].
  destruct (Strings.Contains text d).
  - intros [= <-]. now left.
  - intros H. right. now apply IH.
Qed.

Lemma splitAtPreceded_delim text preceders r :
  splitAtPreceded text preceders = Some r -> delimResult r.
Proof.
  induction preceders as [|p ps IH]; simpl; [discriminate|].
  destruct (FindLiteralSpace p text) as [sp|] eqn:E; [|exact IH].
  intros [= <-]. apply FindLiteralSpace_space in E as (b & -> & Hb).
  unfold delimResult; simpl. apply delim_space; [exact Hb|constructor].
Qed.

Lemma splitAtWhitespace_delim text r :
  splitAtWhitespace text = Some r -> delimResult r.
Proof.
  unfold splitAtWhitespace. destruct (0 <? _) eqn:E0; [|discriminate].
  destruct (if _ =? 1 then _ else None) as [r'|] eqn:E.
  - intros [= <-]. apply guarded_Some in E as [_ E].
    now apply splitAtPreceded_delim in E.
  - intros [= <-].
    apply (splitAtRuns_delim isSpaceClass text); [auto|].
    unfold splitAtRuns. now rewrite E0.
Qed.

Lemma innerSplit_delim text pats : delimResult (innerSplit text pats).
Proof.
  apply innerSplit_cases.
  - intros r. apply splitAtRuns_delim, isNewline_space.
  - intros r. apply splitAtRuns_delim, isTab_space.
  - apply splitAtPatterns_delim.
  - intros r H. apply splitAtLiteral_In in H.
    apply delimString_terminator, in_or_app. now left.
  - apply splitAtWhitespace_delim.
  - intros r H. apply splitAtLiteral_In in H.
    apply delimString_terminator, in_or_app. now right.
  - constructor.
Qed.

End Chunks.

(** ** Rebuilding the text from the chunks *)
Section Rebuild.

Variable c : TextSplitter.
Variable gapOk : gostring -> Prop.
Hypothesis gap_nil : gapOk [].
Hypothesis gap_app : forall a b, gapOk a -> gapOk b -> gapOk (a ++ b).
Variable splitter : gostring.
Hypothesis splitter_gap : gapOk splitter.

Lemma isSuffix_nil s : isSuffix [] s.
Proof. exists s. now rewrite app_nil_r. Qed.

Lemma isSuffix_of_nil s : isSuffix s [] -> s = [].
Proof. intros [p H]. symmetry in H. now apply app_eq_nil in H. Qed.

Lemma lastChunk_snoc chunks chunk : lastChunk (chunks ++ [chunk]) = chunk.
Proof. apply last_last. Qed.

Lemma lastChunk_app chunks chunks' :
  chunks' <> [] -> lastChunk (chunks ++ chunks') = lastChunk chunks'.
Proof.
  intros H. destruct (exists_last H) as (l & x & ->).
  now rewrite app_assoc, !lastChunk_snoc.
Qed.

Lemma rebuilds_app t1 c1 gap t2 c2 :
  rebuilds gapOk t1 c1 -> gapOk gap -> rebuilds gapOk t2 c2 ->
  rebuilds gapOk (t1 ++ gap ++ t2) (c1 ++ c2).
Proof.
  intros H1 Hg H2.
  induction H2 as [g Hgap|text chunks dup fresh g H2 IH Hdup Hgap
                  |text chunks g H2 IH Hgap].
  - rewrite app_nil_r. apply rec_gap; [exact H1|].
    now apply gap_app.
  - replace (t1 ++ gap ++ text ++ g ++ fresh)
      with ((t1 ++ gap ++ text) ++ g ++ fresh) by now rewrite <- !app_assoc.
    replace (c1 ++ chunks ++ [dup ++ fresh])
      with ((c1 ++ chunks) ++ [dup ++ fresh]) by (symmetry; apply app_assoc).
    apply rec_chunk; [exact IH| |exact Hgap].
    destruct chunks as [|x chunks].
    + apply isSuffix_of_nil in Hdup. subst dup. apply isSuffix_nil.
    + now rewrite lastChunk_app by discriminate.
  - replace (t1 ++ gap ++ text ++ g) with ((t1 ++ gap ++ text) ++ g)
      by now rewrite <- !app_assoc.
    now apply rec_gap.
Qed.

Lemma Join_app (A B : list gostring) :
  A <> [] -> B <> [] ->
  Strings.Join (A ++ B) splitter
  = Strings.Join A splitter ++ splitter ++ Strings.Join B splitter.
Proof.
  intros HA HB. induction A as [|a A IH]; [congruence|].
  destruct A as [|a' A].
  - cbn [app]. now rewrite Join_cons.
  - change ((a :: a' :: A) ++ B) with (a :: (a' :: A) ++ B).
    rewrite (Join_cons a ((a' :: A) ++ B)) by discriminate.
    rewrite (Join_cons a (a' :: A)) by discriminate.
    rewrite IH by discriminate. now rewrite <- !app_assoc.
Qed.

Lemma Join_app_gap (A B : list gostring) :
  exists gap,
    gapOk gap
    /\ Strings.Join (A ++ B) splitter
       = Strings.Join A splitter ++ gap ++ Strings.Join B splitter.
Proof.
  destruct A as [|a A].
  - exists []. split; [exact gap_nil|reflexivity].
  - destruct B as [|b B].
    + exists []. split; [exact gap_nil|]. now rewrite !app_nil_r.
    + exists splitter. split; [exact splitter_gap|].
      now apply Join_app.
Qed.

Lemma Join_skipn_suffix (k : nat) (l : list gostring) :
  isSuffix (Strings.Join (skipn k l) splitter) (Strings.Join l splitter).
Proof.
  revert l; induction k as [|k IH]; intros l.
  - exists []. reflexivity.
  - destruct l as [|a l]; [exists []; reflexivity|].
    cbn [skipn]. destruct (IH l) as [p Hp].
    destruct l as [|b l].
    + rewrite skipn_nil. apply isSuffix_nil.
    + rewrite Join_cons by discriminate. rewrite Hp.
      exists (a ++ splitter ++ p). now rewrite <- !app_assoc.
Qed.

Lemma mergeInv_start : mergeInv gapOk splitter [] [] [].
Proof.
  exists [], [], [], []. repeat split.
  - now apply rec_nil.
  - apply isSuffix_nil.
  - exact gap_nil.
  - congruence.
Qed.

Lemma mergeInv_push done merges toMerge split :
  mergeInv gapOk splitter done merges toMerge ->
  mergeInv gapOk splitter (done ++ [split]) merges (toMerge ++ [split]).
Proof.
  intros (covered & dup & gap & fresh & Hrec & Hdup & Hgap & Htm & Hdone & Hne).
  destruct toMerge as [|f toMerge].
  - cbn [Strings.Join] in Htm. symmetry in Htm.
    apply app_eq_nil in Htm as [-> ->].
    destruct done as [|d done].
    + cbn [Strings.Join] in Hdone. symmetry in Hdone.
      apply app_eq_nil in Hdone as [-> Hdone].
      apply app_eq_nil in Hdone as [-> _].
      exists [], [], [], split.
      repeat split; try assumption; try reflexivity; try exact gap_nil.
      intros _. discriminate.
    + exists covered, [], (gap ++ splitter), split.
      repeat split; try assumption.
      * now apply gap_app.
      * rewrite Join_app by discriminate. rewrite Hdone.
        cbn [Strings.Join]. now rewrite <- !app_assoc.
      * intros _ H. now apply app_eq_nil in H as [_ H].
  - assert (Hd : done <> []) by (apply Hne; discriminate).
    exists covered, dup, gap, (fresh ++ splitter ++ split).
    repeat split; try assumption.
    + rewrite Join_app by discriminate. rewrite Htm.
      cbn [Strings.Join]. now rewrite <- !app_assoc.
    + rewrite Join_app by (assumption || discriminate). rewrite Hdone.
      cbn [Strings.Join]. now rewrite <- !app_assoc.
    + intros _ H. now apply app_eq_nil in H as [_ H].
Qed.

Lemma mergeInv_emit done merges toMerge k :
  mergeInv gapOk splitter done merges toMerge ->
  mergeInv gapOk splitter done
           (appendMerged merges (Strings.Join toMerge splitter))
           (skipn k toMerge).
Proof.
  intros (covered & dup & gap & fresh & Hrec & Hdup & Hgap & Htm & Hdone & Hne).
  assert (Hne' : skipn k toMerge <> [] -> done <> []).
  { intros H. apply Hne. intros ->. now rewrite skipn_nil in H. }
  pose proof (Join_skipn_suffix k toMerge) as Hsuf.
  unfold appendMerged.
  destruct (Strings.Join toMerge splitter) as [|b merged] eqn:Ej.
  - cbn [List.length Nat.ltb Nat.leb].
    apply isSuffix_of_nil in Hsuf. symmetry in Htm.
    apply app_eq_nil in Htm as [-> ->].
    exists covered, [], gap, []. repeat split; try assumption.
  - replace (0 <? List.length (b :: merged)) with true by reflexivity.
    exists (covered ++ gap ++ fresh), (Strings.Join (skipn k toMerge) splitter),
           [], [].
    repeat split.
    + rewrite Htm. now apply rec_chunk.
    + now rewrite lastChunk_snoc.
    + exact gap_nil.
    + now rewrite app_nil_r.
    + now rewrite !app_nil_r.
    + exact Hne'.
Qed.

Lemma mergeInv_final done merges toMerge :
  mergeInv gapOk splitter done merges toMerge ->
  rebuilds gapOk (Strings.Join done splitter)
               (if nonEmpty toMerge
                then appendMerged merges (Strings.Join toMerge splitter)
                else merges).
Proof.
  intros (covered & dup & gap & fresh & Hrec & Hdup & Hgap & Htm & Hdone & Hne).
  rewrite Hdone.
  assert (Hskip : fresh = [] -> rebuilds gapOk (covered ++ gap ++ fresh) merges).
  { intros ->. rewrite app_nil_r. now apply rec_gap. }
  destruct (nonEmpty toMerge) eqn:En.
  - unfold appendMerged. rewrite Htm.
    destruct (dup ++ fresh) as [|b merged] eqn:Ed.
    + apply app_eq_nil in Ed as [_ ->]. now apply Hskip.
    + replace (0 <? List.length (b :: merged)) with true by reflexivity.
      rewrite <- Ed. now apply rec_chunk.
  - apply nonEmpty_false in En. subst toMerge. cbn [Strings.Join] in Htm.
    symmetry in Htm. apply app_eq_nil in Htm as [_ ->]. now apply Hskip.
Qed.

(** The chunks of [mergeSplits] rebuild the join of its fragments. *)
Lemma mergeSplits_rebuilds splits sizes ids chunkSize r :
  mergeSplits c splits sizes ids splitter chunkSize = Ok r ->
  rebuilds gapOk (Strings.Join splits splitter) r.
Proof.
  unfold mergeSplits. intros H.
  apply (mergeLoop_invariant c (mergeInv gapOk splitter)) with (done := []) in H
    as (merges' & tm' & HI & ->).
  - now apply mergeInv_final.
  - intros. now apply mergeInv_emit.
  - intros. now apply mergeInv_push.
  - apply mergeInv_start.
Qed.

(** The loop of [split], given that the recursive calls rebuild their
    fragments. *)
Lemma splitLoop_rebuilds (recurse : gostring -> result (list gostring))
      chunkSize splits r :
  (forall split newSplits,
      recurse split = Ok newSplits -> rebuilds gapOk split newSplits) ->
  splitLoop recurse c splitter chunkSize splits 0%Z [] [] [] [] = Ok r ->
  rebuilds gapOk (Strings.Join splits splitter) r.
Proof.
  intros Hrec H.
  apply (splitLoop_invariant c
           (fun done rets => rebuilds gapOk (Strings.Join done splitter) rets))
    with (done := []) in H.
  - exact H.
  - intros done rets good sizes ids merges Hr _ Hm.
    destruct (Join_app_gap done good) as (gap & Hgap & ->).
    apply rebuilds_app; [exact Hr|exact Hgap|].
    now apply mergeSplits_rebuilds in Hm.
  - intros done rets f sub Hr Hs.
    destruct (Join_app_gap done [f]) as (gap & Hgap & ->).
    apply rebuilds_app; [exact Hr|exact Hgap|].
    cbn [Strings.Join]. now apply Hrec.
  - apply rec_nil. exact gap_nil.
Qed.

End Rebuild.

Lemma split_reconstructs (c : TextSplitter) (fuel : nat) :
  Forall wellBehaved (PreservePatterns (opts c)) ->
  forall text chunkSize depth r,
  split fuel c text chunkSize depth = Ok r -> reconstructs text r.
Proof.
  intros Hwf.
  induction fuel as [|fuel IH]; intros text chunkSize depth r H;
    cbn [split] in H; [discriminate|].
  pose proof (innerSplit_rejoins text _ Hwf) as Hjoin.
  pose proof (innerSplit_delim text (PreservePatterns (opts c))) as Hdelim.
  destruct (innerSplit text (PreservePatterns (opts c))) as [[splitter ws] splits].
  unfold rejoins in Hjoin. unfold delimResult in Hdelim. simpl in Hjoin, Hdelim.
  rewrite <- Hjoin.
  apply (splitLoop_rebuilds c delimString delim_nil delimString_app splitter
           Hdelim) with (recurse := fun part =>
                           split fuel c part chunkSize (Int.add depth 1))
                        (chunkSize := chunkSize); [|exact H].
  intros part sub Hs. now apply IH in Hs.
Qed.

(** With the empty splitter nothing is dropped between the chunks of
    [mergeSplits]. *)
Lemma mergeSplits_empty_splitter (c : TextSplitter) splits sizes ids chunkSize r :
  mergeSplits c splits sizes ids [] chunkSize = Ok r ->
  rebuilds noGap (List.concat splits) r.
Proof.
  intros H. rewrite <- Join_empty_sep.
  apply (mergeSplits_rebuilds c noGap) in H; try reflexivity; [exact H|].
  intros a b -> ->. reflexivity.
Qed.

(** * Termination and absence of panics *)
Section Fragments.

Lemma Index_occurs d text :
  occursIn d text -> exists m, Strings.Index text d = Some m.
Proof.
  intros (p & q & ->). induction p as [|b p IH].
  - exists 0. rewrite Index_eq. cbn [app]. now rewrite HasPrefix_app.
  - destruct IH as [m Hm]. cbn [app]. rewrite Index_eq.
    destruct (Strings.HasPrefix _ d); [now exists 0|].
    rewrite Hm. now exists (S m).
Qed.

Lemma Index_Some_occurs d text m :
  Strings.Index text d = Some m -> occursIn d text.
Proof.
  intros H. apply Index_Some in H.
  exists (firstn m text), (skipn (m + List.length d) text). exact H.
Qed.

Lemma genSplitLoop_le sep n :
  forall s,
  Forall (fun f => List.length f <= List.length s) (Strings.genSplitLoop n s sep).
Proof.
  induction n as [|n IH]; intros s; cbn [Strings.genSplitLoop].
  - now repeat constructor.
  - destruct (Strings.Index s sep) as [m|]; [|now repeat constructor].
    constructor.
    + rewrite length_firstn. lia.
    + eapply Forall_impl; [|apply IH].
      intros f Hf. cbn beta in Hf. rewrite length_skipn in Hf. lia.
Qed.

Lemma Split_shorter text d :
  d <> [] -> occursIn d text ->
  Forall (fun f => List.length f < List.length text) (Strings.Split text d).
Proof.
  intros Hd Hocc. destruct d as [|b d]; [congruence|]. cbn [Strings.Split].
  destruct (Index_occurs _ _ Hocc) as [m Hm].
  pose proof (Index_length _ _ _ Hm) as Hl. cbn [List.length] in Hl.
  remember (List.length text) as n eqn:En.
  destruct n as [|n]; [lia|].
  cbn [Strings.genSplitLoop]. rewrite Hm. constructor.
  - rewrite length_firstn. lia.
  - eapply Forall_impl; [|apply genSplitLoop_le].
    intros f Hf. cbn beta in Hf. rewrite length_skipn in Hf.
    cbn [List.length] in Hf. lia.
Qed.

Lemma runsLoop_occurs cls text s :
  forall pre cur,
  text = pre ++ cur ++ s ->
  Forall (fun run => run <> [] /\ occursIn run text) (runsLoop cls s cur).
Proof.
  induction s as [|b s IH]; intros pre cur E; simpl.
  - destruct cur as [|x cur]; [constructor|]. constructor; [|constructor].
    split; [discriminate|]. now exists pre, [].
  - destruct (cls b).
    + apply (IH pre). rewrite E. now rewrite <- !app_assoc.
    + destruct cur as [|x cur].
      * apply (IH (pre ++ [b])). rewrite E. cbn [app].
        now rewrite <- app_assoc.
      * constructor.
        -- split; [discriminate|]. now exists pre, (b :: s).
        -- apply (IH (pre ++ (x :: cur) ++ [b])). rewrite E.
           rewrite <- !app_assoc. reflexivity.
Qed.

Lemma splitAtRuns_shorter cls text r :
  splitAtRuns cls text = Some r ->
  Forall (fun f => List.length f < List.length text) (snd r).
Proof.
  unfold splitAtRuns, FindAllRuns.
  pose proof (runsLoop_occurs cls text text [] [] eq_refl) as Hruns.
  destruct (runsLoop cls text []) as [|first rest]; [discriminate|].
  cbn [List.length Nat.ltb Nat.leb]. intros [= <-]. cbn [snd].
  apply (longestSplitter_elim_cons
           (fun d => d <> [] /\ occursIn d text)) in Hruns as [Hd Hocc].
  now apply Split_shorter.
Qed.

Lemma splitAtLiteral_shorter text splitters r :
  Forall (fun t => t <> []) splitters ->
  splitAtLiteral text splitters = Some r ->
  Forall (fun f => List.length f < List.length text) (snd r).
Proof.
  induction 1 as [|d ds Hd _ IH]; simpl; [discriminate|].
  unfold Strings.Contains.
  destruct (Strings.Index text d) as [m|] eqn:Hm; [|exact IH].
  intros [= <-]. apply Split_shorter; [exact Hd|].
  now apply Index_Some_occurs in Hm.
Qed.

Lemma occursIn_cons d b s : occursIn d s -> occursIn d (b :: s).
Proof. intros (p & q & ->). now exists (b :: p), q. Qed.

Lemma FindLiteralSpace_occurs lit s m :
  FindLiteralSpace lit s = Some m -> occursIn (lit ++ m) s.
Proof.
  induction s as [|x s IH]; rewrite FindLiteralSpace_eq.
  - destruct (Strings.HasPrefix [] lit) eqn:Hp; [|discriminate].
    apply HasPrefix_true in Hp.
    destruct (skipn (List.length lit) []) as [|b tl] eqn:Es; [discriminate|].
    destruct (isSpaceClass b); [|discriminate].
    intros [= <-]. exists [], tl. rewrite Hp at 1. cbn [app].
    now rewrite <- app_assoc.
  - assert (Htail : FindLiteralSpace lit s = Some m ->
                    occursIn (lit ++ m) (x :: s))
      by (intros H; now apply occursIn_cons, IH).
    destruct (Strings.HasPrefix (x :: s) lit) eqn:Hp; [|exact Htail].
    apply HasPrefix_true in Hp.
    destruct (skipn (List.length lit) (x :: s)) as [|b tl] eqn:Es;
      [exact Htail|].
    destruct (isSpaceClass b); [|exact Htail].
    intros [= <-]. exists [], tl. rewrite Hp at 1. cbn [app].
    now rewrite <- app_assoc.
Qed.

Lemma slice_length text lo hi :
  hi <= List.length text -> List.length (slice text lo hi) = hi - lo.
Proof.
  intros H. unfold slice. rewrite length_firstn, length_skipn. lia.
Qed.

Lemma lookbehindLoop_shorter text p sp ms :
  sp <> [] ->
  forall last,
  last <= List.length text -> ms <> [] \/ 0 < last ->
  matchesFrom last (List.length text) ms ->
  Forall (matchIs text (p ++ sp)) ms ->
  Forall (fun f => List.length f < List.length text)
         (lookbehindLoop text p ms last []).
Proof.
  intros Hsp.
  assert (Hlen : 1 <= List.length sp) by (destruct sp; simpl; [congruence|lia]).
  induction ms as [|[a b] ms IH]; intros last Hlast Hpos Hm Hs; simpl.
  - destruct Hpos as [Hpos|Hpos]; [congruence|].
    constructor; [|constructor]. rewrite length_skipn. lia.
  - destruct Hm as (H1 & H2 & H3 & H4).
    inversion Hs as [|? ? Hab Hs']; subst. unfold matchIs in Hab; simpl in Hab.
    apply (f_equal (@List.length _)) in Hab.
    rewrite slice_length, length_app in Hab by exact H3.
    rewrite lookbehindLoop_acc. cbn [app]. constructor.
    + rewrite length_app, slice_length by lia. lia.
    + apply IH; try assumption; lia.
Qed.

Lemma LookbehindSplit_shorter text p sp :
  FindLiteralSpace p text = Some sp ->
  Forall (fun f => List.length f < List.length text) (LookbehindSplit text p sp).
Proof.
  intros H. pose proof (FindLiteralSpace_occurs _ _ _ H) as Hocc.
  apply FindLiteralSpace_space in H as (b & -> & _).
  unfold LookbehindSplit.
  destruct (FindAllLiteralIndex_spec (p ++ [b]) text) as [Hm Hs].
  apply (lookbehindLoop_shorter text p [b]); try assumption;
    try discriminate; [lia|].
  left. unfold FindAllLiteralIndex. cbn [literalLoop].
  destruct (Index_occurs _ _ Hocc) as [m ->].
  destruct (p ++ [b]) eqn:E; [now destruct p|discriminate].
Qed.

Lemma splitAtPreceded_shorter text preceders r :
  splitAtPreceded text preceders = Some r ->
  Forall (fun f => List.length f < List.length text) (snd r).
Proof.
  induction preceders as [|p ps IH]; simpl; [discriminate|].
  destruct (FindLiteralSpace p text) as [sp|] eqn:E; [|exact IH].
  intros [= <-]. now apply LookbehindSplit_shorter.
Qed.

Lemma splitAtWhitespace_shorter text r :
  splitAtWhitespace text = Some r ->
  Forall (fun f => List.length f < List.length text) (snd r).
Proof.
  unfold splitAtWhitespace. destruct (0 <? _) eqn:E0; [|discriminate].
  destruct (if _ =? 1 then _ else None) as [r'|] eqn:E.
  - intros [= <-]. apply guarded_Some in E as [_ E].
    now apply splitAtPreceded_shorter in E.
  - intros [= <-].
    apply (splitAtRuns_shorter isSpaceClass text).
    unfold splitAtRuns. now rewrite E0.
Qed.

Lemma explodeLoop_singleChar n :
  forall s, Forall singleChar (Strings.explodeLoop n s).
Proof.
  induction n as [|n IH]; intros s; cbn [Strings.explodeLoop]; [constructor|].
  destruct s as [|b s]; [constructor|]. constructor; [|apply IH].
  exists (b :: s). split; [discriminate|reflexivity].
Qed.

Lemma terminators_nonempty :
  Forall (fun t : gostring => t <> [])
         (fullWidthNonWhitespaceSemanticSpliters
          ++ nonWhitespaceSemanticSplitters).
Proof. repeat constructor; discriminate. Qed.

(** Without preserve patterns every fragment of a span is shorter than
    the span or a single character. *)
Lemma innerSplit_fragments text :
  Forall (shorterOrChar text) (snd (innerSplit text [])).
Proof.
  pose proof terminators_nonempty as Hne. apply Forall_app in Hne as [Hfw Hhw].
  pose proof (fun P Q (H : forall f : gostring, P f -> Q f) l =>
                @Forall_impl _ P Q H l) as Himpl.
  apply (innerSplit_cases (fun r => Forall (shorterOrChar text) (snd r))).
  - intros r H. apply splitAtRuns_shorter in H.
    eapply Forall_impl; [|exact H]. intros f Hf. now left.
  - intros r H. apply splitAtRuns_shorter in H.
    eapply Forall_impl; [|exact H]. intros f Hf. now left.
  - discriminate.
  - intros r H. apply splitAtLiteral_shorter in H; [|exact Hfw].
    eapply Forall_impl; [|exact H]. intros f Hf. now left.
  - intros r H. apply splitAtWhitespace_shorter in H.
    eapply Forall_impl; [|exact H]. intros f Hf. now left.
  - intros r H. apply splitAtLiteral_shorter in H; [|exact Hhw].
    eapply Forall_impl; [|exact H]. intros f Hf. now left.
  - cbn [snd Strings.Split]. eapply Forall_impl; [|apply explodeLoop_singleChar].
    intros f Hf. now right.
Qed.

End Fragments.

Section Total.

Variable c : TextSplitter.

Lemma evict_returns splitSizes l splitterSize chunkSize splitIds :
  forall toMerge size,
  evict c splitSizes l splitterSize chunkSize splitIds toMerge size <> OutOfFuel.
Proof.
  induction splitIds as [|id ids IH]; intros tm size; rewrite evict_eq;
    destruct (evictCond c l splitterSize chunkSize tm size); try discriminate.
  destruct (index splitSizes id); [|discriminate].
  destruct tm; [discriminate|]. apply IH.
Qed.

Lemma mergeLoop_returns splitSizes splitter splitterSize chunkSize splits :
  forall i merges toMerge splitIds size,
  mergeLoop c splitSizes splitter splitterSize chunkSize splits i
            merges toMerge splitIds size <> OutOfFuel.
Proof.
  induction splits as [|f rest IH]; intros i merges tm ids size;
    cbn [mergeLoop]; [discriminate|].
  destruct (nth_error splitSizes i) as [l|]; [|discriminate].
  destruct (chunkSize <? estimateSize size l splitterSize (nonEmpty tm))%Z.
  - destruct (0 <? overlap c)%Z.
    + pose proof (evict_returns splitSizes l splitterSize chunkSize ids tm size)
        as He.
      destruct (evict c splitSizes l splitterSize chunkSize ids tm size)
        as [[[tm' ids'] sz]| |]; cbn [bind]; [apply IH|discriminate|congruence].
    + cbn [bind]. apply IH.
  - cbn [bind]. apply IH.
Qed.

Lemma mergeSplits_returns splits sizes ids splitter chunkSize :
  mergeSplits c splits sizes ids splitter chunkSize <> OutOfFuel.
Proof. apply mergeLoop_returns. Qed.

(** Without overlap the merger does not panic, given a size for every
    fragment. *)
Lemma mergeLoop_no_panic splitSizes splitter splitterSize chunkSize splits :
  (0 <? overlap c)%Z = false ->
  forall i merges toMerge splitIds size,
  i + List.length splits <= List.length splitSizes ->
  mergeLoop c splitSizes splitter splitterSize chunkSize splits i
            merges toMerge splitIds size <> Panic.
Proof.
  intros Hov.
  induction splits as [|f rest IH]; intros i merges tm ids size Hlen;
    cbn [mergeLoop]; [discriminate|].
  cbn [List.length] in Hlen.
  destruct (nth_error splitSizes i) as [l|] eqn:El.
  - rewrite Hov.
    destruct (chunkSize <? estimateSize size l splitterSize (nonEmpty tm))%Z;
      cbn [bind]; apply IH; lia.
  - apply nth_error_None in El. lia.
Qed.

Lemma mergeSplits_no_panic splits sizes ids splitter chunkSize :
  (0 <? overlap c)%Z = false ->
  List.length splits <= List.length sizes ->
  mergeSplits c splits sizes ids splitter chunkSize <> Panic.
Proof. intros Hov Hlen. now apply mergeLoop_no_panic. Qed.

Lemma splitLoop_returns (recurse : gostring -> result (list gostring))
      splitter chunkSize splits :
  Forall (fun f => (chunkSize <= countTokenFunc c f)%Z ->
                   recurse f <> OutOfFuel) splits ->
  forall i rets good sizes ids,
  splitLoop recurse c splitter chunkSize splits i rets good sizes ids
  <> OutOfFuel.
Proof.
  induction 1 as [|f rest Hf _ IH]; intros i rets good sizes ids;
    cbn [splitLoop].
  - destruct (nonEmpty good); [|discriminate].
    pose proof (mergeSplits_returns good sizes ids splitter chunkSize) as Hm.
    destruct (mergeSplits c good sizes ids splitter chunkSize);
      cbn [bind]; congruence.
  - destruct (countTokenFunc c f <? chunkSize)%Z eqn:El; [apply IH|].
    apply Z.ltb_ge in El. specialize (Hf El).
    assert (Hst : (if nonEmpty good
                   then merges <- mergeSplits c good sizes ids splitter chunkSize ;;
                        Ok (rets ++ merges)
                   else Ok rets) <> OutOfFuel).
    { destruct (nonEmpty good); [|discriminate].
      pose proof (mergeSplits_returns good sizes ids splitter chunkSize) as Hm.
      destruct (mergeSplits c good sizes ids splitter chunkSize);
        cbn [bind]; congruence. }
    destruct (if nonEmpty good then _ else _); cbn [bind]; try congruence.
    destruct (recurse f); cbn [bind]; first [apply IH|congruence].
Qed.

Lemma splitLoop_no_panic (recurse : gostring -> result (list gostring))
      splitter chunkSize splits :
  (0 <? overlap c)%Z = false ->
  (forall f, recurse f <> Panic) ->
  forall i rets good sizes ids,
  List.length good = List.length sizes ->
  splitLoop recurse c splitter chunkSize splits i rets good sizes ids <> Panic.
Proof.
  intros Hov Hrec.
  induction splits as [|f rest IH]; intros i rets good sizes ids Hlen;
    cbn [splitLoop].
  - destruct (nonEmpty good); [|discriminate].
    pose proof (mergeSplits_no_panic good sizes ids splitter chunkSize Hov)
      as Hm.
    destruct (mergeSplits c good sizes ids splitter chunkSize);
      cbn [bind]; try congruence. exfalso. apply Hm; [lia|reflexivity].
  - destruct (countTokenFunc c f <? chunkSize)%Z.
    + apply IH. rewrite !length_app. cbn [List.length]. lia.
    + assert (Hst : (if nonEmpty good
                     then merges <- mergeSplits c good sizes ids splitter chunkSize ;;
                          Ok (rets ++ merges)
                     else Ok rets) <> Panic).
      { destruct (nonEmpty good); [|discriminate].
        pose proof (mergeSplits_no_panic good sizes ids splitter chunkSize Hov)
          as Hm.
        destruct (mergeSplits c good sizes ids splitter chunkSize);
          cbn [bind]; try congruence. exfalso. apply Hm; [lia|reflexivity]. }
      destruct (if nonEmpty good then _ else _); cbn [bind]; try congruence.
      specialize (Hrec f).
      destruct (recurse f); cbn [bind]; first [now apply IH|congruence].
Qed.

(** Without overlap [split] does not panic. *)
Lemma split_no_panic fuel :
  (0 <? overlap c)%Z = false ->
  forall text chunkSize depth, split fuel c text chunkSize depth <> Panic.
Proof.
  intros Hov.
  induction fuel as [|fuel IH]; intros text chunkSize depth; cbn [split];
    [discriminate|].
  destruct (innerSplit text (PreservePatterns (opts c))) as [[splitter ws] splits].
  apply splitLoop_no_panic; [exact Hov| |reflexivity].
  intros f. apply IH.
Qed.

(** Without preserve patterns, and with every single character within the
    budget, [split] returns once the fuel exceeds the length of the span. *)
Lemma split_returns chunkSize :
  PreservePatterns (opts c) = [] ->
  (forall s, singleChar s -> (countTokenFunc c s < chunkSize)%Z) ->
  forall fuel text depth,
  List.length text < fuel -> split fuel c text chunkSize depth <> OutOfFuel.
Proof.
  intros Hpats Hchar.
  induction fuel as [|fuel IH]; intros text depth Hfuel; [lia|].
  cbn [split]. rewrite Hpats.
  pose proof (innerSplit_fragments text) as Hfr.
  destruct (innerSplit text []) as [[splitter ws] splits]. cbn [snd] in Hfr.
  apply splitLoop_returns.
  eapply Forall_impl; [|exact Hfr].
  intros f [Hshort|Hsingle] Hbig.
  - apply IH. lia.
  - apply Hchar in Hsingle. lia.
Qed.

End Total.

(** * The fuel does not matter *)
Section Fuel.

Variable c : TextSplitter.

(** More iterations than the length of the string change nothing in the
    loops of [strings.Split]. *)
Lemma genSplitLoop_fuel sep :
  sep <> [] ->
  forall n m s,
  List.length s <= n -> List.length s <= m ->
  Strings.genSplitLoop n s sep = Strings.genSplitLoop m s sep.
Proof.
  intros Hsep.
  assert (Hnil : forall k, Strings.genSplitLoop k [] sep = [[]]).
  { intros [|k]; [reflexivity|]. cbn [Strings.genSplitLoop].
    rewrite Index_eq. destruct sep; [congruence|reflexivity]. }
  induction n as [|n IH]; intros m s Hn Hm.
  - destruct s; [|simpl in Hn; lia]. now rewrite !Hnil.
  - destruct m as [|m].
    + destruct s; [|simpl in Hm; lia]. now rewrite !Hnil.
    + cbn [Strings.genSplitLoop].
      destruct (Strings.Index s sep) as [k|] eqn:Hk; [|reflexivity].
      f_equal. pose proof (Index_length _ _ _ Hk) as Hl.
      assert (1 <= List.length sep) by (destruct sep; simpl; [congruence|lia]).
      apply IH; rewrite length_skipn; lia.
Qed.

Lemma explodeLoop_fuel :
  forall n m s,
  List.length s <= n -> List.length s <= m ->
  Strings.explodeLoop n s = Strings.explodeLoop m s.
Proof.
  induction n as [|n IH]; intros m s Hn Hm.
  - destruct s; [|simpl in Hn; lia]. now destruct m.
  - destruct m as [|m].
    + destruct s; [|simpl in Hm; lia]. reflexivity.
    + cbn [Strings.explodeLoop]. destruct s as [|b s]; [reflexivity|].
      f_equal. pose proof (width_bounds b s) as Hw.
      cbn [List.length] in *. apply IH; rewrite length_skipn; cbn [List.length]; lia.
Qed.

Lemma splitLoop_more (recurse recurse' : gostring -> result (list gostring))
      splitter chunkSize splits :
  (forall f r, recurse f = r -> r <> OutOfFuel -> recurse' f = r) ->
  forall i rets good sizes ids r,
  splitLoop recurse c splitter chunkSize splits i rets good sizes ids = r ->
  r <> OutOfFuel ->
  splitLoop recurse' c splitter chunkSize splits i rets good sizes ids = r.
Proof.
  intros Hrec.
  induction splits as [|f rest IH]; intros i rets good sizes ids r H Hr;
    cbn [splitLoop] in *; [exact H|].
  destruct (countTokenFunc c f <? chunkSize)%Z; [now apply IH|].
  destruct (if nonEmpty good then _ else _) as [st| |]; cbn [bind] in *;
    try exact H.
  destruct (recurse f) as [sub| |] eqn:Ef; cbn [bind] in H.
  - rewrite (Hrec f (Ok sub) Ef) by discriminate. cbn [bind]. now apply IH.
  - rewrite (Hrec f Panic Ef) by discriminate. exact H.
  - congruence.
Qed.

(** A result of [split] other than [OutOfFuel] is its result for every
    larger fuel, and at every recursion depth. *)
Lemma split_more_fuel fuel :
  forall fuel' text chunkSize depth depth' r,
  split fuel c text chunkSize depth = r -> r <> OutOfFuel -> fuel <= fuel' ->
  split fuel' c text chunkSize depth' = r.
Proof.
  induction fuel as [|fuel IH]; intros fuel' text chunkSize depth depth' r H Hr Hle.
  - cbn [split] in H. congruence.
  - destruct fuel' as [|fuel']; [lia|]. cbn [split] in *.
    destruct (innerSplit text (PreservePatterns (opts c))) as [[splitter ws] splits].
    eapply splitLoop_more; [|exact H|exact Hr].
    intros f r' Hf Hr'. eapply IH; [exact Hf|exact Hr'|lia].
Qed.

End Fuel.

(** * The tests of the repository, on the embedding *)
Section RepositoryTests.

Example TestInnerSplit_simple_sentence :
  innerSplit (str "This is a test sentence.") []
  = (str " ", true,
     [str "This"; str "is"; str "a"; str "test"; str "sentence."]).
Proof. reflexivity. Qed.

Example TestInnerSplit_multiple_sentences :
  innerSplit (str "First sentence. Second sentence. Third sentence.") []
  = (str " ", true,
     [str "First sentence."; str "Second sentence."; str "Third sentence."]).
Proof. reflexivity. Qed.

Example TestMergeSplits_without_overlap :
  mergeSplits (bytesSplitter 10 0) [str "hello"; str "world"; str "test"]
              [5; 5; 4]%Z [0; 1; 2]%Z (str " ") 10
  = Ok [str "hello"; str "world test"].
Proof. reflexivity. Qed.

Example TestMergeSplits_without_overlap_2 :
  mergeSplits (bytesSplitter 11 0) [str "hello"; str "world"; str "test"]
              [5; 5; 4]%Z [0; 1; 2]%Z (str " ") 11
  = Ok [str "hello world"; str "test"].
Proof. reflexivity. Qed.

Example TestMergeSplits_single_split_exceeding :
  mergeSplits (bytesSplitter 10 0) [str "thisisaverylongword"]
              [18]%Z [0]%Z (str " ") 10
  = Ok [str "thisisaverylongword"].
Proof. reflexivity. Qed.

Example TestMergeSplits_empty_splits :
  mergeSplits (bytesSplitter 10 0) [] [] [] (str " ") 10 = Ok [].
Proof. reflexivity. Qed.

Example TestMergeSplits_chinese_with_overlap :
  mergeSplits (bytesSplitter 4 2) [str "你好"; str "世界"; str "测试"]
              [2; 2; 2]%Z [0; 1; 2]%Z [] 4
  = Ok [str "你好世界"; str "世界测试"].
Proof. reflexivity. Qed.

Example TestSplit_simple_sentence :
  Split 2 (wordsSplitter 10 0) (str "This is a test sentence.")
  = Ok [str "This is a test sentence."].
Proof. vm_compute. reflexivity. Qed.

Example TestSplit_simple_sentence_2 :
  Split 3 (wordsSplitter 5 0)
        (str "This is a test sentence. This is another test sentence.")
  = Ok [str "This is"; str "a test"; str "sentence.";
        str "This is"; str "another test"; str "sentence."].
Proof. vm_compute. reflexivity. Qed.

Example TestSplit_simple_sentence_with_overlap :
  Split 3 (wordsSplitter 5 2)
        (str "This is a test sentence. This is another test sentence.")
  = Ok [str "This is"; str "is a"; str "a test"; str "test sentence.";
        str "This is"; str "is another"; str "another test";
        str "test sentence."].
Proof. vm_compute. reflexivity. Qed.

(** A text that is not made of delimiters is not rebuilt from no chunk. *)
Lemma rebuilds_nil gapOk text :
  (forall a b, gapOk a -> gapOk b -> gapOk (a ++ b)) ->
  rebuilds gapOk text [] -> gapOk text.
Proof.
  intros Happ H. remember (@nil gostring) as none eqn:E in H. revert E.
  induction H as [g Hg|t chunks dup fresh g H IH Hdup Hg|t chunks g H IH Hg];
    intros E.
  - exact Hg.
  - apply app_eq_nil in E as [_ E]. discriminate E.
  - apply Happ; [now apply IH|exact Hg].
Qed.

Example reconstructs_needs_chunks : ~ reconstructs (str "ab") [].
Proof.
  intros H. apply rebuilds_nil in H; [|exact delimString_app].
  inversion H as [|b s Hb Hs E|t s Ht Hs E].
  - discriminate Hb.
  - cbn in Ht.
    repeat (destruct Ht as [<-|Ht]; [discriminate E|]). exact Ht.
Qed.

End RepositoryTests.

(** * Construction *)
Section Construction.

Lemma SFcompare_antisym (x y : spec_float) :
  SFcompare y x = option_map CompOpp (SFcompare x y).
Proof.
  destruct x as [sx|sx| |sx mx ex], y as [sy|sy| |sy my ey]; simpl;
    try reflexivity; try (destruct sx; reflexivity);
    try (destruct sy; reflexivity);
    try (destruct sx, sy; reflexivity).
  destruct sx, sy; try reflexivity; f_equal.
  - rewrite (Z.compare_antisym ex ey).
    destruct (ex ?= ey)%Z; simpl; try reflexivity.
    rewrite CompOpp_involutive.
    change Eq with (CompOpp Eq) at 1.
    now rewrite Pos.compare_cont_antisym, CompOpp_involutive.
  - rewrite (Z.compare_antisym ex ey).
    destruct (ex ?= ey)%Z; simpl; try reflexivity.
    change Eq with (CompOpp Eq) at 1.
    now rewrite Pos.compare_cont_antisym.
Qed.

Lemma leb_not_ltb (x y : spec_float) :
  Float32.leb x y = true -> Float32.ltb y x = false.
Proof.
  unfold Float32.leb, Float32.ltb, SFleb, SFltb.
  rewrite (SFcompare_antisym x y).
  now destruct (SFcompare x y) as [[| |]|].
Qed.

Lemma SFcompare_Some (x y : spec_float) :
  x <> S754_nan -> y <> S754_nan -> SFcompare x y <> None.
Proof.
  destruct x as [sx|sx| |sx mx ex], y as [sy|sy| |sy my ey]; simpl;
    intros Hx Hy; try congruence;
    try (destruct sx; discriminate); try (destruct sy; discriminate);
    try (destruct sx, sy; discriminate).
Qed.

Lemma ltb_false_leb (x y : spec_float) :
  x <> S754_nan -> y <> S754_nan ->
  Float32.ltb x y = false -> Float32.leb y x = true.
Proof.
  intros Hx Hy. pose proof (SFcompare_Some x y Hx Hy) as Hc.
  unfold Float32.leb, Float32.ltb, SFleb, SFltb.
  rewrite (SFcompare_antisym x y).
  destruct (SFcompare x y) as [[| |]|]; simpl; congruence.
Qed.

(** C6 (the code departs from it).  A [float32] NaN is not in [0,1], and
    [NewTextSplitter] accepts it: both comparisons of the check are false
    of a NaN, no error is returned, and the splitter holds the overlap
    [int(NaN)], the least [int] on amd64.  For every other overlap the
    error is returned exactly when the overlap is not in its range, with
    the error no splitter is returned, and every overlap in the range
    yields a splitter and no error. *)
Theorem NewTextSplitter_accepts_NaN_overlap :
  (forall (chunkSize : Z) (countTokenFunc : gostring -> Z)
          (options : list (TextSplitterOption -> TextSplitterOption)),
      ~ overlapInRange chunkSize (OverlapFloat32 S754_nan)
      /\ exists ts,
           NewTextSplitter chunkSize (OverlapFloat32 S754_nan)
                           countTokenFunc options
           = (Some ts, None)
           /\ overlap ts = Int.min_int)
  /\ forall (chunkSize : Z) (o : Overlap) (countTokenFunc : gostring -> Z)
            (options : list (TextSplitterOption -> TextSplitterOption)),
       o <> OverlapFloat32 S754_nan ->
       (snd (NewTextSplitter chunkSize o countTokenFunc options) <> None
        <-> ~ overlapInRange chunkSize o)
       /\ (snd (NewTextSplitter chunkSize o countTokenFunc options) <> None ->
           fst (NewTextSplitter chunkSize o countTokenFunc options) = None)
       /\ (overlapInRange chunkSize o ->
           exists ts,
             NewTextSplitter chunkSize o countTokenFunc options
             = (Some ts, None)).
Proof.
  split.
  - intros chunkSize count options. split.
    + intros [H _]. discriminate H.
    + eexists. split; reflexivity.
  - intros chunkSize o count options Hnan.
    destruct o as [k|f]; cbn -[Float32.ltb Float32.leb].
    + destruct (k <? 0)%Z eqn:E1; [|destruct (chunkSize <? k)%Z eqn:E2]; simpl.
      * apply Z.ltb_lt in E1. repeat split; try discriminate; try reflexivity;
          intros ?; lia.
      * apply Z.ltb_lt in E2. repeat split; try discriminate; try reflexivity;
          intros ?; lia.
      * apply Z.ltb_ge in E1, E2. repeat split; try congruence.
        -- intros H. exfalso. apply H. lia.
        -- intros _. eexists. reflexivity.
    + assert (Hf : f <> S754_nan) by congruence.
      destruct (Float32.ltb f Float32.zero) eqn:E1;
        [|destruct (Float32.ltb Float32.one f) eqn:E2]; simpl.
      * repeat split; try discriminate; try reflexivity.
        -- intros _ [H _]. apply leb_not_ltb in H. congruence.
        -- intros [H _]. apply leb_not_ltb in H. congruence.
      * repeat split; try discriminate; try reflexivity.
        -- intros _ [_ H]. apply leb_not_ltb in H. congruence.
        -- intros [_ H]. apply leb_not_ltb in H. congruence.
      * apply ltb_false_leb in E1; [|exact Hf|discriminate].
        apply ltb_false_leb in E2; [|discriminate|exact Hf].
        repeat split; try congruence.
        -- intros H. exfalso. apply H. now split.
        -- intros _. eexists. reflexivity.
Qed.

(** C3 (the code departs from it).  For an [int] overlap k in the range
    0 <= k <= chunkSize the construction succeeds, and the overlap stored in
    the splitter is 0, whatever k is: the k checked is a second variable of
    the [else if] header, the variable stored is never assigned. *)
Theorem NewTextSplitter_int_overlap_stored_as_zero :
  forall (chunkSize k : Z) (countTokenFunc : gostring -> Z)
         (options : list (TextSplitterOption -> TextSplitterOption)),
    (0 <= k <= chunkSize)%Z ->
    exists ts,
      NewTextSplitter chunkSize (OverlapInt k) countTokenFunc options
      = (Some ts, None)
      /\ overlap ts = 0%Z.
Proof.
  intros chunkSize k count options [H0 H1]. cbn.
  replace (k <? 0)%Z with false by (symmetry; apply Z.ltb_ge; lia).
  replace (chunkSize <? k)%Z with false by (symmetry; apply Z.ltb_ge; lia).
  eexists. split; reflexivity.
Qed.

Lemma NewTextSplitter_int_overlap_stored_as_zero_witness :
  (0 <= 5 <= 10)%Z
  /\ exists ts,
       NewTextSplitter 10 (OverlapInt 5) countBytes [] = (Some ts, None)
       /\ overlap ts = 0%Z.
Proof.
  split; [lia|].
  apply (NewTextSplitter_int_overlap_stored_as_zero 10 5 countBytes []). lia.
Defined.

End Construction.

(** * The delimiter selector *)
Section Selector.

(** C9.  Joining the splits of [innerSplit] with the splitter it returns
    gives back the text, whichever branch is taken, for preserve patterns
    whose matches are as the [regexp] package returns them; and so do the
    parts of [LookbehindSplit] joined with the splitter. *)
Theorem innerSplit_Join_gives_text :
  forall (text : gostring) (preservePatterns : list Regexp),
    Forall wellBehaved preservePatterns ->
    (forall splitter ws splits,
        innerSplit text preservePatterns = (splitter, ws, splits) ->
        Strings.Join splits splitter = text)
    /\ (forall precededBy splitter,
           Strings.Join (LookbehindSplit text precededBy splitter) splitter
           = text).
Proof.
  intros text pats Hwf. split.
  - intros splitter ws splits H.
    pose proof (innerSplit_rejoins text pats Hwf) as Hr.
    unfold rejoins in Hr. now rewrite H in Hr.
  - intros p sp. apply LookbehindSplit_Join.
Qed.

Lemma innerSplit_Join_gives_text_witness :
  Forall wellBehaved [literal (str "https://x.y")]
  /\ innerSplit (str "see https://x.y now") [literal (str "https://x.y")]
     = ([], true, [str "see "; str "https://x.y"; str " now"])
  /\ Strings.Join [str "see "; str "https://x.y"; str " now"] []
     = str "see https://x.y now".
Proof.
  assert (Hwf : Forall wellBehaved [literal (str "https://x.y")])
    by (constructor; [apply literal_wellBehaved|constructor]).
  split; [exact Hwf|]. split; [reflexivity|].
  apply (innerSplit_Join_gives_text
           (str "see https://x.y now") [literal (str "https://x.y")] Hwf
        ) with (ws := true).
  reflexivity.
Defined.

Lemma splitAtLiteral_firstContained text splitters :
  splitAtLiteral text splitters
  = option_map (fun t => (t, false, Strings.Split text t))
               (firstContained splitters text).
Proof.
  induction splitters as [|t ts IH]; simpl; [reflexivity|].
  now destruct (Strings.Contains text t).
Qed.

Lemma firstContained_app a b text :
  firstContained (a ++ b) text
  = match firstContained a text with
    | Some t => Some t
    | None => firstContained b text
    end.
Proof.
  unfold firstContained. induction a as [|t a IH]; simpl; [reflexivity|].
  now destruct (Strings.Contains text t).
Qed.

Lemma splitAtPatterns_none text pats :
  Forall (fun p => FindAllStringIndex p text = []) pats ->
  splitAtPatterns text pats = None.
Proof.
  induction 1 as [|p pats Hp _ IH]; simpl; [reflexivity|].
  now rewrite Hp.
Qed.

Lemma FindAllRuns_none cls s :
  Forall (fun b => cls b = false) s -> FindAllRuns cls s = [].
Proof.
  unfold FindAllRuns. induction 1 as [|b s Hb _ IH]; simpl; [reflexivity|].
  now rewrite Hb.
Qed.

Lemma splitAtWhitespace_none text :
  Forall (fun b => isSpaceClass b = false) text -> splitAtWhitespace text = None.
Proof.
  intros H. unfold splitAtWhitespace. now rewrite FindAllRuns_none.
Qed.

(** C4, as the priority of the source has it.  In a span without newline,
    carriage return, tab and preserve-pattern match: a full-width
    terminator that occurs is split on, the first one of the full-width
    list, with whitespace class false, whether or not the span has
    whitespace; the terminators of the other list are split on, the first
    one of that list, when no full-width terminator occurs and the span
    has no byte of the class [\s]. *)
Theorem innerSplit_terminator_priority :
  forall (text : gostring) (preservePatterns : list Regexp),
    Strings.Contains text LF = false ->
    Strings.Contains text CR = false ->
    Strings.Contains text TAB = false ->
    Forall (fun p => FindAllStringIndex p text = []) preservePatterns ->
    (forall t,
        firstContained fullWidthNonWhitespaceSemanticSpliters text = Some t ->
        innerSplit text preservePatterns = (t, false, Strings.Split text t))
    /\ (firstContained fullWidthNonWhitespaceSemanticSpliters text = None ->
        Forall (fun b => isSpaceClass b = false) text ->
        forall t,
          firstContained nonWhitespaceSemanticSplitters text = Some t ->
          innerSplit text preservePatterns = (t, false, Strings.Split text t)).
Proof.
  intros text pats Hn Hr Ht Hp.
  unfold innerSplit. rewrite Hn, Hr, Ht. cbn [orb orElse].
  rewrite (splitAtPatterns_none _ _ Hp), !splitAtLiteral_firstContained.
  split.
  - intros t ->. reflexivity.
  - intros -> Hs t ->. cbn [option_map].
    rewrite (splitAtWhitespace_none _ Hs). now destruct (ContainsSpace text).
Qed.

Lemma innerSplit_terminator_priority_witness :
  Forall (fun p => FindAllStringIndex p (str "a b。c") = [])
         [literal (str "xyz")]
  /\ innerSplit (str "a b。c") [literal (str "xyz")]
     = (str "。", false, [str "a b"; str "c"])
  /\ innerSplit (str "a,b;c") [literal (str "xyz")]
     = (str ",", false, [str "a"; str "b;c"]).
Proof.
  assert (H1 : Forall (fun p => FindAllStringIndex p (str "a b。c") = [])
                      [literal (str "xyz")]) by (repeat constructor).
  assert (H2 : Forall (fun p => FindAllStringIndex p (str "a,b;c") = [])
                      [literal (str "xyz")]) by (repeat constructor).
  split; [exact H1|]. split.
  - exact (proj1 (innerSplit_terminator_priority
                    (str "a b。c") [literal (str "xyz")]
                    eq_refl eq_refl eq_refl H1)
                 (str "。") eq_refl).
  - apply (proj2 (innerSplit_terminator_priority
                    (str "a,b;c") [literal (str "xyz")]
                    eq_refl eq_refl eq_refl H2)
                 eq_refl).
    + repeat constructor.
    + reflexivity.
Defined.

(** C4 as stated fails: the span "a.b c" contains the terminator "." and
    no newline, carriage return, tab or preserved match, and it is split
    on the space, with whitespace class true. *)
Lemma terminatorsFirst_fails : ~ terminatorsFirst.
Proof.
  intros H.
  specialize (H (str "a.b c") [] (str ".")
                eq_refl eq_refl eq_refl (Forall_nil _) eq_refl).
  vm_compute in H. discriminate H.
Qed.

End Selector.

(** * The merger and the recursive splitter *)
Section Splitter.

(** C7.  The scenario of the merge with overlap: four fragments of sizes
    5, 5, 4, 5, a splitter of size 1, chunk size 11 and overlap 5. *)
Theorem mergeSplits_overlap_scenario :
  forall c : TextSplitter,
    overlap c = 5%Z ->
    countTokenFunc c (str " ") = 1%Z ->
    mergeSplits c [str "hello"; str "world"; str "test"; str "again"]
                [5; 5; 4; 5]%Z [0; 1; 2; 3]%Z (str " ") 11
    = Ok [str "hello world"; str "world test"; str "test again"].
Proof.
  intros [cs count ov o] Hov Hcount.
  cbn [overlap countTokenFunc] in Hov, Hcount. subst ov.
  unfold mergeSplits. cbn [countTokenFunc]. rewrite Hcount.
  reflexivity.
Qed.

Lemma mergeSplits_overlap_scenario_witness :
  countBytes (str " ") = 1%Z
  /\ mergeSplits (mkTextSplitter 11 countBytes 5 (mkOption false []))
                 [str "hello"; str "world"; str "test"; str "again"]
                 [5; 5; 4; 5]%Z [0; 1; 2; 3]%Z (str " ") 11
     = Ok [str "hello world"; str "world test"; str "test again"].
Proof.
  split; [reflexivity|].
  apply (mergeSplits_overlap_scenario
           (mkTextSplitter 11 countBytes 5 (mkOption false []))
           eq_refl eq_refl).
Defined.

(** C10.  Every chunk that [Split] returns is a non-empty string, and so
    is every chunk that [mergeSplits] returns. *)
Theorem Split_chunks_nonempty :
  forall (c : TextSplitter) (fuel : nat) (text : gostring)
         (chunks : list gostring),
    Split fuel c text = Ok chunks ->
    Forall (fun chunk => chunk <> []) chunks.
Proof.
  intros c fuel text chunks H. unfold Split in H.
  now apply split_nonEmptyChunks in H.
Qed.

Lemma Split_chunks_nonempty_witness :
  Split 3 (mkTextSplitter 5 countWordsTwice 0 (mkOption false []))
        (str "This is a test sentence.")
  = Ok [str "This is"; str "a test"; str "sentence."]
  /\ Forall (fun chunk => chunk <> [])
            [str "This is"; str "a test"; str "sentence."].
Proof.
  split; [reflexivity|].
  apply (Split_chunks_nonempty
           (mkTextSplitter 5 countWordsTwice 0 (mkOption false [])) 3
           (str "This is a test sentence.")).
  reflexivity.
Defined.

(** Without overlap and preserve patterns, and with every single
    character within the budget, [Split] returns chunks, and they are
    non-empty and rebuild the text. *)
Theorem Split_total_without_overlap_and_patterns :
  forall (c : TextSplitter) (text : gostring),
    (overlap c <= 0)%Z ->
    PreservePatterns (opts c) = [] ->
    (forall s, singleChar s -> (countTokenFunc c s < chunkSize c)%Z) ->
    exists chunks,
      Split (S (List.length text)) c text = Ok chunks
      /\ reconstructs text chunks
      /\ nonEmptyChunks chunks.
Proof.
  intros c text Hov Hp Hc. unfold Split.
  pose proof (split_no_panic c (S (List.length text))
                (proj2 (Z.ltb_ge _ _) Hov) text (chunkSize c) 0%Z) as Hpanic.
  pose proof (split_returns c (chunkSize c) Hp Hc (S (List.length text)) text
                0%Z (Nat.lt_succ_diag_r _)) as Hfuel.
  destruct (split (S (List.length text)) c text (chunkSize c) 0) as [chunks| |]
    eqn:E; try congruence.
  exists chunks. split; [reflexivity|]. split.
  - apply split_reconstructs in E; [exact E|]. rewrite Hp. constructor.
  - now apply split_nonEmptyChunks in E.
Qed.

(** C1.  The chunks that [Split] returns rebuild the text: every chunk is
    an overlap with the chunk before it followed by a part of the text,
    these parts occur in the text in order, and what lies between them is
    made of delimiters only, for preserve patterns whose matches are as
    the [regexp] package returns them.  With the empty splitter, that of
    the character-level fallback, the merger drops nothing between its
    chunks.  And [Split] does return chunks where the splitter has no
    overlap and no preserve patterns and every single character is within
    the budget. *)
Theorem Split_chunks_reconstruct_text :
  (forall (c : TextSplitter) (fuel : nat) (text : gostring)
          (chunks : list gostring),
      Forall wellBehaved (PreservePatterns (opts c)) ->
      Split fuel c text = Ok chunks ->
      reconstructs text chunks)
  /\ (forall (c : TextSplitter) (splits : list gostring)
             (splitSizes splitIds : list Z) (chunkSize : Z)
             (chunks : list gostring),
         mergeSplits c splits splitSizes splitIds [] chunkSize = Ok chunks ->
         rebuilds noGap (List.concat splits) chunks)
  /\ (forall (c : TextSplitter) (text : gostring),
         (overlap c <= 0)%Z ->
         PreservePatterns (opts c) = [] ->
         (forall s, singleChar s -> (countTokenFunc c s < chunkSize c)%Z) ->
         exists chunks, Split (S (List.length text)) c text = Ok chunks).
Proof.
  split; [|split].
  - intros c fuel text chunks Hwf H. unfold Split in H.
    now apply split_reconstructs in H.
  - intros c splits sizes ids chunkSize chunks H.
    now apply mergeSplits_empty_splitter in H.
  - intros c text Hov Hp Hc.
    destruct (Split_total_without_overlap_and_patterns c text Hov Hp Hc)
      as (chunks & H & _).
    now exists chunks.
Qed.

Lemma Split_chunks_reconstruct_text_witness :
  Split 4 (mkTextSplitter 5 countWordsTwice 2
             (mkOption false [literal (str "https://x.y")]))
        (str "Please see https://x.y now. This is a test.")
  = Ok [str "Please see "; str "https://x.y"; str " now.";
        str "This is"; str "is a"; str "a test."]
  /\ reconstructs (str "Please see https://x.y now. This is a test.")
                  [str "Please see "; str "https://x.y"; str " now.";
                   str "This is"; str "is a"; str "a test."].
Proof.
  split; [reflexivity|].
  apply (proj1 Split_chunks_reconstruct_text
           (mkTextSplitter 5 countWordsTwice 2
              (mkOption false [literal (str "https://x.y")])) 4).
  - constructor; [apply literal_wellBehaved|constructor].
  - reflexivity.
Defined.

(** C2 (the code departs from it).  The splitter of chunk size 2 and
    overlap 0.5, counting bytes, panics on "aa bb c d": the good splits
    "c" and "d" have the positions 2 and 3 among the splits, their sizes
    are stored at the indices 0 and 1, and the eviction loop reads the
    size at index 2.  A splitter without overlap never enters that loop
    and does not panic. *)
Theorem Split_panics_in_eviction :
  exists c : TextSplitter,
    NewTextSplitter 2 (OverlapFloat32 Float32.half) countBytes []
    = (Some c, None)
    /\ overlap c = 1%Z
    /\ mergeSplits c [str "c"; str "d"] [1; 1]%Z [2; 3]%Z (str " ") 2 = Panic
    /\ (forall fuel, Split (S (S fuel)) c (str "aa bb c d") = Panic)
    /\ forall (c' : TextSplitter) (fuel : nat) (text : gostring),
         (overlap c' <= 0)%Z -> Split fuel c' text <> Panic.
Proof.
  eexists. split; [reflexivity|]. split; [reflexivity|].
  split; [reflexivity|]. split.
  - intros fuel. vm_compute. reflexivity.
  - intros c' fuel text Hov. apply split_no_panic. now apply Z.ltb_ge.
Qed.

(** C5 (the code departs from it).  With the preserve pattern "abcde",
    chunk size 5 and bytes counted, every single character is within the
    budget, and [split] on "abcde" does not terminate: the pattern matches
    the whole span, the span is its own only fragment, and the recursion
    is called on it again, at every depth.  Without preserve patterns the
    recursion returns within a depth of the length of the span. *)
Theorem split_diverges_on_preserved_span :
  exists c : TextSplitter,
    NewTextSplitter 5 (OverlapInt 0) countBytes
                    [WithPreservePatterns [str "abcde"]] = (Some c, None)
    /\ (forall s, singleChar s -> (countTokenFunc c s < chunkSize c)%Z)
    /\ (forall fuel depth,
           split fuel c (str "abcde") (chunkSize c) depth = OutOfFuel)
    /\ forall (c' : TextSplitter) (budget : Z) (fuel : nat)
               (text : gostring) (depth : Z),
         PreservePatterns (opts c') = [] ->
         (forall s, singleChar s -> (countTokenFunc c' s < budget)%Z) ->
         List.length text < fuel ->
         split fuel c' text budget depth <> OutOfFuel.
Proof.
  eexists. split; [reflexivity|]. split; [|split].
  - intros s (t & _ & ->). cbn [countTokenFunc chunkSize]. unfold countBytes.
    pose proof (width_le_4 t). pose proof (firstn_le_length (Utf8.width t) t).
    lia.
  - cbn [chunkSize].
    induction fuel as [|fuel IH]; intros depth; [reflexivity|].
    cbn [split].
    match goal with
    | |- context [innerSplit ?t ?p] =>
        replace (innerSplit t p) with (@nil ascii, true, [str "abcde"])
          by (vm_compute; reflexivity)
    end.
    cbn [splitLoop].
    match goal with
    | |- context [(?a <? 5)%Z] =>
        replace (a <? 5)%Z with false by reflexivity
    end.
    cbn [nonEmpty List.length Nat.ltb Nat.leb bind].
    now rewrite IH.
  - intros c' budget fuel text depth Hp Hc Hf. now apply split_returns.
Qed.

(** C8 (the code departs from it).  With the empty preserve pattern, chunk
    size 1 and a counter that yields one more than the number of bytes,
    [Split] on the empty text does not terminate: the pattern matches the
    empty text, whose only fragment is the empty text again.  Where no
    preserve pattern matches the empty text the result is the empty
    list. *)
Theorem Split_empty_diverges_with_empty_pattern :
  exists c : TextSplitter,
    NewTextSplitter 1 (OverlapInt 0) (fun s => (countBytes s + 1)%Z)
                    [WithPreservePatterns [[]]] = (Some c, None)
    /\ (forall fuel, Split fuel c [] = OutOfFuel)
    /\ forall (c' : TextSplitter) (fuel : nat),
         Forall (fun p => FindAllStringIndex p [] = [])
                (PreservePatterns (opts c')) ->
         Split (S fuel) c' [] = Ok [].
Proof.
  eexists. split; [reflexivity|]. split.
  - intros fuel. unfold Split. cbn [chunkSize].
    match goal with
    | |- split _ ?c _ _ _ = _ =>
        enough (H : forall n depth, split n c [] 1 depth = OutOfFuel)
          by apply H
    end.
    clear fuel.
    induction n as [|fuel IH]; intros depth; [reflexivity|].
    cbn [split].
    match goal with
    | |- context [innerSplit ?t ?p] =>
        replace (innerSplit t p) with (@nil ascii, true, [@nil ascii])
          by (vm_compute; reflexivity)
    end.
    cbn [splitLoop].
    match goal with
    | |- context [(?a <? 1)%Z] =>
        replace (a <? 1)%Z with false by reflexivity
    end.
    cbn [nonEmpty List.length Nat.ltb Nat.leb bind].
    now rewrite IH.
  - intros c' fuel Hp. unfold Split. cbn [split]. unfold innerSplit.
    rewrite (splitAtPatterns_none _ _ Hp). reflexivity.
Qed.

End Splitter.

(** * Further properties of the delimiter selector *)
Section LongestSplitter.

Lemma fold_longest_split (rest : list gostring) :
  forall (cur : gostring) (before mid : list gostring),
  Forall (fun s => List.length s < List.length cur) before ->
  Forall (fun s => List.length s <= List.length cur) mid ->
  exists b a,
    before ++ cur :: mid ++ rest
    = b ++ longestSplitter (cur :: rest) :: a
    /\ Forall (fun s => List.length s
                        < List.length (longestSplitter (cur :: rest))) b
    /\ Forall (fun s => List.length s
                        <= List.length (longestSplitter (cur :: rest))) a.
Proof.
  induction rest as [|x rest IH]; intros cur before mid Hb Hm.
  - exists before, mid. rewrite app_nil_r. now repeat split.
  - cbn [longestSplitter fold_left].
    destruct (List.length cur <? List.length x) eqn:E.
    + apply Nat.ltb_lt in E.
      destruct (IH x (before ++ cur :: mid) []) as (b & a & H1 & H2 & H3).
      * apply Forall_app. split.
        -- eapply Forall_impl; [|exact Hb]. cbn beta. intros; lia.
        -- constructor; [exact E|].
           eapply Forall_impl; [|exact Hm]. cbn beta. intros; lia.
      * constructor.
      * exists b, a. cbn [longestSplitter app] in *.
        rewrite <- H1. split; [|now split].
        now rewrite <- !app_assoc.
    + apply Nat.ltb_ge in E.
      destruct (IH cur before (mid ++ [x])) as (b & a & H1 & H2 & H3).
      * exact Hb.
      * apply Forall_app. split; [exact Hm|]. now repeat constructor.
      * exists b, a. cbn [longestSplitter] in *.
        rewrite <- H1. split; [|now split].
        now rewrite <- !app_assoc.
Qed.

(** X1.  Of a non-empty list [longestSplitter] returns a member that no
    member is longer than, and the first one of that length: the members
    before it are strictly shorter. *)
Theorem longestSplitter_first_of_the_longest :
  forall splitters : list gostring,
    splitters <> [] ->
    exists before after,
      splitters = before ++ longestSplitter splitters :: after
      /\ Forall (fun s => List.length s
                          < List.length (longestSplitter splitters)) before
      /\ Forall (fun s => List.length s
                          <= List.length (longestSplitter splitters)) after.
Proof.
  intros [|first rest] H; [congruence|].
  destruct (fold_longest_split rest first [] [] (Forall_nil _) (Forall_nil _))
    as (b & a & H1 & H2 & H3).
  exists b, a. cbn [app] in H1. now repeat split.
Qed.

Lemma longestSplitter_first_of_the_longest_witness :
  [str " "; str "   "; str "  "; str "---"] <> []
  /\ exists before after,
       [str " "; str "   "; str "  "; str "---"]
       = before ++ longestSplitter [str " "; str "   "; str "  "; str "---"]
                :: after
       /\ Forall (fun s => List.length s
                  < List.length (longestSplitter
                                   [str " "; str "   "; str "  "; str "---"]))
                 before
       /\ Forall (fun s => List.length s
                  <= List.length (longestSplitter
                                    [str " "; str "   "; str "  "; str "---"]))
                 after.
Proof.
  split; [discriminate|].
  apply (longestSplitter_first_of_the_longest
           [str " "; str "   "; str "  "; str "---"]).
  discriminate.
Defined.

Lemma longestSplitter_longest (splitters : list gostring) :
  Forall (fun s => List.length s <= List.length (longestSplitter splitters))
         splitters.
Proof.
  destruct splitters as [|first rest]; [constructor|].
  destruct (fold_longest_split rest first [] [] (Forall_nil _) (Forall_nil _))
    as (b & a & H1 & H2 & H3).
  cbn [app] in H1. remember (longestSplitter (first :: rest)) as L eqn:EL.
  rewrite H1. apply Forall_app. split.
  - eapply Forall_impl; [|exact H2]. cbn beta. intros; lia.
  - constructor; [lia|exact H3].
Qed.

End LongestSplitter.

Section Lookbehind.

Lemma lookbehindLoop_length text p ms :
  forall last,
  List.length (lookbehindLoop text p ms last []) = S (List.length ms).
Proof.
  induction ms as [|[a b] ms IH]; intros last; [reflexivity|].
  cbn [lookbehindLoop]. rewrite lookbehindLoop_acc.
  cbn [app List.length]. now rewrite IH.
Qed.

Lemma lookbehindLoop_suffix text p ms :
  forall last,
  Forall (isSuffix p) (removelast (lookbehindLoop text p ms last [])).
Proof.
  induction ms as [|[a b] ms IH]; intros last; [constructor|].
  cbn [lookbehindLoop]. rewrite lookbehindLoop_acc. cbn [app].
  pose proof (lookbehindLoop_nonempty text p ms b []) as Hne.
  destruct (lookbehindLoop text p ms b []) as [|x l] eqn:E; [congruence|].
  cbn [removelast]. constructor.
  - now exists (slice text last a).
  - specialize (IH b). now rewrite E in IH.
Qed.

Lemma FindAllLiteralIndex_nonempty lit text :
  lit <> [] -> occursIn lit text -> FindAllLiteralIndex lit text <> [].
Proof.
  intros Hlit Hocc. unfold FindAllLiteralIndex. cbn [literalLoop].
  destruct (Index_occurs _ _ Hocc) as [m ->].
  destruct lit; [congruence|discriminate].
Qed.

Lemma LookbehindSplit_parts_shorter text p sp :
  sp <> [] -> occursIn (p ++ sp) text ->
  Forall (fun part => List.length part < List.length text)
         (LookbehindSplit text p sp).
Proof.
  intros Hsp Hocc. unfold LookbehindSplit.
  destruct (FindAllLiteralIndex_spec (p ++ sp) text) as [Hm Hs].
  apply (lookbehindLoop_shorter text p sp); try assumption; [lia|].
  left. apply FindAllLiteralIndex_nonempty; [|exact Hocc].
  intros H. apply app_eq_nil in H as [_ H]. congruence.
Qed.

(** X2.  The parts of [LookbehindSplit], for a text, a [precededBy] and a
    [splitter] that are valid UTF-8, so that the pattern compiles and its
    matches are the occurrences of the bytes: every part but the last
    ends with [precededBy]; there is one part more than there are
    occurrences of [precededBy] followed by [splitter]; where there is no
    occurrence the text is the only part; and where there is one and the
    splitter is not empty every part is shorter than the text. *)
Theorem LookbehindSplit_parts :
  forall text precededBy splitter : gostring,
    ValidString text = true ->
    ValidString precededBy = true ->
    ValidString splitter = true ->
    Forall (isSuffix precededBy)
           (removelast (LookbehindSplit text precededBy splitter))
    /\ List.length (LookbehindSplit text precededBy splitter)
       = S (List.length (FindAllLiteralIndex (precededBy ++ splitter) text))
    /\ (Strings.Index text (precededBy ++ splitter) = None ->
        LookbehindSplit text precededBy splitter = [text])
    /\ (splitter <> [] -> occursIn (precededBy ++ splitter) text ->
        Forall (fun part => List.length part < List.length text)
               (LookbehindSplit text precededBy splitter)).
Proof.
  intros text p sp _ _ _. repeat split.
  - apply lookbehindLoop_suffix.
  - apply lookbehindLoop_length.
  - intros H. unfold LookbehindSplit, FindAllLiteralIndex.
    cbn [literalLoop]. now rewrite H.
  - apply LookbehindSplit_parts_shorter.
Qed.

Lemma LookbehindSplit_parts_witness :
  LookbehindSplit (str "No? Yes. No. Yes") (str ".") (str " ")
  = [str "No? Yes."; str "No."; str "Yes"]
  /\ Forall (isSuffix (str "."))
            (removelast
               (LookbehindSplit (str "No? Yes. No. Yes") (str ".") (str " ")))
  /\ List.length
       (LookbehindSplit (str "No? Yes. No. Yes") (str ".") (str " "))
     = S (List.length
            (FindAllLiteralIndex (str "." ++ str " ")
                                 (str "No? Yes. No. Yes")))
  /\ (Strings.Index (str "No? Yes. No. Yes") (str "." ++ str " ") = None ->
      LookbehindSplit (str "No? Yes. No. Yes") (str ".") (str " ")
      = [str "No? Yes. No. Yes"])
  /\ (str " " <> [] ->
      occursIn (str "." ++ str " ") (str "No? Yes. No. Yes") ->
      Forall (fun part =>
                List.length part < List.length (str "No? Yes. No. Yes"))
             (LookbehindSplit (str "No? Yes. No. Yes") (str ".") (str " "))).
Proof.
  split; [reflexivity|].
  apply (LookbehindSplit_parts (str "No? Yes. No. Yes") (str ".") (str " "));
    reflexivity.
Defined.

End Lookbehind.

Section SelectorBranches.

Lemma Contains_single_In text b :
  Strings.Contains text [b] = true -> In b text.
Proof.
  unfold Strings.Contains.
  destruct (Strings.Index text [b]) as [m|] eqn:E; [|discriminate].
  intros _. apply Index_Some in E. rewrite E.
  apply in_or_app. right. now left.
Qed.

Lemma In_Contains_single text b :
  In b text -> Strings.Contains text [b] = true.
Proof.
  intros H. apply in_split in H as (p & q & ->).
  unfold Strings.Contains.
  destruct (Index_occurs [b] (p ++ b :: q)) as [m ->]; [|reflexivity].
  now exists p, q.
Qed.

Lemma runsLoop_nonempty cls s :
  forall cur,
  cur <> [] \/ (exists b, In b s /\ cls b = true) ->
  runsLoop cls s cur <> [].
Proof.
  induction s as [|x s IH]; intros cur H; simpl.
  - destruct H as [H|(b & [] & _)]. now destruct cur.
  - destruct (cls x) eqn:Ex.
    + apply IH. left. now destruct cur.
    + destruct cur; [|discriminate]. apply IH. right.
      destruct H as [H|(b & [->|Hin] & Hb)]; [congruence|congruence|].
      now exists b.
Qed.

(** What [splitAtRuns] returns where a byte of the class occurs. *)
Lemma splitAtRuns_spec cls text b :
  In b text -> cls b = true ->
  exists d,
    splitAtRuns cls text = Some (d, true, Strings.Split text d)
    /\ d <> []
    /\ Forall (fun x => cls x = true) d
    /\ occursIn d text
    /\ Forall (fun run => List.length run <= List.length d)
              (FindAllRuns cls text).
Proof.
  intros Hin Hb. unfold splitAtRuns.
  assert (Hne : FindAllRuns cls text <> []).
  { apply runsLoop_nonempty. right. now exists b. }
  pose proof (runsLoop_occurs cls text text [] [] eq_refl) as Hocc.
  pose proof (runsLoop_class cls text [] (Forall_nil _)) as Hcls.
  pose proof (longestSplitter_longest (FindAllRuns cls text)) as Hlong.
  fold (FindAllRuns cls text) in Hocc, Hcls.
  destruct (FindAllRuns cls text) as [|first rest] eqn:E; [congruence|].
  cbn [List.length Nat.ltb Nat.leb].
  exists (longestSplitter (first :: rest)). split; [reflexivity|].
  apply (longestSplitter_elim_cons
           (fun d => d <> [] /\ occursIn d text)) in Hocc as [H1 H2].
  apply (longestSplitter_elim_cons
           (Forall (fun x => cls x = true))) in Hcls.
  now repeat split.
Qed.

(** X3.  Newlines come first: where the text has a line feed or a
    carriage return, [innerSplit] splits on the longest run of them,
    whatever the preserve patterns and the rest of the text are.  The
    splitter is not empty, is made of line feeds and carriage returns,
    occurs in the text, and no run of them is longer. *)
Theorem innerSplit_newlines_first :
  forall (text : gostring) (preservePatterns : list Regexp),
    Strings.Contains text LF = true \/ Strings.Contains text CR = true ->
    exists splitter,
      innerSplit text preservePatterns
      = (splitter, true, Strings.Split text splitter)
      /\ splitter <> []
      /\ Forall (fun b => isNewline b = true) splitter
      /\ occursIn splitter text
      /\ Forall (fun run => List.length run <= List.length splitter)
                (FindAllRuns isNewline text).
Proof.
  intros text pats H.
  assert (Hb : exists b, In b text /\ isNewline b = true).
  { destruct H as [H|H]; apply Contains_single_In in H;
      eexists; (split; [exact H|reflexivity]). }
  destruct Hb as (b & Hin & Hb).
  destruct (splitAtRuns_spec isNewline text b Hin Hb) as (d & Hd & Hrest).
  exists d. split; [|exact Hrest].
  unfold innerSplit.
  replace (Strings.Contains text LF || Strings.Contains text CR) with true
    by (destruct H as [-> | ->]; now rewrite ?orb_true_r).
  now rewrite Hd.
Qed.

Lemma innerSplit_newlines_first_witness :
  (Strings.Contains (LF ++ str "a. b" ++ LF ++ LF ++ str "c.") LF = true
   \/ Strings.Contains (LF ++ str "a. b" ++ LF ++ LF ++ str "c.") CR = true)
  /\ exists splitter,
       innerSplit (LF ++ str "a. b" ++ LF ++ LF ++ str "c.") []
       = (splitter, true,
          Strings.Split (LF ++ str "a. b" ++ LF ++ LF ++ str "c.") splitter)
       /\ splitter <> []
       /\ Forall (fun b => isNewline b = true) splitter
       /\ occursIn splitter (LF ++ str "a. b" ++ LF ++ LF ++ str "c.")
       /\ Forall (fun run => List.length run <= List.length splitter)
                 (FindAllRuns isNewline
                    (LF ++ str "a. b" ++ LF ++ LF ++ str "c.")).
Proof.
  split; [left; reflexivity|].
  apply (innerSplit_newlines_first
           (LF ++ str "a. b" ++ LF ++ LF ++ str "c.") []).
  left. reflexivity.
Defined.

(** X4.  Tabs come second: in a text without line feed and carriage
    return that has a tab, [innerSplit] splits on the longest run of
    tabs. *)
Theorem innerSplit_tabs_second :
  forall (text : gostring) (preservePatterns : list Regexp),
    Strings.Contains text LF = false ->
    Strings.Contains text CR = false ->
    Strings.Contains text TAB = true ->
    exists splitter,
      innerSplit text preservePatterns
      = (splitter, true, Strings.Split text splitter)
      /\ splitter <> []
      /\ Forall (fun b => isTab b = true) splitter
      /\ occursIn splitter text
      /\ Forall (fun run => List.length run <= List.length splitter)
                (FindAllRuns isTab text).
Proof.
  intros text pats Hn Hr Ht.
  pose proof (Contains_single_In _ _ Ht) as Hin.
  destruct (splitAtRuns_spec isTab text (byte_of 9) Hin eq_refl)
    as (d & Hd & Hrest).
  exists d. split; [|exact Hrest].
  unfold innerSplit. rewrite Hn, Hr, Ht. cbn [orb orElse]. now rewrite Hd.
Qed.

Lemma innerSplit_tabs_second_witness :
  exists splitter,
    innerSplit (str "a b" ++ TAB ++ TAB ++ str "c, d" ++ TAB ++ str "e") []
    = (splitter, true,
       Strings.Split
         (str "a b" ++ TAB ++ TAB ++ str "c, d" ++ TAB ++ str "e") splitter)
    /\ splitter <> []
    /\ Forall (fun b => isTab b = true) splitter
    /\ occursIn splitter
                (str "a b" ++ TAB ++ TAB ++ str "c, d" ++ TAB ++ str "e")
    /\ Forall (fun run => List.length run <= List.length splitter)
              (FindAllRuns isTab
                 (str "a b" ++ TAB ++ TAB ++ str "c, d" ++ TAB ++ str "e")).
Proof.
  apply (innerSplit_tabs_second
           (str "a b" ++ TAB ++ TAB ++ str "c, d" ++ TAB ++ str "e") []
           eq_refl eq_refl eq_refl).
Defined.

End SelectorBranches.

Section PreservedMatches.

Lemma splitAtPatterns_firstMatching text pats :
  splitAtPatterns text pats
  = option_map (fun p => ([], true,
                          preserveLoop text (FindAllStringIndex p text) 0 []))
               (firstMatching pats text).
Proof.
  unfold firstMatching. induction pats as [|p pats IH]; simpl; [reflexivity|].
  unfold nonEmpty. now destruct (0 <? _).
Qed.

Lemma preserveLoop_keeps text ms :
  forall last parts part,
  In part parts -> In part (preserveLoop text ms last parts).
Proof.
  induction ms as [|[a b] ms IH]; intros last parts part H; simpl.
  - destruct (last <? _); [apply in_or_app; now left|exact H].
  - apply IH. apply in_or_app. left.
    destruct (last <? a); [apply in_or_app; now left|exact H].
Qed.

Lemma preserveLoop_matches text ms :
  forall last parts,
  Forall (fun ab => In (slice text (fst ab) (snd ab))
                       (preserveLoop text ms last parts)) ms.
Proof.
  induction ms as [|[a b] ms IH]; intros last parts; [constructor|].
  simpl. constructor.
  - apply preserveLoop_keeps. apply in_or_app. right. now left.
  - apply IH.
Qed.

(** The parts between the matches are not empty. *)
Lemma preserveLoop_parts text (all : list (nat * nat)) ms :
  forall last parts,
  incl ms all ->
  matchesFrom last (List.length text) ms ->
  Forall (fun part => part <> []
                      \/ exists ab, In ab all
                                    /\ part = slice text (fst ab) (snd ab))
         parts ->
  Forall (fun part => part <> []
                      \/ exists ab, In ab all
                                    /\ part = slice text (fst ab) (snd ab))
         (preserveLoop text ms last parts).
Proof.
  induction ms as [|[a b] ms IH]; intros last parts Hin Hm Hp; simpl.
  - destruct (last <? List.length text) eqn:E; [|exact Hp].
    apply Nat.ltb_lt in E. apply Forall_app. split; [exact Hp|].
    constructor; [|constructor]. left.
    intros H. apply (f_equal (@List.length _)) in H.
    rewrite length_skipn in H. simpl in H. lia.
  - destruct Hm as (H1 & H2 & H3 & H4).
    apply IH; [intros x Hx; apply Hin; now right|exact H4|].
    apply Forall_app. split.
    + destruct (last <? a) eqn:E; [|exact Hp].
      apply Nat.ltb_lt in E. apply Forall_app. split; [exact Hp|].
      constructor; [|constructor]. left.
      intros H. apply (f_equal (@List.length _)) in H.
      rewrite slice_length in H by lia. simpl in H. lia.
    + constructor; [|constructor]. right.
      exists (a, b). split; [apply Hin; now left|reflexivity].
Qed.


(** X5.  Preserve patterns come third: in a text without line feed,
    carriage return and tab, the first preserve pattern that matches
    decides the split.  The splitter is empty, every match is a fragment
    of its own, every other fragment is a non-empty piece between
    matches, and the fragments concatenate to the text. *)
Theorem innerSplit_preserved_matches :
  forall (text : gostring) (preservePatterns : list Regexp) (p : Regexp),
    Strings.Contains text LF = false ->
    Strings.Contains text CR = false ->
    Strings.Contains text TAB = false ->
    firstMatching preservePatterns text = Some p ->
    wellBehaved p ->
    exists parts,
      innerSplit text preservePatterns = ([], true, parts)
      /\ Forall (fun ab => In (slice text (fst ab) (snd ab)) parts)
                (FindAllStringIndex p text)
      /\ Forall (fun part =>
                   part <> []
                   \/ exists ab, In ab (FindAllStringIndex p text)
                                 /\ part = slice text (fst ab) (snd ab))
                parts
      /\ List.concat parts = text.
Proof.
  intros text pats p Hn Hr Ht Hp Hwf.
  exists (preserveLoop text (FindAllStringIndex p text) 0 []).
  split.
  - unfold innerSplit. rewrite Hn, Hr, Ht. cbn [orb orElse].
    now rewrite splitAtPatterns_firstMatching, Hp.
  - split; [apply preserveLoop_matches|]. split.
    + apply preserveLoop_parts; [apply incl_refl|apply Hwf|constructor].
    + now rewrite preserveLoop_concat by apply Hwf.
Qed.

Lemma innerSplit_preserved_matches_witness :
  firstMatching [literal (str "xyz"); literal (str "https://x.y")]
                (str "see https://x.y now")
  = Some (literal (str "https://x.y"))
  /\ exists parts,
       innerSplit (str "see https://x.y now")
                  [literal (str "xyz"); literal (str "https://x.y")]
       = ([], true, parts)
       /\ Forall (fun ab => In (slice (str "see https://x.y now")
                                      (fst ab) (snd ab)) parts)
                 (FindAllStringIndex (literal (str "https://x.y"))
                                     (str "see https://x.y now"))
       /\ Forall (fun part =>
                    part <> []
                    \/ exists ab,
                         In ab (FindAllStringIndex
                                  (literal (str "https://x.y"))
                                  (str "see https://x.y now"))
                         /\ part = slice (str "see https://x.y now")
                                         (fst ab) (snd ab))
                 parts
       /\ List.concat parts = str "see https://x.y now".
Proof.
  split; [reflexivity|].
  apply (innerSplit_preserved_matches
           (str "see https://x.y now")
           [literal (str "xyz"); literal (str "https://x.y")]
           (literal (str "https://x.y"))
           eq_refl eq_refl eq_refl eq_refl).
  apply literal_wellBehaved.
Defined.



End PreservedMatches.

Section PunctuationAndCharacters.

Lemma splitAtLiteral_spec text splitters r :
  splitAtLiteral text splitters = Some r ->
  In (fst (fst r)) splitters
  /\ Strings.Contains text (fst (fst r)) = true
  /\ r = (fst (fst r), false, Strings.Split text (fst (fst r))).
Proof.
  induction splitters as [|d ds IH]; simpl; [discriminate|].
  destruct (Strings.Contains text d) eqn:E.
  - intros [= <-]. cbn [fst]. repeat split; [now left|exact E].
  - intros H. destruct (IH H) as (H1 & H2 & H3). repeat split; auto.
Qed.

Lemma splitAtPreceded_class text preceders r :
  splitAtPreceded text preceders = Some r -> snd (fst r) = true.
Proof.
  induction preceders as [|p ps IH]; simpl; [discriminate|].
  destruct (FindLiteralSpace p text); [|exact IH]. now intros [= <-].
Qed.

Lemma splitAtWhitespace_class text r :
  splitAtWhitespace text = Some r -> snd (fst r) = true.
Proof.
  unfold splitAtWhitespace. destruct (0 <? _); [|discriminate].
  destruct (if _ =? 1 then _ else None) as [r'|] eqn:E.
  - intros [= <-]. apply guarded_Some in E as [_ E].
    now apply splitAtPreceded_class in E.
  - now intros [= <-].
Qed.

Lemma splitAtPatterns_class text pats r :
  splitAtPatterns text pats = Some r -> snd (fst r) = true.
Proof.
  induction pats as [|p ps IH]; simpl; [discriminate|].
  destruct (0 <? _); [|exact IH]. now intros [= <-].
Qed.

Lemma splitAtRuns_class cls text r :
  splitAtRuns cls text = Some r -> snd (fst r) = true.
Proof.
  unfold splitAtRuns. destruct (0 <? _); [|discriminate]. now intros [= <-].
Qed.

(** X7.  The whitespace flag of [innerSplit] is false only for a split at
    a terminator: the splitter is then one of the terminators of the two
    lists, it occurs in the text, and the splits are those of
    [strings.Split] at it. *)
Theorem innerSplit_flag_false_is_terminator :
  forall (text : gostring) (preservePatterns : list Regexp)
         (splitter : gostring) (splits : list gostring),
    innerSplit text preservePatterns = (splitter, false, splits) ->
    In splitter (fullWidthNonWhitespaceSemanticSpliters
                 ++ nonWhitespaceSemanticSplitters)
    /\ Strings.Contains text splitter = true
    /\ splits = Strings.Split text splitter.
Proof.
  intros text pats d splits H.
  assert (Hgen :
    (fun r => snd (fst r) = false ->
              In (fst (fst r)) (fullWidthNonWhitespaceSemanticSpliters
                                ++ nonWhitespaceSemanticSplitters)
              /\ Strings.Contains text (fst (fst r)) = true
              /\ snd r = Strings.Split text (fst (fst r)))
      (innerSplit text pats)).
  { apply innerSplit_cases.
    - intros r Hr Hf. apply splitAtRuns_class in Hr. congruence.
    - intros r Hr Hf. apply splitAtRuns_class in Hr. congruence.
    - intros r Hr Hf. apply splitAtPatterns_class in Hr. congruence.
    - intros r Hr _. apply splitAtLiteral_spec in Hr as (H1 & H2 & ->).
      cbn [fst snd]. repeat split; [|exact H2].
      apply in_or_app. now left.
    - intros r Hr Hf. apply splitAtWhitespace_class in Hr. congruence.
    - intros r Hr _. apply splitAtLiteral_spec in Hr as (H1 & H2 & ->).
      cbn [fst snd]. repeat split; [|exact H2].
      apply in_or_app. now right.
    - discriminate. }
  cbn beta in Hgen. rewrite H in Hgen. cbn [fst snd] in Hgen.
  now apply Hgen.
Qed.

Lemma innerSplit_flag_false_is_terminator_witness :
  innerSplit (str "a,b;c") [] = (str ",", false, [str "a"; str "b;c"])
  /\ In (str ",") (fullWidthNonWhitespaceSemanticSpliters
                   ++ nonWhitespaceSemanticSplitters)
  /\ Strings.Contains (str "a,b;c") (str ",") = true
  /\ [str "a"; str "b;c"] = Strings.Split (str "a,b;c") (str ",").
Proof.
  split; [reflexivity|].
  apply (innerSplit_flag_false_is_terminator (str "a,b;c") []).
  reflexivity.
Defined.

Lemma Contains_class_false cls text b :
  Forall (fun x => cls x = false) text -> cls b = true ->
  Strings.Contains text [b] = false.
Proof.
  intros Hall Hb. destruct (Strings.Contains text [b]) eqn:E; [|reflexivity].
  apply Contains_single_In in E. rewrite Forall_forall in Hall.
  apply Hall in E. congruence.
Qed.

(** X8.  The fallback: a text without a byte of the class [\s], without
    terminator and without a match of a preserve pattern is split into
    its characters, with the empty splitter; each fragment is a single
    character and the fragments concatenate to the text. *)
Theorem innerSplit_falls_back_to_characters :
  forall (text : gostring) (preservePatterns : list Regexp),
    Forall (fun b => isSpaceClass b = false) text ->
    Forall (fun p => FindAllStringIndex p text = []) preservePatterns ->
    firstContained (fullWidthNonWhitespaceSemanticSpliters
                    ++ nonWhitespaceSemanticSplitters) text = None ->
    innerSplit text preservePatterns = ([], true, Strings.explode text)
    /\ Forall singleChar (Strings.explode text)
    /\ List.concat (Strings.explode text) = text.
Proof.
  intros text pats Hs Hp Ht. split; [|split].
  - unfold innerSplit.
    rewrite (Contains_class_false isSpaceClass text (byte_of 10) Hs eq_refl
             : Strings.Contains text LF = false).
    rewrite (Contains_class_false isSpaceClass text (byte_of 13) Hs eq_refl
             : Strings.Contains text CR = false).
    rewrite (Contains_class_false isSpaceClass text (byte_of 9) Hs eq_refl
             : Strings.Contains text TAB = false).
    cbn [orb orElse].
    rewrite (splitAtPatterns_none _ _ Hp), !splitAtLiteral_firstContained.
    rewrite firstContained_app in Ht.
    destruct (firstContained fullWidthNonWhitespaceSemanticSpliters text);
      [discriminate|].
    rewrite Ht. cbn [option_map].
    rewrite (splitAtWhitespace_none _ Hs). now destruct (ContainsSpace text).
  - apply explodeLoop_singleChar.
  - now apply explodeLoop_concat.
Qed.

Lemma innerSplit_falls_back_to_characters_witness :
  innerSplit (str "a你b") [literal (str "xyz")]
  = ([], true, [str "a"; str "你"; str "b"])
  /\ Forall singleChar (Strings.explode (str "a你b"))
  /\ List.concat (Strings.explode (str "a你b")) = str "a你b".
Proof.
  apply (innerSplit_falls_back_to_characters
           (str "a你b") [literal (str "xyz")]).
  - repeat constructor.
  - repeat constructor.
  - reflexivity.
Defined.

(** X9.  Without preserve patterns every fragment that [innerSplit]
    returns is shorter than the text or is a single character: [split]
    never recurses on a fragment as long as its span, except a single
    character. *)
Theorem innerSplit_fragments_get_shorter :
  forall text : gostring,
    Forall (shorterOrChar text) (snd (innerSplit text [])).
Proof. intros text. apply innerSplit_fragments. Qed.

End PunctuationAndCharacters.

Section AsciiSpace.

Ltac break_if_eqn :=
  match goal with
  | |- context [if ?b then _ else _] =>
      let E := fresh "E" in destruct b eqn:E
  end.

Lemma acceptRange_low (s0 : N) : (0x80 <= fst (Utf8.acceptRange s0))%N.
Proof.
  unfold Utf8.acceptRange. repeat break_if_eqn; cbn [fst]; lia.
Qed.

Lemma between_low (lo hi x : N) :
  Utf8.between lo hi x = true -> (lo <= x)%N.
Proof.
  unfold Utf8.between. intros H. apply andb_true_iff in H as [H _].
  now apply N.leb_le in H.
Qed.

(** An ASCII byte behind the first byte is still there behind the first
    rune: the bytes a rune takes besides its first are 0x80 and above. *)
Lemma ascii_survives_rune (c0 : ascii) (t : gostring) (b : ascii) :
  In b t -> (Utf8.byteval b < 0x80)%N ->
  In b (skipn (Utf8.width (c0 :: t)) (c0 :: t)).
Proof.
  intros Hin Hb. unfold Utf8.width, Utf8.DecodeRuneInString.
  generalize (Utf8.byteval c0). intros s0.
  destruct (s0 <? 128)%N; [exact Hin|].
  destruct ((s0 <? 194)%N || (244 <? s0)%N); [exact Hin|].
  pose proof (acceptRange_low s0) as Hlo.
  destruct (Utf8.acceptRange s0) as [lo hi]. cbn [fst] in Hlo.
  destruct (List.length (c0 :: t) <? Utf8.seqLen s0); [exact Hin|].
  destruct t as [|c1 t1]; [exact Hin|].
  destruct (Utf8.between lo hi (Utf8.byteval c1)) eqn:E1; cbn [negb];
    [|exact Hin].
  apply between_low in E1.
  assert (H1 : In b t1).
  { destruct Hin as [<-|H]; [lia|exact H]. }
  destruct (Utf8.seqLen s0 <=? 2); [exact H1|].
  destruct t1 as [|c2 t2]; [exact Hin|].
  destruct (Utf8.between 128 191 (Utf8.byteval c2)) eqn:E2; cbn [negb];
    [|exact Hin].
  apply between_low in E2.
  assert (H2 : In b t2).
  { destruct H1 as [<-|H]; [lia|exact H]. }
  destruct (Utf8.seqLen s0 <=? 3); [exact H2|].
  destruct t2 as [|c3 t3]; [exact Hin|].
  destruct (Utf8.between 128 191 (Utf8.byteval c3)) eqn:E3; cbn [negb];
    [|exact Hin].
  apply between_low in E3.
  destruct H2 as [<-|H]; [lia|exact H].
Qed.

Lemma decode_ascii (b : ascii) (t : gostring) :
  (Utf8.byteval b < 0x80)%N ->
  Utf8.DecodeRuneInString (b :: t) = (Utf8.byteval b, 1).
Proof.
  intros H. unfold Utf8.DecodeRuneInString.
  now replace (Utf8.byteval b <? 128)%N with true
    by (symmetry; now apply N.ltb_lt).
Qed.

(** An ASCII byte of a string is one of its runes. *)
Lemma runesLoop_ascii (n : nat) :
  forall (s : gostring) (b : ascii),
  List.length s <= n -> In b s -> (Utf8.byteval b < 0x80)%N ->
  In (Utf8.byteval b) (Utf8.runesLoop n s).
Proof.
  induction n as [|n IH]; intros s b Hn Hin Hb.
  - destruct s; [contradiction|simpl in Hn; lia].
  - destruct s as [|c0 t]; [contradiction|]. cbn [Utf8.runesLoop].
    destruct Hin as [->|Hin].
    + left. now rewrite decode_ascii.
    + right. pose proof (width_bounds c0 t) as Hw. apply IH.
      * rewrite length_skipn. cbn [List.length] in *. lia.
      * now apply ascii_survives_rune.
      * exact Hb.
Qed.

Lemma isAsciiSpace_IsSpace (b : ascii) :
  isAsciiSpace b = true ->
  (Utf8.byteval b < 0x80)%N /\ Utf8.IsSpace (Utf8.byteval b) = true.
Proof.
  unfold isAsciiSpace. intros H.
  repeat (apply orb_true_iff in H as [H|H]);
    apply Ascii.eqb_eq in H; subst b; split; reflexivity.
Qed.

Lemma isSpaceClass_isAsciiSpace (b : ascii) :
  isSpaceClass b = true -> isAsciiSpace b = true.
Proof.
  unfold isSpaceClass, isAsciiSpace. intros H.
  repeat (apply orb_true_iff in H as [H|H]); rewrite H;
    now rewrite ?orb_true_r.
Qed.

(** An ASCII whitespace byte is a rune of its own, whatever surrounds it. *)
Lemma ContainsSpace_ascii (text : gostring) (b : ascii) :
  In b text -> isAsciiSpace b = true -> ContainsSpace text = true.
Proof.
  intros Hin Hb. apply isAsciiSpace_IsSpace in Hb as [Hlt Hsp].
  unfold ContainsSpace. apply existsb_exists.
  exists (Utf8.byteval b). split; [|exact Hsp].
  now apply runesLoop_ascii.
Qed.

(** X10.  [ContainsSpace] holds of every text that has one of the bytes
    tab, line feed, vertical tab, form feed, carriage return and space,
    whatever bytes surround it, valid UTF-8 or not. *)
Theorem ContainsSpace_sees_ascii_whitespace :
  forall (text : gostring) (b : ascii),
    In b text -> isAsciiSpace b = true -> ContainsSpace text = true.
Proof.
  intros text b Hin Hb. apply isAsciiSpace_IsSpace in Hb as [Hlt Hsp].
  unfold ContainsSpace. apply existsb_exists.
  exists (Utf8.byteval b). split; [|exact Hsp].
  now apply runesLoop_ascii.
Qed.

Lemma ContainsSpace_sees_ascii_whitespace_witness :
  In (byte_of 32) (str "你好 世界")
  /\ ContainsSpace (str "你好 世界") = true.
Proof.
  assert (H : In (byte_of 32) (str "你好 世界"))
    by (do 6 right; left; reflexivity).
  split; [exact H|].
  apply (ContainsSpace_sees_ascii_whitespace (str "你好 世界") (byte_of 32) H).
  reflexivity.
Defined.

Lemma splitAtWhitespace_spec (text : gostring) (b : ascii) :
  In b text -> isSpaceClass b = true ->
  exists r,
    splitAtWhitespace text = Some r
    /\ fst (fst r) <> []
    /\ Forall (fun x => isSpaceClass x = true) (fst (fst r))
    /\ snd (fst r) = true.
Proof.
  intros Hin Hb.
  destruct (splitAtRuns_spec isSpaceClass text b Hin Hb)
    as (d & Hd & Hne & Hcls & _).
  unfold splitAtRuns in Hd. unfold splitAtWhitespace.
  destruct (0 <? List.length (FindAllRuns isSpaceClass text));
    [|discriminate].
  injection Hd as Hd.
  destruct (if _ =? 1 then _ else None) as [r|] eqn:E.
  - exists r. split; [reflexivity|].
    apply guarded_Some in E as [_ E].
    pose proof (splitAtPreceded_class _ _ _ E) as Hc.
    revert E. generalize nonWhitespaceSemanticSplitters.
    induction l as [|p ps IH]; simpl; [discriminate|].
    destruct (FindLiteralSpace p text) as [sp|] eqn:Ep; [|exact IH].
    intros [= <-]. apply FindLiteralSpace_space in Ep as (x & -> & Hx).
    cbn [fst snd]. repeat split; [discriminate|].
    constructor; [exact Hx|constructor].
  - eexists. split; [reflexivity|]. cbn [fst snd]. rewrite Hd.
    now repeat split.
Qed.

(** X11.  Whitespace comes before the terminators of the second list:
    in a text without line feed, carriage return, tab, preserved match
    and full-width terminator that has a byte of the class [\s],
    [innerSplit] splits at whitespace.  The splitter is not empty and made
    of bytes of the class, the flag is true, the splits join to the text
    and each is shorter than the text. *)
Theorem innerSplit_whitespace_before_terminators :
  forall (text : gostring) (preservePatterns : list Regexp) (b : ascii),
    Strings.Contains text LF = false ->
    Strings.Contains text CR = false ->
    Strings.Contains text TAB = false ->
    Forall (fun p => FindAllStringIndex p text = []) preservePatterns ->
    firstContained fullWidthNonWhitespaceSemanticSpliters text = None ->
    In b text -> isSpaceClass b = true ->
    exists splitter splits,
      innerSplit text preservePatterns = (splitter, true, splits)
      /\ splitter <> []
      /\ Forall (fun x => isSpaceClass x = true) splitter
      /\ Strings.Join splits splitter = text
      /\ Forall (fun f => List.length f < List.length text) splits.
Proof.
  intros text pats b Hn Hr Ht Hp Hfw Hin Hb.
  destruct (splitAtWhitespace_spec text b Hin Hb)
    as ([[d ws] splits] & Hw & Hne & Hcls & Hflag).
  cbn [fst snd] in Hne, Hcls, Hflag. subst ws.
  exists d, splits. split.
  - unfold innerSplit. rewrite Hn, Hr, Ht. cbn [orb orElse].
    rewrite (splitAtPatterns_none _ _ Hp), splitAtLiteral_firstContained, Hfw.
    cbn [option_map].
    rewrite (ContainsSpace_ascii text b Hin
               (isSpaceClass_isAsciiSpace b Hb)).
    now rewrite Hw.
  - repeat split; try assumption.
    + now apply splitAtWhitespace_rejoins in Hw.
    + now apply splitAtWhitespace_shorter in Hw.
Qed.

Lemma innerSplit_whitespace_before_terminators_witness :
  In (byte_of 32) (str "a.b c")
  /\ exists splitter splits,
       innerSplit (str "a.b c") [literal (str "xyz")]
       = (splitter, true, splits)
       /\ splitter <> []
       /\ Forall (fun x => isSpaceClass x = true) splitter
       /\ Strings.Join splits splitter = str "a.b c"
       /\ Forall (fun f => List.length f < List.length (str "a.b c")) splits.
Proof.
  assert (H : In (byte_of 32) (str "a.b c"))
    by (do 3 right; left; reflexivity).
  split; [exact H|].
  apply (innerSplit_whitespace_before_terminators
           (str "a.b c") [literal (str "xyz")] (byte_of 32)
           eq_refl eq_refl eq_refl);
    [repeat constructor|reflexivity|exact H|reflexivity].
Defined.

End AsciiSpace.

Section SentenceTerminators.

Lemma splitAtPreceded_firstPreceder text preceders p :
  find (fun p => match FindLiteralSpace p text with
                 | Some _ => true
                 | None => false
                 end) preceders = Some p ->
  exists sp,
    FindLiteralSpace p text = Some sp
    /\ splitAtPreceded text preceders
       = Some (sp, true, LookbehindSplit text p sp).
Proof.
  induction preceders as [|q qs IH]; simpl; [discriminate|].
  destruct (FindLiteralSpace q text) as [sp|] eqn:E.
  - intros [= <-]. now exists sp.
  - exact IH.
Qed.

(** X12.  Sentences keep their terminator: in a text without line feed,
    carriage return, tab, preserved match and full-width terminator,
    whose whitespace runs are single bytes, and in which a terminator of
    the second list is followed by whitespace, [innerSplit] splits behind
    the first such terminator [p] of the list, at every place where [p]
    is followed by the whitespace byte found.  The splitter is that
    byte; there are at least two fragments, every fragment but the last
    ends with [p], and the fragments join to the text. *)
Theorem innerSplit_keeps_sentence_terminators :
  forall (text : gostring) (preservePatterns : list Regexp) (p : gostring),
    Strings.Contains text LF = false ->
    Strings.Contains text CR = false ->
    Strings.Contains text TAB = false ->
    Forall (fun q => FindAllStringIndex q text = []) preservePatterns ->
    firstContained fullWidthNonWhitespaceSemanticSpliters text = None ->
    List.length (longestSplitter (FindAllRuns isSpaceClass text)) = 1 ->
    firstPreceder text = Some p ->
    exists splitter,
      innerSplit text preservePatterns
      = (splitter, true, LookbehindSplit text p splitter)
      /\ FindLiteralSpace p text = Some splitter
      /\ List.length splitter = 1
      /\ 2 <= List.length (LookbehindSplit text p splitter)
      /\ Forall (isSuffix p) (removelast (LookbehindSplit text p splitter))
      /\ Strings.Join (LookbehindSplit text p splitter) splitter = text.
Proof.
  intros text pats p Hn Hr Ht Hp Hfw Hone Hfirst.
  apply splitAtPreceded_firstPreceder in Hfirst as (sp & Hsp & Hsplit).
  pose proof (FindLiteralSpace_occurs _ _ _ Hsp) as Hocc.
  pose proof (FindLiteralSpace_space _ _ _ Hsp) as (b & -> & Hb).
  assert (Hin : In b text).
  { destruct Hocc as (pre & post & ->).
    apply in_or_app. right. apply in_or_app. left.
    apply in_or_app. right. now left. }
  exists [b]. split.
  - unfold innerSplit. rewrite Hn, Hr, Ht. cbn [orb orElse].
    rewrite (splitAtPatterns_none _ _ Hp), splitAtLiteral_firstContained, Hfw.
    cbn [option_map].
    rewrite (ContainsSpace_ascii text b Hin
               (isSpaceClass_isAsciiSpace b Hb)).
    unfold splitAtWhitespace.
    replace (0 <? List.length (FindAllRuns isSpaceClass text)) with true.
    + now rewrite Hone, Nat.eqb_refl, Hsplit.
    + symmetry. apply Nat.ltb_lt.
      destruct (FindAllRuns isSpaceClass text); [discriminate Hone|].
      simpl. lia.
  - split; [exact Hsp|]. split; [reflexivity|].
    assert (H1 : Forall (isSuffix p)
                        (removelast (LookbehindSplit text p [b])))
      by apply lookbehindLoop_suffix.
    assert (H2 : List.length (LookbehindSplit text p [b])
                 = S (List.length (FindAllLiteralIndex (p ++ [b]) text)))
      by apply lookbehindLoop_length.
    split; [|split; [exact H1|apply LookbehindSplit_Join]].
    rewrite H2.
    pose proof (FindAllLiteralIndex_nonempty (p ++ [b]) text) as Hne.
    destruct (FindAllLiteralIndex (p ++ [b]) text).
    + exfalso. apply Hne; [|exact Hocc|reflexivity].
      intros H. now apply app_eq_nil in H as [_ H].
    + simpl. lia.
Qed.

Lemma innerSplit_keeps_sentence_terminators_witness :
  firstPreceder (str "No? Yes. No. Yes") = Some (str ".")
  /\ exists splitter,
       innerSplit (str "No? Yes. No. Yes") []
       = (splitter, true, LookbehindSplit (str "No? Yes. No. Yes")
                                          (str ".") splitter)
       /\ FindLiteralSpace (str ".") (str "No? Yes. No. Yes") = Some splitter
       /\ List.length splitter = 1
       /\ 2 <= List.length (LookbehindSplit (str "No? Yes. No. Yes")
                                            (str ".") splitter)
       /\ Forall (isSuffix (str "."))
                 (removelast (LookbehindSplit (str "No? Yes. No. Yes")
                                              (str ".") splitter))
       /\ Strings.Join (LookbehindSplit (str "No? Yes. No. Yes")
                                        (str ".") splitter) splitter
          = str "No? Yes. No. Yes".
Proof.
  split; [reflexivity|].
  apply (innerSplit_keeps_sentence_terminators
           (str "No? Yes. No. Yes") [] (str ".")
           eq_refl eq_refl eq_refl (Forall_nil _) eq_refl eq_refl eq_refl).
Defined.

End SentenceTerminators.

(** * Further properties of the merger *)
Lemma runSize_snoc (splitterSize : Z) (sizes : list Z) (l : Z) :
  runSize splitterSize (sizes ++ [l])
  = match sizes with
    | [] => Int.add 0 l
    | _ :: _ => accumulate splitterSize (runSize splitterSize sizes) l
    end.
Proof.
  destruct sizes as [|a rest]; [reflexivity|].
  cbn [app runSize]. now rewrite fold_left_app.
Qed.

Lemma plainSize_snoc (splitterSize : Z) (sizes : list Z) (l : Z) :
  plainSize splitterSize (sizes ++ [l])
  = match sizes with
    | [] => l
    | _ :: _ => (plainSize splitterSize sizes + l + splitterSize)%Z
    end.
Proof.
  destruct sizes as [|a rest]; [reflexivity|].
  cbn [app plainSize]. now rewrite fold_left_app.
Qed.

Section MergerSizes.

Variable c : TextSplitter.
Variable splitter : gostring.
Variable chunkSize : Z.

Variable splitterSize : Z.

Lemma wrap_small (z : Z) :
  (Int.min_int <= z <= Int.max_int)%Z -> Int.wrap z = z.
Proof.
  unfold Int.wrap, Int.min_int, Int.max_int, Int.half, Int.modulus.
  intros H. rewrite Z.mod_small; lia.
Qed.

Lemma plainSize_grows (sizes more : list Z) :
  (0 <= splitterSize)%Z ->
  Forall (fun l => 0 <= l)%Z (sizes ++ more) ->
  (0 <= plainSize splitterSize sizes
   <= plainSize splitterSize (sizes ++ more))%Z.
Proof.
  intros Hs. revert sizes.
  induction more as [|x more IH] using rev_ind; intros sizes Hall.
  - rewrite app_nil_r in *. split; [|lia].
    induction sizes as [|y sizes IHs] using rev_ind; [simpl; lia|].
    apply Forall_app in Hall as [H1 H2].
    inversion H2 as [|? ? Hy _]; subst.
    rewrite plainSize_snoc. specialize (IHs H1).
    destruct sizes; lia.
  - rewrite app_assoc in *. apply Forall_app in Hall as [H1 H2].
    inversion H2 as [|? ? Hx _]; subst. specialize (IH sizes H1).
    rewrite plainSize_snoc.
    destruct (sizes ++ more) eqn:E; [|lia].
    apply app_eq_nil in E as [-> ->]. simpl. lia.
Qed.

(** The size the loop computes for the accumulator with one more
    fragment, where the plain sum is in the range of [int]. *)
Lemma estimate_plain (done : list gostring) (sizes : list Z) (l : Z) :
  List.length done = List.length sizes ->
  (0 <= splitterSize)%Z -> (0 <= l)%Z ->
  (0 <= plainSize splitterSize sizes)%Z ->
  (plainSize splitterSize (sizes ++ [l]) <= Int.max_int)%Z ->
  estimateSize (plainSize splitterSize sizes) l splitterSize (nonEmpty done)
  = plainSize splitterSize (sizes ++ [l]).
Proof.
  intros Hlen Hs Hl H0 Hmax. rewrite plainSize_snoc in *.
  unfold estimateSize, Int.add, Int.min_int, Int.max_int, Int.half in *.
  destruct done as [|f done], sizes as [|a sizes]; try discriminate Hlen.
  - cbn [nonEmpty List.length Nat.ltb Nat.leb plainSize].
    apply wrap_small. unfold Int.min_int, Int.max_int, Int.half. lia.
  - replace (nonEmpty (f :: done)) with true by reflexivity.
    rewrite (wrap_small (_ + l))
      by (unfold Int.min_int, Int.max_int, Int.half; lia).
    apply wrap_small. unfold Int.min_int, Int.max_int, Int.half. lia.
Qed.

Lemma grown_plain (done : list gostring) (sizes : list Z) (f : gostring) (l : Z) :
  List.length done = List.length sizes ->
  (0 <= splitterSize)%Z -> (0 <= l)%Z ->
  (0 <= plainSize splitterSize sizes)%Z ->
  (plainSize splitterSize (sizes ++ [l]) <= Int.max_int)%Z ->
  (if 1 <? List.length (done ++ [f])
   then Int.add (Int.add (plainSize splitterSize sizes) l) splitterSize
   else Int.add (plainSize splitterSize sizes) l)
  = plainSize splitterSize (sizes ++ [l]).
Proof.
  intros Hlen Hs Hl H0 Hmax.
  pose proof (estimate_plain done sizes l Hlen Hs Hl H0 Hmax) as He.
  unfold estimateSize in He.
  destruct done as [|x done]; [exact He|].
  rewrite length_app. cbn [List.length]. rewrite <- He.
  replace (1 <? S (List.length done) + 1) with true
    by (symmetry; apply Nat.ltb_lt; lia).
  reflexivity.
Qed.

Lemma mergeLoop_fits (merges : list gostring) (ids : list Z) :
  (0 <= splitterSize)%Z -> (chunkSize <= Int.max_int)%Z ->
  forall rest restSizes done doneSizes,
  List.length rest = List.length restSizes ->
  List.length done = List.length doneSizes ->
  Forall (fun l => 0 <= l)%Z (doneSizes ++ restSizes) ->
  (plainSize splitterSize (doneSizes ++ restSizes) <= chunkSize)%Z ->
  mergeLoop c (doneSizes ++ restSizes) splitter splitterSize chunkSize rest
            (List.length done) merges done ids
            (plainSize splitterSize doneSizes)
  = Ok (if nonEmpty (done ++ rest)
        then appendMerged merges (Strings.Join (done ++ rest) splitter)
        else merges).
Proof.
  intros Hs Hmax.
  induction rest as [|f rest IH];
    intros restSizes done doneSizes Hr Hd Hall Hfit.
  - now rewrite app_nil_r.
  - destruct restSizes as [|l restSizes]; [discriminate Hr|].
    injection Hr as Hr. cbn [mergeLoop].
    rewrite nth_error_app2 by lia.
    replace (List.length done - List.length doneSizes) with 0 by lia.
    cbn [nth_error].
    assert (Hall' : Forall (fun l => 0 <= l)%Z ((doneSizes ++ [l]) ++ restSizes))
      by now rewrite <- app_assoc.
    assert (Hl : (0 <= l)%Z).
    { apply Forall_app in Hall as [_ H]. now inversion H. }
    pose proof (plainSize_grows doneSizes (l :: restSizes) Hs Hall) as [H0 _].
    pose proof (plainSize_grows (doneSizes ++ [l]) restSizes Hs Hall')
      as [_ Hle].
    rewrite <- app_assoc in Hle. cbn [app] in Hle.
    rewrite estimate_plain by (try assumption; lia).
    replace (chunkSize <? plainSize splitterSize (doneSizes ++ [l]))%Z
      with false by (symmetry; apply Z.ltb_ge; lia).
    cbn [bind].
    rewrite grown_plain by (try assumption; lia).
    replace (S (List.length done)) with (List.length (done ++ [f]))
      by (rewrite length_app; simpl; lia).
    replace (doneSizes ++ l :: restSizes) with ((doneSizes ++ [l]) ++ restSizes)
      by now rewrite <- app_assoc.
    rewrite IH.
    + now rewrite <- app_assoc.
    + exact Hr.
    + rewrite !length_app. simpl. lia.
    + exact Hall'.
    + now rewrite <- app_assoc.
Qed.

End MergerSizes.

Section MergerChunks.

(** Fragments that fit together are joined to one chunk. *)
Lemma mergeSplits_fits :
  forall (c : TextSplitter) (splits : list gostring)
         (splitSizes splitIds : list Z) (splitter : gostring) (chunkSize : Z),
    List.length splits = List.length splitSizes ->
    Forall (fun l => 0 <= l)%Z splitSizes ->
    (0 <= countTokenFunc c splitter)%Z ->
    (plainSize (countTokenFunc c splitter) splitSizes <= chunkSize)%Z ->
    (chunkSize <= Int.max_int)%Z ->
    mergeSplits c splits splitSizes splitIds splitter chunkSize
    = Ok (if 0 <? List.length (Strings.Join splits splitter)
          then [Strings.Join splits splitter] else []).
Proof.
  intros c splits sizes ids d cs Hlen Hall Hs Hfit Hmax.
  unfold mergeSplits.
  pose proof (mergeLoop_fits c d cs (countTokenFunc c d) [] ids Hs Hmax
                splits sizes [] []
                Hlen eq_refl Hall Hfit) as E.
  cbn [app List.length plainSize] in E. rewrite E.
  unfold appendMerged.
  destruct splits as [|f splits]; [reflexivity|].
  now replace (nonEmpty (f :: splits)) with true by reflexivity.
Qed.

(** X13.  Fragments that fit together make one chunk: where the sizes
    and the splitter size are not negative and the sizes with one
    splitter size between two fragments sum to at most the chunk size,
    [mergeSplits] returns the join of all fragments as the only chunk
    (no chunk, where that join is empty), whatever the overlap is. *)
Theorem mergeSplits_one_chunk_when_all_fits :
  forall (c : TextSplitter) (splits : list gostring)
         (splitSizes splitIds : list Z) (splitter : gostring) (chunkSize : Z),
    List.length splits = List.length splitSizes ->
    Forall (fun l => 0 <= l)%Z splitSizes ->
    (0 <= countTokenFunc c splitter)%Z ->
    (plainSize (countTokenFunc c splitter) splitSizes <= chunkSize)%Z ->
    (chunkSize <= Int.max_int)%Z ->
    mergeSplits c splits splitSizes splitIds splitter chunkSize
    = Ok (if 0 <? List.length (Strings.Join splits splitter)
          then [Strings.Join splits splitter] else []).
Proof. exact mergeSplits_fits. Qed.

Lemma mergeSplits_one_chunk_when_all_fits_witness :
  (plainSize (countTokenFunc (bytesSplitter 11 5) (str " ")) [5; 5]
   <= 11)%Z
  /\ mergeSplits (bytesSplitter 11 5) [str "hello"; str "world"]
                 [5; 5]%Z [0; 1]%Z (str " ") 11
     = Ok [str "hello world"].
Proof.
  split; [vm_compute; discriminate|].
  apply (mergeSplits_one_chunk_when_all_fits
           (bytesSplitter 11 5) [str "hello"; str "world"]
           [5; 5]%Z [0; 1]%Z (str " ") 11 eq_refl).
  - repeat constructor; discriminate.
  - discriminate.
  - vm_compute; discriminate.
  - vm_compute; discriminate.
Defined.

Lemma In_Join_occurs (splitter f : gostring) (l : list gostring) :
  In f l -> occursIn f (Strings.Join l splitter).
Proof.
  induction l as [|x l IH]; [contradiction|].
  intros [->|H].
  - destruct l as [|y l].
    + exists [], []. cbn [Strings.Join app]. now rewrite app_nil_r.
    + rewrite Join_cons by discriminate.
      now exists [], (splitter ++ Strings.Join (y :: l) splitter).
  - destruct l as [|y l]; [contradiction|].
    rewrite Join_cons by discriminate.
    destruct (IH H) as (p & q & ->).
    exists (x ++ splitter ++ p), q. now rewrite <- !app_assoc.
Qed.

Lemma occursIn_nonempty (f s : gostring) :
  f <> [] -> occursIn f s -> (0 <? List.length s) = true.
Proof.
  intros Hf (p & q & ->). apply Nat.ltb_lt.
  rewrite !length_app. destruct f; [congruence|]. simpl. lia.
Qed.

(** A non-empty fragment lies whole inside a chunk. *)
Lemma mergeSplits_keeps :
  forall (c : TextSplitter) (splits : list gostring)
         (splitSizes splitIds : list Z) (splitter : gostring) (chunkSize : Z)
         (chunks : list gostring),
    mergeSplits c splits splitSizes splitIds splitter chunkSize = Ok chunks ->
    forall f, In f splits -> f <> [] ->
              exists chunk, In chunk chunks /\ occursIn f chunk.
Proof.
  intros c splits sizes ids d cs chunks H. unfold mergeSplits in H.
  assert (Hemit : forall (merges tm : list gostring) f,
             f <> [] ->
             (exists chunk, In chunk merges /\ occursIn f chunk) \/ In f tm ->
             exists chunk,
               In chunk (appendMerged merges (Strings.Join tm d))
               /\ occursIn f chunk).
  { intros merges tm f Hf [(chunk & Hin & Hocc)|Hin]; unfold appendMerged.
    - exists chunk. split; [|exact Hocc].
      destruct (0 <? _); [apply in_or_app; now left|exact Hin].
    - pose proof (In_Join_occurs d f tm Hin) as Hocc.
      rewrite (occursIn_nonempty _ _ Hf Hocc).
      exists (Strings.Join tm d). split; [|exact Hocc].
      apply in_or_app. right. now left. }
  apply (mergeLoop_invariant c
           (fun done merges tm =>
              forall f, In f done -> f <> [] ->
                (exists chunk, In chunk merges /\ occursIn f chunk)
                \/ In f tm)) with (done := []) in H
    as (merges' & tm' & HI & ->).
  - intros f Hin Hf. specialize (HI f Hin Hf).
    destruct (nonEmpty tm') eqn:E; [now apply Hemit|].
    apply nonEmpty_false in E. subst tm'.
    destruct HI as [HI|[]]. exact HI.
  - intros done merges tm k HI f Hin Hf. left.
    apply Hemit; [exact Hf|]. now apply HI.
  - intros done merges tm x HI f Hin Hf.
    apply in_app_or in Hin as [Hin|[->|[]]].
    + destruct (HI f Hin Hf) as [H1|H1]; [now left|].
      right. apply in_or_app. now left.
    + right. apply in_or_app. right. now left.
  - intros f [].
Qed.

(** X14.  The merger neither cuts nor drops a fragment: every non-empty
    fragment lies whole inside one of the chunks [mergeSplits] returns,
    whatever the sizes, the ids and the overlap are. *)
Theorem mergeSplits_keeps_fragments_whole :
  forall (c : TextSplitter) (splits : list gostring)
         (splitSizes splitIds : list Z) (splitter : gostring) (chunkSize : Z)
         (chunks : list gostring),
    mergeSplits c splits splitSizes splitIds splitter chunkSize = Ok chunks ->
    forall f, In f splits -> f <> [] ->
              exists chunk, In chunk chunks /\ occursIn f chunk.
Proof. exact mergeSplits_keeps. Qed.

Lemma mergeSplits_keeps_fragments_whole_witness :
  mergeSplits (bytesSplitter 11 5)
              [str "hello"; str "world"; str "test"; str "again"]
              [5; 5; 4; 5]%Z [0; 1; 2; 3]%Z (str " ") 11
  = Ok [str "hello world"; str "world test"; str "test again"]
  /\ exists chunk,
       In chunk [str "hello world"; str "world test"; str "test again"]
       /\ occursIn (str "test") chunk.
Proof.
  split; [reflexivity|].
  apply (mergeSplits_keeps_fragments_whole
           (bytesSplitter 11 5)
           [str "hello"; str "world"; str "test"; str "again"]
           [5; 5; 4; 5]%Z [0; 1; 2; 3]%Z (str " ") 11).
  - reflexivity.
  - do 2 right. left. reflexivity.
  - discriminate.
Defined.

End MergerChunks.

(** * The merger without overlap: greedy groups *)
Section MergerGroups.

Variable c : TextSplitter.
Variable splitter : gostring.
Variable chunkSize : Z.

Variable splitterSize : Z.

Lemma chunksOf_snoc (groups : list Group) (g : Group) :
  chunksOf splitter (groups ++ [g])
  = appendMerged (chunksOf splitter groups) (joinGroup splitter g).
Proof.
  unfold chunksOf, appendMerged. rewrite map_app, filter_app.
  cbn [map filter]. destruct (0 <? _); [reflexivity|apply app_nil_r].
Qed.

Lemma firstSize_app (groups more : list Group) :
  groups <> [] -> firstSize (groups ++ more) = firstSize groups.
Proof. destruct groups; [congruence|reflexivity]. Qed.

Lemma firstSize_grown (groups : list Group) (g : Group) (x : gostring * Z) :
  g <> [] -> firstSize (groups ++ [g ++ [x]]) = firstSize (groups ++ [g]).
Proof.
  intros Hg. destruct groups as [|g' groups]; [|reflexivity].
  destruct g; [congruence|reflexivity].
Qed.

Lemma greedy_new_group (groups : list Group) (g : Group) (f : gostring) (l : Z) :
  greedy splitterSize chunkSize (groups ++ [g]) ->
  (chunkSize < runSize splitterSize (map snd g ++ [l]))%Z ->
  greedy splitterSize chunkSize ((groups ++ [g]) ++ [[(f, l)]]).
Proof.
  intros H Hl. induction groups as [|g' groups IH].
  - cbn [app greedy firstSize]. auto.
  - cbn [app greedy] in *. destruct H as [H1 H2]. split; [|now apply IH].
    rewrite firstSize_app by (destruct groups; discriminate). exact H1.
Qed.

Lemma greedy_grown_group (groups : list Group) (g : Group) (x : gostring * Z) :
  g <> [] ->
  greedy splitterSize chunkSize (groups ++ [g]) ->
  greedy splitterSize chunkSize (groups ++ [g ++ [x]]).
Proof.
  intros Hg H. induction groups as [|g' groups IH].
  - cbn [app greedy firstSize]. auto.
  - cbn [app greedy] in *. destruct H as [H1 H2]. split; [|now apply IH].
    now rewrite firstSize_grown.
Qed.

Lemma mergeLoop_groups :
  (0 <? overlap c)%Z = false ->
  forall (rest : list gostring) (restSizes : list Z)
         (done : list gostring) (doneSizes : list Z)
         (groups : list Group) (cur : Group) (ids : list Z),
  List.length rest = List.length restSizes ->
  List.length done = List.length doneSizes ->
  cur <> [] ->
  Forall (fun g => g <> []) groups ->
  Forall (withinBudget splitterSize chunkSize) (groups ++ [cur]) ->
  greedy splitterSize chunkSize (groups ++ [cur]) ->
  exists all,
    mergeLoop c (doneSizes ++ restSizes) splitter splitterSize chunkSize rest
              (List.length done) (chunksOf splitter groups) (map fst cur) ids
              (runSize splitterSize (map snd cur))
    = Ok (chunksOf splitter all)
    /\ List.concat all = List.concat groups ++ cur ++ combine rest restSizes
    /\ Forall (fun g => g <> []) all
    /\ Forall (withinBudget splitterSize chunkSize) all
    /\ greedy splitterSize chunkSize all.
Proof.
  intros Hov.
  induction rest as [|f rest IH];
    intros restSizes done doneSizes groups cur ids Hr Hd Hcur Hne Hbud Hgr.
  - exists (groups ++ [cur]). cbn [mergeLoop].
    replace (nonEmpty (map fst cur)) with true
      by (destruct cur; [congruence|reflexivity]).
    rewrite chunksOf_snoc. split; [reflexivity|].
    split; [|split; [|split]]; try assumption.
    + rewrite concat_app. cbn [List.concat combine]. now rewrite !app_nil_r.
    + apply Forall_app. split; [exact Hne|]. now constructor.
  - destruct restSizes as [|l restSizes]; [discriminate Hr|].
    injection Hr as Hr. cbn [mergeLoop].
    rewrite nth_error_app2 by lia.
    replace (List.length done - List.length doneSizes) with 0 by lia.
    cbn [nth_error].
    replace (nonEmpty (map fst cur)) with true
      by (destruct cur; [congruence|reflexivity]).
    assert (Hest : estimateSize (runSize splitterSize (map snd cur)) l
                                splitterSize true
                   = runSize splitterSize (map snd cur ++ [l])).
    { rewrite runSize_snoc. destruct cur; [congruence|reflexivity]. }
    rewrite Hest, Hov.
    replace (S (List.length done)) with (List.length (done ++ [f]))
      by (rewrite length_app; simpl; lia).
    replace (doneSizes ++ l :: restSizes) with ((doneSizes ++ [l]) ++ restSizes)
      by now rewrite <- app_assoc.
    assert (Hd' : List.length (done ++ [f]) = List.length (doneSizes ++ [l]))
      by (rewrite !length_app; simpl; lia).
    destruct (chunkSize <? runSize splitterSize (map snd cur ++ [l]))%Z eqn:E;
      cbn [bind].
    + apply Z.ltb_lt in E. cbn [app List.length Nat.ltb Nat.leb].
      change (Strings.Join (map fst cur) splitter) with (joinGroup splitter cur).
      rewrite <- chunksOf_snoc.
      destruct (IH restSizes (done ++ [f]) (doneSizes ++ [l])
                   (groups ++ [cur]) [(f, l)] ids Hr Hd')
        as (all & Hrun & Hcat & Hall); try discriminate.
      * apply Forall_app. split; [exact Hne|]. now constructor.
      * apply Forall_app. split; [exact Hbud|].
        constructor; [|constructor]. now left.
      * now apply greedy_new_group.
      * exists all. split; [exact Hrun|]. split; [|exact Hall].
        rewrite Hcat, concat_app. cbn [List.concat combine app].
        now rewrite app_nil_r, <- !app_assoc.
    + apply Z.ltb_ge in E.
      replace (1 <? List.length (map fst cur ++ [f])) with true
        by (symmetry; apply Nat.ltb_lt; rewrite length_app;
            destruct cur; [congruence|simpl; lia]).
      change (Int.add (Int.add (runSize splitterSize (map snd cur)) l)
                      splitterSize)
        with (estimateSize (runSize splitterSize (map snd cur)) l
                           splitterSize true).
      rewrite Hest.
      destruct (IH restSizes (done ++ [f]) (doneSizes ++ [l])
                   groups (cur ++ [(f, l)]) ids Hr Hd')
        as (all & Hrun & Hcat & Hall).
      * destruct cur; discriminate.
      * exact Hne.
      * apply Forall_app in Hbud as [Hb _]. apply Forall_app.
        split; [exact Hb|]. constructor; [|constructor].
        right. now rewrite map_app.
      * now apply greedy_grown_group.
      * exists all. rewrite !map_app in Hrun. split; [exact Hrun|].
        split; [|exact Hall].
        rewrite Hcat. cbn [combine]. now rewrite <- !app_assoc.
Qed.

End MergerGroups.

Section MergerGreedy.

(** Without overlap the chunks are the joins of greedy groups. *)
Lemma mergeSplits_groups :
  forall (c : TextSplitter) (splits : list gostring)
         (splitSizes splitIds : list Z) (splitter : gostring) (chunkSize : Z),
    (overlap c <= 0)%Z ->
    List.length splits = List.length splitSizes ->
    exists groups : list Group,
      mergeSplits c splits splitSizes splitIds splitter chunkSize
      = Ok (chunksOf splitter groups)
      /\ List.concat groups = combine splits splitSizes
      /\ Forall (fun g => g <> []) groups
      /\ Forall (withinBudget (countTokenFunc c splitter) chunkSize) groups
      /\ greedy (countTokenFunc c splitter) chunkSize groups.
Proof.
  intros c splits sizes ids d cs Hov Hlen.
  assert (Hov' : (0 <? overlap c)%Z = false) by (apply Z.ltb_ge; lia).
  destruct splits as [|f rest], sizes as [|l restSizes]; try discriminate Hlen.
  - exists []. repeat split; constructor.
  - injection Hlen as Hlen.
    destruct (mergeLoop_groups c d cs (countTokenFunc c d) Hov'
                rest restSizes [f] [l] []
                [(f, l)] ids Hlen eq_refl)
      as (all & Hrun & Hcat & Hall); try discriminate.
    + constructor.
    + constructor; [|constructor]. now left.
    + cbn [app greedy firstSize]. auto.
    + exists all. split; [|split; [exact Hcat|exact Hall]].
      rewrite <- Hrun. unfold mergeSplits. cbn [mergeLoop nth_error].
      rewrite Hov'. cbn [app List.length].
      destruct (cs <? estimateSize 0 l (countTokenFunc c d) (nonEmpty []))%Z;
        reflexivity.
Qed.

(** X15.  Without overlap the merger packs the fragments greedily: given
    a size for every fragment and an overlap that is not positive,
    [mergeSplits] returns, and its chunks are the non-empty joins of
    consecutive groups of the fragments, in order; every group is a single
    fragment or has a size, as the loop computes it, of at most the chunk
    size, and the first fragment of a group did not fit into the group
    before it. *)
Theorem mergeSplits_packs_greedily_without_overlap :
  forall (c : TextSplitter) (splits : list gostring)
         (splitSizes splitIds : list Z) (splitter : gostring) (chunkSize : Z),
    (overlap c <= 0)%Z ->
    List.length splits = List.length splitSizes ->
    exists groups : list Group,
      mergeSplits c splits splitSizes splitIds splitter chunkSize
      = Ok (chunksOf splitter groups)
      /\ List.concat groups = combine splits splitSizes
      /\ Forall (fun g => g <> []) groups
      /\ Forall (withinBudget (countTokenFunc c splitter) chunkSize) groups
      /\ greedy (countTokenFunc c splitter) chunkSize groups.
Proof. exact mergeSplits_groups. Qed.

Lemma mergeSplits_packs_greedily_without_overlap_witness :
  exists groups : list Group,
    mergeSplits (bytesSplitter 11 0)
                [str "hello"; str "world"; str "test"; str "again"]
                [5; 5; 4; 5]%Z [0; 1; 2; 3]%Z (str " ") 11
    = Ok (chunksOf (str " ") groups)
    /\ List.concat groups
       = combine [str "hello"; str "world"; str "test"; str "again"]
                 [5; 5; 4; 5]%Z
    /\ Forall (fun g => g <> []) groups
    /\ Forall (withinBudget (countTokenFunc (bytesSplitter 11 0) (str " ")) 11)
              groups
    /\ greedy (countTokenFunc (bytesSplitter 11 0) (str " ")) 11 groups.
Proof.
  apply (mergeSplits_packs_greedily_without_overlap
           (bytesSplitter 11 0)
           [str "hello"; str "world"; str "test"; str "again"]
           [5; 5; 4; 5]%Z [0; 1; 2; 3]%Z (str " ") 11).
  - cbn. discriminate.
  - reflexivity.
Defined.

End MergerGreedy.

(** * The merger with the positions of its own fragments *)
Lemma wrap_wrap_add (a b : Z) : Int.wrap (Int.wrap a + b) = Int.wrap (a + b).
Proof.
  unfold Int.wrap. f_equal.
  replace ((a + Int.half) mod Int.modulus - Int.half + b + Int.half)%Z
    with ((a + Int.half) mod Int.modulus + b)%Z by lia.
  rewrite Zplus_mod_idemp_l. f_equal. lia.
Qed.

Lemma wrap_wrap_sub (a b : Z) : Int.wrap (Int.wrap a - b) = Int.wrap (a - b).
Proof.
  unfold Int.wrap. f_equal.
  replace ((a + Int.half) mod Int.modulus - Int.half - b + Int.half)%Z
    with ((a + Int.half) mod Int.modulus + (- b))%Z by lia.
  rewrite Zplus_mod_idemp_l. f_equal. lia.
Qed.

Lemma plainSize_cons (splitterSize a b : Z) (rest : list Z) :
  plainSize splitterSize (a :: b :: rest)
  = (a + splitterSize + plainSize splitterSize (b :: rest))%Z.
Proof.
  cbn [plainSize fold_left].
  assert (H : forall (l : list Z) (x y : Z),
             fold_left (fun acc z => (acc + z + splitterSize)%Z) l (x + y)%Z
             = (x + fold_left (fun acc z => (acc + z + splitterSize)%Z) l y)%Z).
  { induction l as [|z l IH]; intros x y; [reflexivity|].
    cbn [fold_left]. rewrite <- IH. f_equal. lia. }
  rewrite <- H. f_equal. lia.
Qed.

Lemma window_length (splitSizes : list Z) (j k : nat) :
  j + k <= List.length splitSizes -> List.length (window splitSizes j k) = k.
Proof.
  intros H. unfold window. rewrite length_firstn, length_skipn. lia.
Qed.

Lemma window_front (splitSizes : list Z) (j k : nat) :
  j + S k <= List.length splitSizes ->
  exists a, nth_error splitSizes j = Some a
            /\ window splitSizes j (S k) = a :: window splitSizes (S j) k.
Proof.
  unfold window. revert j. induction splitSizes as [|x l IH]; intros j H.
  - simpl in H. lia.
  - destruct j as [|j].
    + exists x. split; reflexivity.
    + cbn [List.length] in H. destruct (IH j) as (a & H1 & H2); [lia|].
      exists a. split; [exact H1|exact H2].
Qed.

Lemma firstn_snoc (sizes : list Z) (k : nat) (l : Z) :
  nth_error sizes k = Some l -> firstn (S k) sizes = firstn k sizes ++ [l].
Proof.
  revert sizes. induction k as [|k IH]; intros [|x sizes] H; try discriminate.
  - now injection H as ->.
  - cbn [nth_error] in H. cbn [firstn app]. f_equal. now apply IH.
Qed.

Lemma window_back (splitSizes : list Z) (j k : nat) (l : Z) :
  nth_error splitSizes (j + k) = Some l ->
  window splitSizes j (S k) = window splitSizes j k ++ [l].
Proof.
  intros H. unfold window. apply firstn_snoc.
  now rewrite nth_error_skipn.
Qed.

Section MergerPositions.

Variable c : TextSplitter.
Variable splitSizes : list Z.
Variable splitter : gostring.
Variable splitterSize chunkSize : Z.


Lemma kept_evicted (j k : nat) (a : Z) :
  j + S k <= List.length splitSizes ->
  nth_error splitSizes j = Some a ->
  (if 1 <? S k
   then Int.sub (Int.sub (keptSize splitterSize splitSizes j (S k)) a)
                splitterSize
   else Int.sub (keptSize splitterSize splitSizes j (S k)) a)
  = keptSize splitterSize splitSizes (S j) k.
Proof.
  intros Hlen Ha. unfold keptSize.
  destruct (window_front splitSizes j k Hlen) as (a' & Ha' & ->).
  assert (a' = a) by congruence. subst a'.
  pose proof (window_length splitSizes (S j) k) as Hw.
  destruct (window splitSizes (S j) k) as [|b rest] eqn:E.
  - assert (k = 0) by (simpl in Hw; lia). subst k.
    cbn [Nat.ltb Nat.leb plainSize fold_left]. unfold Int.sub.
    rewrite wrap_wrap_sub. f_equal. lia.
  - assert (1 <= k) by (cbn [List.length] in Hw; lia).
    replace (1 <? S k) with true by (symmetry; apply Nat.ltb_lt; lia).
    rewrite plainSize_cons. unfold Int.sub.
    rewrite wrap_wrap_sub, <- Z.sub_add_distr, wrap_wrap_sub. f_equal. lia.
Qed.

Lemma kept_grown (toMerge : list gostring) (f : gostring) (j : nat) (l : Z) :
  j + List.length toMerge < List.length splitSizes ->
  nth_error splitSizes (j + List.length toMerge) = Some l ->
  (if 1 <? List.length (toMerge ++ [f])
   then Int.add (Int.add (keptSize splitterSize splitSizes j (List.length toMerge))
                         l) splitterSize
   else Int.add (keptSize splitterSize splitSizes j (List.length toMerge)) l)
  = keptSize splitterSize splitSizes j (List.length (toMerge ++ [f])).
Proof.
  intros Hlen Hl. unfold keptSize. rewrite length_app. cbn [List.length].
  replace (List.length toMerge + 1) with (S (List.length toMerge)) by lia.
  rewrite (window_back splitSizes j _ l Hl), plainSize_snoc.
  pose proof (window_length splitSizes j (List.length toMerge)) as Hw.
  destruct (window splitSizes j (List.length toMerge)) as [|b rest] eqn:E.
  - assert (H0 : List.length toMerge = 0) by (simpl in Hw; lia).
    rewrite H0. cbn [Nat.ltb Nat.leb plainSize]. unfold Int.add.
    rewrite wrap_wrap_add. f_equal.
  - assert (1 <= List.length toMerge) by (cbn [List.length] in Hw; lia).
    replace (1 <? S (List.length toMerge)) with true
      by (symmetry; apply Nat.ltb_lt; lia).
    unfold Int.add.
    rewrite wrap_wrap_add, <- Z.add_assoc, wrap_wrap_add. f_equal. lia.
Qed.

(** The eviction loop pops a front of the accumulator and as many
    positions, and keeps the size of what is left. *)
Lemma evict_positions (l : Z) :
  (0 <= overlap c)%Z ->
  forall (toMerge : list gostring) (j m : nat),
  j + List.length toMerge <= List.length splitSizes ->
  List.length toMerge <= m ->
  exists k,
    k <= List.length toMerge
    /\ evict c splitSizes l splitterSize chunkSize
             (map Z.of_nat (seq j m)) toMerge
             (keptSize splitterSize splitSizes j (List.length toMerge))
       = Ok (skipn k toMerge, map Z.of_nat (seq (j + k) (m - k)),
             keptSize splitterSize splitSizes (j + k)
                      (List.length toMerge - k)).
Proof.
  intros Hov.
  induction toMerge as [|f tm IH]; intros j m Hlen Hm; rewrite evict_eq.
  - exists 0. split; [lia|].
    replace (evictCond c l splitterSize chunkSize []
                       (keptSize splitterSize splitSizes j (List.length [])))
      with false.
    + now rewrite Nat.add_0_r, Nat.sub_0_r.
    + unfold evictCond, keptSize. cbn [List.length window firstn plainSize].
      change (Int.wrap 0) with 0%Z.
      replace (overlap c <? 0)%Z with false by (symmetry; apply Z.ltb_ge; lia).
      now rewrite andb_false_r.
  - destruct (evictCond c l splitterSize chunkSize (f :: tm) _).
    + cbn [List.length] in *. destruct m as [|m]; [lia|].
      cbn [seq map].
      destruct (window_front splitSizes j (List.length tm)) as (a & Ha & _);
        [lia|].
      unfold index.
      replace (Z.of_nat j <? 0)%Z with false by (symmetry; apply Z.ltb_ge; lia).
      rewrite Nat2Z.id, Ha. cbv zeta.
      rewrite (kept_evicted j (List.length tm) a) by (assumption || lia).
      destruct (IH (S j) m) as (k & Hk & Hrun); [lia|lia|].
      exists (S k). split; [lia|]. rewrite Hrun. cbn [skipn].
      replace (j + S k) with (S j + k) by lia.
      reflexivity.
    + exists 0. split; [lia|]. now rewrite Nat.add_0_r, !Nat.sub_0_r.
Qed.

Lemma mergeLoop_positions :
  (0 < overlap c)%Z ->
  forall (rest toMerge merges : list gostring) (j m : nat),
  j + List.length toMerge + List.length rest <= List.length splitSizes ->
  List.length toMerge + List.length rest <= m ->
  exists chunks,
    mergeLoop c splitSizes splitter splitterSize chunkSize rest
              (j + List.length toMerge) merges toMerge
              (map Z.of_nat (seq j m))
              (keptSize splitterSize splitSizes j (List.length toMerge))
    = Ok chunks.
Proof.
  intros Hov.
  induction rest as [|f rest IH]; intros tm merges j m Hlen Hm.
  - eexists. reflexivity.
  - cbn [List.length] in *. cbn [mergeLoop].
    destruct (nth_error splitSizes (j + List.length tm)) as [l|] eqn:El;
      [|apply nth_error_None in El; lia].
    replace (0 <? overlap c)%Z with true by (symmetry; apply Z.ltb_lt; lia).
    destruct (chunkSize <? _)%Z.
    + destruct (evict_positions l (Z.lt_le_incl _ _ Hov) tm j m)
        as (k & Hk & ->); [lia|lia|].
      cbn [bind].
      assert (Hsk : List.length (skipn k tm) = List.length tm - k)
        by apply length_skipn.
      assert (El' : nth_error splitSizes (j + k + List.length (skipn k tm))
                    = Some l).
      { rewrite Hsk. rewrite <- El. f_equal. lia. }
      rewrite <- Hsk.
      rewrite (kept_grown (skipn k tm) f (j + k) l) by (assumption || lia).
      replace (S (j + List.length tm))
        with (j + k + List.length (skipn k tm ++ [f]))
        by (rewrite length_app, Hsk; simpl; lia).
      apply IH; rewrite length_app, Hsk; simpl; lia.
    + cbn [bind].
      rewrite (kept_grown tm f j l) by (assumption || lia).
      replace (S (j + List.length tm)) with (j + List.length (tm ++ [f]))
        by (rewrite length_app; simpl; lia).
      apply IH; rewrite length_app; simpl; lia.
Qed.

End MergerPositions.

Section MergerOwnPositions.

(** With the positions of its fragments as ids the merger returns. *)
Lemma mergeSplits_positions :
  forall (c : TextSplitter) (splits : list gostring) (splitSizes : list Z)
         (splitter : gostring) (chunkSize : Z),
    List.length splits = List.length splitSizes ->
    exists chunks,
      mergeSplits c splits splitSizes (positions (List.length splits))
                  splitter chunkSize
      = Ok chunks.
Proof.
  intros c splits sizes d cs Hlen.
  destruct (0 <? overlap c)%Z eqn:Hov.
  - apply Z.ltb_lt in Hov.
    destruct (mergeLoop_positions c sizes d (countTokenFunc c d) cs Hov
                splits [] [] 0 (List.length splits))
      as (chunks & H); cbn [List.length]; try lia.
    exists chunks. exact H.
  - pose proof (mergeSplits_no_panic c splits sizes
                  (positions (List.length splits)) d cs Hov) as Hp.
    pose proof (mergeSplits_returns c splits sizes
                  (positions (List.length splits)) d cs) as Hr.
    destruct (mergeSplits c splits sizes _ d cs) as [chunks| |].
    + now exists chunks.
    + exfalso. apply Hp; [lia|reflexivity].
    + now contradiction Hr.
Qed.

(** X16.  Given a size for every fragment, and as ids the positions
    0, 1, ... of the fragments, [mergeSplits] returns chunks and does not
    panic, whatever the sizes, the chunk size and the overlap are. *)
Theorem mergeSplits_returns_with_own_positions :
  forall (c : TextSplitter) (splits : list gostring) (splitSizes : list Z)
         (splitter : gostring) (chunkSize : Z),
    List.length splits = List.length splitSizes ->
    exists chunks,
      mergeSplits c splits splitSizes (positions (List.length splits))
                  splitter chunkSize
      = Ok chunks.
Proof. exact mergeSplits_positions. Qed.

Lemma mergeSplits_returns_with_own_positions_witness :
  exists chunks,
    mergeSplits (bytesSplitter 11 5)
                [str "hello"; str "world"; str "test"; str "again"]
                [5; 5; 4; 5]%Z (positions (List.length
                   [str "hello"; str "world"; str "test"; str "again"]))
                (str " ") 11
    = Ok chunks.
Proof.
  apply (mergeSplits_returns_with_own_positions
           (bytesSplitter 11 5)
           [str "hello"; str "world"; str "test"; str "again"]
           [5; 5; 4; 5]%Z (str " ") 11).
  reflexivity.
Defined.

End MergerOwnPositions.

(** * Further properties of [split] *)
Section SplitLevel.

Variable c : TextSplitter.
Variable recurse : gostring -> result (list gostring).
Variable splitter : gostring.
Variable chunkSize : Z.

(** A level whose fragments are all under the chunk size is one call of
    the merger. *)
Lemma splitLoop_all_good :
  forall (splits : list gostring) (i : Z) (rets good : list gostring)
         (sizes ids : list Z),
  Forall (fun f => (countTokenFunc c f < chunkSize)%Z) splits ->
  splitLoop recurse c splitter chunkSize splits i rets good sizes ids
  = if nonEmpty (good ++ splits)
    then merges <- mergeSplits c (good ++ splits)
                     (sizes ++ map (countTokenFunc c) splits)
                     (ids ++ map (fun k => (i + Z.of_nat k)%Z)
                                 (seq 0 (List.length splits)))
                     splitter chunkSize ;;
         Ok (rets ++ merges)
    else Ok rets.
Proof.
  induction splits as [|f rest IH]; intros i rets good sizes ids Hall.
  - cbn [splitLoop map List.length seq]. now rewrite !app_nil_r.
  - inversion Hall as [|? ? Hf Hrest]; subst. cbn [splitLoop].
    replace (countTokenFunc c f <? chunkSize)%Z with true
      by (symmetry; now apply Z.ltb_lt).
    rewrite IH by exact Hrest. cbn [map List.length seq].
    rewrite <- seq_shift, map_map, Z.add_0_r.
    rewrite <- !app_assoc. cbn [app].
    rewrite (map_ext (fun k => (i + 1 + Z.of_nat k)%Z)
                     (fun k => (i + Z.of_nat (S k))%Z))
      by (intros k; lia).
    reflexivity.
Qed.

(** A fragment under the chunk size lies whole inside a chunk of its
    level, and the chunks returned before stay. *)
Lemma splitLoop_keeps_good :
  forall (splits : list gostring) (i : Z) (rets good : list gostring)
         (sizes ids : list Z) (r : list gostring),
  splitLoop recurse c splitter chunkSize splits i rets good sizes ids = Ok r ->
  incl rets r
  /\ forall f,
       In f good \/ (In f splits /\ (countTokenFunc c f < chunkSize)%Z) ->
       f <> [] ->
       exists chunk, In chunk r /\ occursIn f chunk.
Proof.
  assert (Hflush : forall rets good sizes ids st,
             (if nonEmpty good
              then merges <- mergeSplits c good sizes ids splitter chunkSize ;;
                   Ok (rets ++ merges)
              else Ok rets) = Ok st ->
             incl rets st
             /\ forall f, In f good -> f <> [] ->
                          exists chunk, In chunk st /\ occursIn f chunk).
  { intros rets good sizes ids st H. destruct (nonEmpty good) eqn:Eg.
    - destruct (mergeSplits c good sizes ids splitter chunkSize)
        as [m| |] eqn:Em; cbn [bind] in H; try discriminate.
      injection H as <-. split; [apply incl_appl, incl_refl|].
      intros f Hin Hf.
      destruct (mergeSplits_keeps c good sizes ids splitter chunkSize m Em
                  f Hin Hf) as (chunk & H1 & H2).
      exists chunk. split; [apply in_or_app; now right|exact H2].
    - injection H as <-. split; [apply incl_refl|].
      apply nonEmpty_false in Eg. subst good. intros f []. }
  induction splits as [|f0 rest IH]; intros i rets good sizes ids r H.
  - cbn [splitLoop] in H. apply Hflush in H as [H1 H2]. split; [exact H1|].
    intros f [Hin|[[] _]] Hf. now apply H2.
  - cbn [splitLoop] in H.
    destruct (countTokenFunc c f0 <? chunkSize)%Z eqn:E.
    + apply IH in H as [H1 H2]. split; [exact H1|].
      intros f Hin Hf. apply H2; [|exact Hf].
      destruct Hin as [Hin|[[->|Hin] Hlt]].
      * left. apply in_or_app. now left.
      * left. apply in_or_app. right. now left.
      * right. now split.
    + destruct (if nonEmpty good then _ else _) as [st| |] eqn:Est;
        cbn [bind] in H; try discriminate.
      apply Hflush in Est as [Hst1 Hst2].
      destruct (recurse f0) as [sub| |]; cbn [bind] in H; try discriminate.
      apply IH in H as [H1 H2].
      assert (Hincl : incl st r).
      { intros x Hx. apply H1. apply in_or_app. now left. }
      split; [intros x Hx; now apply Hincl, Hst1|].
      intros f Hin Hf. destruct Hin as [Hin|[[->|Hin] Hlt]].
      * destruct (Hst2 f Hin Hf) as (chunk & Hc1 & Hc2).
        exists chunk. split; [now apply Hincl|exact Hc2].
      * apply Z.ltb_ge in E. lia.
      * apply H2; [|exact Hf]. right. now split.
Qed.

End SplitLevel.

Lemma positions_shift (n : nat) :
  map (fun k => (0 + Z.of_nat k)%Z) (seq 0 n) = positions n.
Proof. unfold positions. apply map_ext. intros k. lia. Qed.

Lemma plainSize_countBytes (splitter : gostring) (splits : list gostring) :
  plainSize (countBytes splitter) (map countBytes splits)
  = countBytes (Strings.Join splits splitter).
Proof.
  induction splits as [|f [|g rest] IH]; [reflexivity| |].
  - cbn [map plainSize fold_left Strings.Join]. reflexivity.
  - change (map countBytes (f :: g :: rest))
      with (countBytes f :: countBytes g :: map countBytes rest).
    rewrite plainSize_cons.
    change (countBytes g :: map countBytes rest)
      with (map countBytes (g :: rest)).
    rewrite IH. rewrite (Join_cons f (g :: rest)) by discriminate.
    unfold countBytes. rewrite !length_app. lia.
Qed.

Lemma occursIn_length (f s : gostring) :
  occursIn f s -> List.length f <= List.length s.
Proof. intros (p & q & ->). rewrite !length_app. lia. Qed.

Lemma innerSplit_preserved (text : gostring) (preservePatterns : list Regexp)
      (p : Regexp) :
  Strings.Contains text LF = false ->
  Strings.Contains text CR = false ->
  Strings.Contains text TAB = false ->
  firstMatching preservePatterns text = Some p ->
  innerSplit text preservePatterns
  = ([], true, preserveLoop text (FindAllStringIndex p text) 0 []).
Proof.
  intros Hn Hr Ht Hp. unfold innerSplit. rewrite Hn, Hr, Ht.
  cbn [orb orElse]. now rewrite splitAtPatterns_firstMatching, Hp.
Qed.

Section SplitExtras.

(** X17.  A text whose fragments are all under the chunk size takes one
    level: [Split] returns, without recursion, the chunks [mergeSplits]
    makes of the fragments of [innerSplit], their token counts and their
    positions 0, 1, ...; this holds for every overlap and every fuel but
    zero. *)
Theorem Split_merges_small_fragments :
  forall (c : TextSplitter) (text : gostring) (fuel : nat)
         (splitter : gostring) (isWhitespace : bool) (splits : list gostring),
    innerSplit text (PreservePatterns (opts c))
    = (splitter, isWhitespace, splits) ->
    Forall (fun f => (countTokenFunc c f < chunkSize c)%Z) splits ->
    exists chunks,
      Split (S fuel) c text = Ok chunks
      /\ mergeSplits c splits (map (countTokenFunc c) splits)
                     (positions (List.length splits)) splitter (chunkSize c)
         = Ok chunks.
Proof.
  intros c text fuel d ws splits Hinner Hall.
  unfold Split. cbn [split]. rewrite Hinner.
  rewrite splitLoop_all_good by exact Hall.
  cbn [app]. rewrite positions_shift.
  destruct (mergeSplits_positions c splits (map (countTokenFunc c) splits)
              d (chunkSize c)) as (chunks & Hm);
    [now rewrite length_map|].
  exists chunks. split; [|exact Hm].
  destruct splits as [|f rest].
  - cbn in Hm. cbn [nonEmpty List.length Nat.ltb Nat.leb]. exact Hm.
  - replace (nonEmpty (f :: rest)) with true by reflexivity.
    rewrite Hm. reflexivity.
Qed.

Lemma Split_merges_small_fragments_witness :
  exists chunks,
    Split 1 (bytesSplitter 11 5) (str "hello world test again") = Ok chunks
    /\ mergeSplits (bytesSplitter 11 5)
         [str "hello"; str "world"; str "test"; str "again"]
         (map (countTokenFunc (bytesSplitter 11 5))
              [str "hello"; str "world"; str "test"; str "again"])
         (positions (List.length
            [str "hello"; str "world"; str "test"; str "again"]))
         (str " ") (chunkSize (bytesSplitter 11 5))
       = Ok chunks.
Proof.
  apply (Split_merges_small_fragments
           (bytesSplitter 11 5) (str "hello world test again") 0
           (str " ") true
           [str "hello"; str "world"; str "test"; str "again"]).
  - reflexivity.
  - repeat constructor.
Defined.

(** X18.  With the number of bytes as the token count, a text shorter
    than the chunk size is returned as the only chunk, and the empty text
    gives no chunk; this holds for every overlap, given well-behaved
    preserve patterns and a chunk size in the range of [int]. *)
Theorem Split_short_text_is_one_chunk :
  forall (c : TextSplitter) (text : gostring) (fuel : nat),
    (forall s, countTokenFunc c s = countBytes s) ->
    Forall wellBehaved (PreservePatterns (opts c)) ->
    (countBytes text < chunkSize c)%Z ->
    (chunkSize c <= Int.max_int)%Z ->
    Split (S fuel) c text
    = Ok (if 0 <? List.length text then [text] else []).
Proof.
  intros c text fuel Hcount Hwf Hshort Hmax.
  pose proof (innerSplit_rejoins text (PreservePatterns (opts c)) Hwf) as Hjoin.
  unfold Split. cbn [split].
  destruct (innerSplit text (PreservePatterns (opts c))) as [[d ws] splits].
  unfold rejoins in Hjoin. cbn [fst snd] in Hjoin.
  assert (Hall : Forall (fun f => (countTokenFunc c f < chunkSize c)%Z) splits).
  { apply Forall_forall. intros f Hin. rewrite Hcount.
    pose proof (occursIn_length f _ (In_Join_occurs d f splits Hin)) as Hle.
    rewrite Hjoin in Hle. unfold countBytes in *. lia. }
  rewrite splitLoop_all_good by exact Hall. cbn [app].
  destruct splits as [|f rest].
  - cbn in Hjoin. subst text. reflexivity.
  - replace (nonEmpty (f :: rest)) with true by reflexivity.
    rewrite (map_ext _ _ Hcount).
    rewrite (mergeSplits_fits c (f :: rest) (map countBytes (f :: rest))).
    + rewrite Hjoin. cbn [bind app]. reflexivity.
    + now rewrite length_map.
    + apply Forall_forall. intros l Hl. apply in_map_iff in Hl as (s & <- & _).
      unfold countBytes. lia.
    + rewrite Hcount. unfold countBytes. lia.
    + rewrite Hcount, plainSize_countBytes, Hjoin. lia.
    + exact Hmax.
Qed.

Lemma Split_short_text_is_one_chunk_witness :
  (countBytes (str "hello world") < chunkSize (bytesSplitter 12 5))%Z
  /\ Split 1 (bytesSplitter 12 5) (str "hello world")
     = Ok [str "hello world"].
Proof.
  split; [reflexivity|].
  apply (Split_short_text_is_one_chunk (bytesSplitter 12 5)
           (str "hello world") 0).
  - reflexivity.
  - constructor.
  - reflexivity.
  - discriminate.
Defined.

(** X19.  A fragment of the first level that is not empty and under the
    chunk size is neither cut nor dropped: it lies whole inside one of
    the chunks [Split] returns. *)
Theorem Split_keeps_small_fragments_whole :
  forall (fuel : nat) (c : TextSplitter) (text : gostring)
         (chunks : list gostring),
    Split fuel c text = Ok chunks ->
    forall f,
      In f (snd (innerSplit text (PreservePatterns (opts c)))) ->
      f <> [] ->
      (countTokenFunc c f < chunkSize c)%Z ->
      exists chunk, In chunk chunks /\ occursIn f chunk.
Proof.
  intros fuel c text chunks H f Hin Hf Hlt.
  unfold Split in H. destruct fuel as [|fuel]; [discriminate|].
  cbn [split] in H.
  destruct (innerSplit text (PreservePatterns (opts c))) as [[d ws] splits].
  cbn [snd] in Hin.
  apply splitLoop_keeps_good in H as [_ H].
  apply H; [|exact Hf]. right. now split.
Qed.

Lemma Split_keeps_small_fragments_whole_witness :
  Split 2 (bytesSplitter 8 0) (str "ab cd efghijklm no")
  = Ok [str "ab cd"; str "efghijkl"; str "m"; str "no"]
  /\ exists chunk,
       In chunk [str "ab cd"; str "efghijkl"; str "m"; str "no"]
       /\ occursIn (str "cd") chunk.
Proof.
  split; [reflexivity|].
  apply (Split_keeps_small_fragments_whole
           2 (bytesSplitter 8 0) (str "ab cd efghijklm no")).
  - reflexivity.
  - right. left. reflexivity.
  - discriminate.
  - reflexivity.
Defined.

(** X20.  A match of a preserve pattern is not cut: in a text without
    line feed, carriage return and tab, every match of the first preserve
    pattern that matches, where it is not empty and under the chunk size,
    lies whole inside one of the chunks [Split] returns. *)
Theorem Split_keeps_preserved_match_whole :
  forall (fuel : nat) (c : TextSplitter) (text : gostring) (p : Regexp)
         (chunks : list gostring),
    Strings.Contains text LF = false ->
    Strings.Contains text CR = false ->
    Strings.Contains text TAB = false ->
    firstMatching (PreservePatterns (opts c)) text = Some p ->
    Split fuel c text = Ok chunks ->
    forall a b,
      In (a, b) (FindAllStringIndex p text) ->
      slice text a b <> [] ->
      (countTokenFunc c (slice text a b) < chunkSize c)%Z ->
      exists chunk, In chunk chunks /\ occursIn (slice text a b) chunk.
Proof.
  intros fuel c text p chunks Hn Hr Ht Hp H a b Hin Hne Hlt.
  unfold Split in H. destruct fuel as [|fuel]; [discriminate|].
  cbn [split] in H.
  rewrite (innerSplit_preserved text _ p Hn Hr Ht Hp) in H.
  apply splitLoop_keeps_good in H as [_ H].
  apply H; [|exact Hne]. right. split; [|exact Hlt].
  pose proof (preserveLoop_matches text (FindAllStringIndex p text) 0 [])
    as Hall.
  rewrite Forall_forall in Hall. exact (Hall (a, b) Hin).
Qed.

Lemma Split_keeps_preserved_match_whole_witness :
  firstMatching
    (PreservePatterns
       (opts (mkTextSplitter 12 countBytes 0
                (mkOption false [literal (str "https://x.y")]))))
    (str "see https://x.y now")
  = Some (literal (str "https://x.y"))
  /\ exists chunk,
       In chunk [str "see "; str "https://x.y"; str " now"]
       /\ occursIn (slice (str "see https://x.y now") 4 15) chunk.
Proof.
  split; [reflexivity|].
  apply (Split_keeps_preserved_match_whole
           1 (mkTextSplitter 12 countBytes 0
                (mkOption false [literal (str "https://x.y")]))
           (str "see https://x.y now") (literal (str "https://x.y"))).
  - reflexivity.
  - reflexivity.
  - reflexivity.
  - reflexivity.
  - reflexivity.
  - left. reflexivity.
  - discriminate.
  - reflexivity.
Defined.

End SplitExtras.

(** * The field [PreserveURLs] *)
Section Flag.

Variable flag : bool.
Variable c : TextSplitter.

Lemma evict_flag splitSizes l splitterSize chunkSize splitIds :
  forall toMerge size,
  evict (setPreserveURLs flag c) splitSizes l splitterSize chunkSize
        splitIds toMerge size
  = evict c splitSizes l splitterSize chunkSize splitIds toMerge size.
Proof.
  induction splitIds as [|id ids IH]; intros tm size; rewrite !evict_eq;
    change (evictCond (setPreserveURLs flag c)) with (evictCond c);
    destruct (evictCond c l splitterSize chunkSize tm size);
    try reflexivity.
  destruct (index splitSizes id); [|reflexivity].
  destruct tm; [reflexivity|]. apply IH.
Qed.

Lemma mergeLoop_flag splitSizes splitter splitterSize chunkSize splits :
  forall i merges toMerge splitIds size,
  mergeLoop (setPreserveURLs flag c) splitSizes splitter splitterSize
            chunkSize splits i merges toMerge splitIds size
  = mergeLoop c splitSizes splitter splitterSize chunkSize splits i
              merges toMerge splitIds size.
Proof.
  induction splits as [|f rest IH]; intros i merges tm ids size;
    cbn [mergeLoop]; [reflexivity|].
  destruct (nth_error splitSizes i) as [l|]; [|reflexivity].
  change (overlap (setPreserveURLs flag c)) with (overlap c).
  rewrite evict_flag.
  destruct (if (chunkSize <? _)%Z then _ else _) as [[[[m t] s] z]| |];
    cbn [bind]; [apply IH|reflexivity|reflexivity].
Qed.

Lemma splitLoop_flag (recurse recurse' : gostring -> result (list gostring))
      splitter chunkSize splits :
  (forall part, recurse' part = recurse part) ->
  forall i rets good sizes ids,
  splitLoop recurse' (setPreserveURLs flag c) splitter chunkSize splits i
            rets good sizes ids
  = splitLoop recurse c splitter chunkSize splits i rets good sizes ids.
Proof.
  intros Hrec.
  induction splits as [|f rest IH]; intros i rets good sizes ids;
    cbn [splitLoop]; unfold mergeSplits; rewrite ?mergeLoop_flag;
    change (countTokenFunc (setPreserveURLs flag c)) with (countTokenFunc c).
  - reflexivity.
  - rewrite !IH, Hrec.
    destruct (countTokenFunc c f <? chunkSize)%Z; [reflexivity|].
    destruct (if nonEmpty good then _ else _) as [st| |]; cbn [bind];
      [|reflexivity|reflexivity].
    destruct (recurse f) as [sub| |]; cbn [bind]; try reflexivity.
    apply IH.
Qed.

Lemma split_flag (fuel : nat) :
  forall text chunkSize depth,
  split fuel (setPreserveURLs flag c) text chunkSize depth
  = split fuel c text chunkSize depth.
Proof.
  induction fuel as [|fuel IH]; intros text cs depth; [reflexivity|].
  cbn [split].
  change (PreservePatterns (opts (setPreserveURLs flag c)))
    with (PreservePatterns (opts c)).
  destruct (innerSplit text (PreservePatterns (opts c))) as [[d ws] splits].
  apply splitLoop_flag. intros part. apply IH.
Qed.

End Flag.

Section FlagExtras.

(** X21.  The value passed to [WithPreserveURLs] is never read: it is
    stored in the field [PreserveURLs], and the URL pattern is registered
    for both values.  Two splitters built with the same arguments and
    options, the last option being [WithPreserveURLs] with any two
    values, split every text alike. *)
Theorem Split_ignores_PreserveURLs_value :
  forall (size : Z) (ov : Overlap) (count : gostring -> Z)
         (options : list (TextSplitterOption -> TextSplitterOption))
         (urlRegex : Regexp) (flag flag' : bool) (c c' : TextSplitter),
    NewTextSplitter size ov count (options ++ [WithPreserveURLs urlRegex flag])
    = (Some c, None) ->
    NewTextSplitter size ov count (options ++ [WithPreserveURLs urlRegex flag'])
    = (Some c', None) ->
    In urlRegex (PreservePatterns (opts c))
    /\ In urlRegex (PreservePatterns (opts c'))
    /\ forall fuel text, Split fuel c text = Split fuel c' text.
Proof.
  intros size ov count options u flag flag' c c' H H'.
  assert (Hc : c' = setPreserveURLs flag' c
               /\ In u (PreservePatterns (opts c))).
  { unfold NewTextSplitter in H, H'. rewrite !fold_left_app in H, H'.
    cbn [fold_left] in H, H'. unfold WithPreserveURLs in H, H'.
    destruct ov as [k|f].
    - destruct ((k <? 0)%Z || (size <? k)%Z); [discriminate|].
      injection H as <-. injection H' as <-.
      split; [reflexivity|]. cbn. apply in_or_app. right. now left.
    - destruct (Float32.ltb f Float32.zero || Float32.ltb Float32.one f);
        [discriminate|].
      injection H as <-. injection H' as <-.
      split; [reflexivity|]. cbn. apply in_or_app. right. now left. }
  destruct Hc as [-> Hin]. split; [exact Hin|]. split; [exact Hin|].
  intros fuel text. unfold Split. symmetry.
  change (chunkSize (setPreserveURLs flag' c)) with (chunkSize c).
  apply split_flag.
Qed.

Lemma Split_ignores_PreserveURLs_value_witness :
  In (literal (str "https://x.y"))
     (PreservePatterns
        (opts (mkTextSplitter 20 countBytes 0
                 (mkOption true [literal (str "https://x.y")]))))
  /\ In (literal (str "https://x.y"))
        (PreservePatterns
           (opts (mkTextSplitter 20 countBytes 0
                    (mkOption false [literal (str "https://x.y")]))))
  /\ forall fuel text,
       Split fuel (mkTextSplitter 20 countBytes 0
                     (mkOption true [literal (str "https://x.y")])) text
       = Split fuel (mkTextSplitter 20 countBytes 0
                       (mkOption false [literal (str "https://x.y")])) text.
Proof.
  apply (Split_ignores_PreserveURLs_value
           20 (OverlapInt 5) countBytes []
           (literal (str "https://x.y")) true false).
  - reflexivity.
  - reflexivity.
Defined.

End FlagExtras.

(** * The chunk size as a bound *)
Section Budget.

Variable splitterSize : Z.
Hypothesis splitterSize_nonneg : (0 <= splitterSize)%Z.

Lemma plainSize_suffix (front sizes : list Z) :
  Forall (fun l => 0 <= l)%Z (front ++ sizes) ->
  (plainSize splitterSize sizes <= plainSize splitterSize (front ++ sizes))%Z.
Proof.
  induction front as [|a front IH]; intros Hall; [cbn [app]; lia|].
  inversion Hall as [|? ? Ha Hrest]; subst. specialize (IH Hrest).
  cbn [app]. destruct (front ++ sizes) as [|b rest] eqn:E.
  - apply app_eq_nil in E as [_ ->]. simpl. lia.
  - rewrite plainSize_cons. lia.
Qed.

Lemma plainSize_middle (front sizes back : list Z) :
  Forall (fun l => 0 <= l)%Z (front ++ sizes ++ back) ->
  (0 <= plainSize splitterSize sizes
   <= plainSize splitterSize (front ++ sizes ++ back))%Z.
Proof.
  intros Hall.
  pose proof (plainSize_suffix front (sizes ++ back) Hall) as H1.
  apply Forall_app in Hall as [_ Hall].
  pose proof (plainSize_grows splitterSize sizes back splitterSize_nonneg Hall)
    as H2.
  lia.
Qed.

(** Where the plain sum is in the range of [int], the loop computes it. *)
Lemma runSize_plain (sizes : list Z) :
  Forall (fun l => 0 <= l)%Z sizes ->
  (plainSize splitterSize sizes <= Int.max_int)%Z ->
  runSize splitterSize sizes = plainSize splitterSize sizes.
Proof.
  induction sizes as [|l sizes IH] using rev_ind; intros Hall Hmax;
    [reflexivity|].
  pose proof (plainSize_grows splitterSize sizes [l] splitterSize_nonneg Hall)
    as Hle.
  apply Forall_app in Hall as [Hall Hl]. inversion Hl as [|? ? Hl0 _]; subst.
  rewrite runSize_snoc. rewrite plainSize_snoc in *.
  destruct sizes as [|a rest].
  - unfold Int.add. apply wrap_small.
    unfold Int.min_int, Int.max_int, Int.half in *. lia.
  - rewrite IH by (assumption || lia).
    unfold accumulate, Int.add.
    rewrite (wrap_small (_ + l))
      by (unfold Int.min_int, Int.max_int, Int.half in *; lia).
    apply wrap_small. unfold Int.min_int, Int.max_int, Int.half in *. lia.
Qed.

End Budget.

Section BudgetBytes.

Variable c : TextSplitter.
Hypothesis counts_bytes : forall s, countTokenFunc c s = countBytes s.
Hypothesis no_overlap : (overlap c <= 0)%Z.

Lemma countBytes_nonneg (s : gostring) : (0 <= countBytes s)%Z.
Proof. unfold countBytes. lia. Qed.

Lemma countBytes_all_nonneg (l : list gostring) :
  Forall (fun l => 0 <= l)%Z (map countBytes l).
Proof.
  apply Forall_forall. intros x Hx. apply in_map_iff in Hx as (s & <- & _).
  apply countBytes_nonneg.
Qed.

Lemma mergeSplits_within (good : list gostring) (ids : list Z)
      (splitter : gostring) (size : Z) (merges : list gostring) :
  Forall (fun f => (countBytes f < size)%Z) good ->
  (plainSize (countBytes splitter) (map countBytes good) <= Int.max_int)%Z ->
  mergeSplits c good (map countBytes good) ids splitter size = Ok merges ->
  Forall (fun chunk => (countBytes chunk <= size)%Z) merges.
Proof.
  intros Hgood Hmax H.
  destruct (mergeSplits_groups c good (map countBytes good) ids splitter size
              no_overlap) as (groups & Hrun & Hcat & _ & Hbud & _);
    [now rewrite length_map|].
  rewrite Hrun in H. injection H as <-.
  rewrite counts_bytes in Hbud.
  apply Forall_forall. intros chunk Hin.
  unfold chunksOf in Hin. apply filter_In in Hin as [Hin _].
  apply in_map_iff in Hin as (g & <- & Hg).
  assert (Helems : Forall (fun x => snd x = countBytes (fst x)
                                    /\ In (fst x) good) g).
  { apply Forall_forall. intros [f l] Hx.
    assert (Hc : In (f, l) (combine good (map countBytes good))).
    { rewrite <- Hcat. apply in_concat. now exists g. }
    clear - Hc. revert Hc. induction good as [|f0 rest IH]; [intros []|].
    cbn [map combine fst snd]. intros [[= <- <-]|Hc].
    - split; [reflexivity|now left].
    - destruct (IH Hc) as [H1 H2]. split; [exact H1|now right]. }
  assert (Hsizes : map snd g = map countBytes (map fst g)).
  { rewrite map_map. apply map_ext_in. intros x Hx.
    rewrite Forall_forall in Helems. now apply Helems. }
  rewrite Forall_forall in Hbud. specialize (Hbud g Hg).
  unfold joinGroup. rewrite <- plainSize_countBytes, <- Hsizes.
  destruct Hbud as [Hone|Hrun'].
  - destruct g as [|[f l] [|y g]]; try discriminate Hone.
    inversion Helems as [|? ? [Hl Hf] _]; subst. cbn [fst snd] in *.
    cbn [map plainSize fold_left]. rewrite Hl.
    rewrite Forall_forall in Hgood. specialize (Hgood f Hf).
    cbn [snd]. lia.
  - apply in_split in Hg as (before & after & ->).
    rewrite concat_app in Hcat. cbn [List.concat] in Hcat.
    apply (f_equal (map snd)) in Hcat.
    rewrite !map_app in Hcat.
    assert (Hsnd : map snd (combine good (map countBytes good))
                   = map countBytes good).
    { clear. induction good as [|f rest IH]; [reflexivity|].
      cbn [map combine snd]. now rewrite IH. }
    rewrite Hsnd in Hcat.
    pose proof (countBytes_all_nonneg good) as Hnn. rewrite <- Hcat in Hnn.
    pose proof (plainSize_middle (countBytes splitter)
                  (countBytes_nonneg splitter) _ _ _ Hnn) as [_ Hmid].
    rewrite Hcat in Hmid.
    rewrite runSize_plain in Hrun'; [exact Hrun'|apply countBytes_nonneg| |lia].
    apply Forall_app in Hnn as [_ Hnn]. now apply Forall_app in Hnn as [Hnn _].
Qed.

Lemma splitLoop_within (recurse : gostring -> result (list gostring))
      (splitter : gostring) (size : Z) :
  (forall part r,
      (countBytes part <= Int.max_int)%Z -> recurse part = Ok r ->
      Forall (fun chunk => (countBytes chunk <= size)%Z) r) ->
  forall (splits : list gostring) (i : Z) (rets good : list gostring)
         (ids : list Z) (r : list gostring),
  Forall (fun f => (countBytes f < size)%Z) good ->
  (plainSize (countBytes splitter) (map countBytes (good ++ splits))
   <= Int.max_int)%Z ->
  Forall (fun chunk => (countBytes chunk <= size)%Z) rets ->
  splitLoop recurse c splitter size splits i rets good
            (map countBytes good) ids = Ok r ->
  Forall (fun chunk => (countBytes chunk <= size)%Z) r.
Proof.
  intros Hrec.
  assert (Hflush : forall rets good ids st,
             Forall (fun f => (countBytes f < size)%Z) good ->
             (plainSize (countBytes splitter) (map countBytes good)
              <= Int.max_int)%Z ->
             Forall (fun chunk => (countBytes chunk <= size)%Z) rets ->
             (if nonEmpty good
              then merges <- mergeSplits c good (map countBytes good) ids
                               splitter size ;;
                   Ok (rets ++ merges)
              else Ok rets) = Ok st ->
             Forall (fun chunk => (countBytes chunk <= size)%Z) st).
  { intros rets good ids st Hgood Hmax Hrets H.
    destruct (nonEmpty good); [|now injection H as <-].
    destruct (mergeSplits c good (map countBytes good) ids splitter size)
      as [m| |] eqn:Em; cbn [bind] in H; try discriminate.
    injection H as <-. apply Forall_app. split; [exact Hrets|].
    now apply (mergeSplits_within good ids splitter size). }
  induction splits as [|f rest IH]; intros i rets good ids r Hgood Hmax Hrets H.
  - cbn [splitLoop] in H. rewrite app_nil_r in Hmax.
    now apply (Hflush rets good ids r).
  - cbn [splitLoop] in H. rewrite counts_bytes in H.
    pose proof (countBytes_all_nonneg (good ++ f :: rest)) as Hnn.
    rewrite map_app in Hnn, Hmax. cbn [map] in Hnn, Hmax.
    destruct (countBytes f <? size)%Z eqn:E.
    + apply Z.ltb_lt in E.
      replace (map countBytes good ++ [countBytes f])
        with (map countBytes (good ++ [f])) in H
        by (now rewrite map_app).
      apply IH in H; [exact H| | |exact Hrets].
      * apply Forall_app. split; [exact Hgood|]. now constructor.
      * now rewrite <- app_assoc, map_app.
    + destruct (if nonEmpty good then _ else _) as [st| |] eqn:Est;
        cbn [bind] in H; try discriminate.
      apply Hflush in Est; [|exact Hgood| |exact Hrets].
      * destruct (recurse f) as [sub| |] eqn:Er; cbn [bind] in H;
          try discriminate.
        change (@nil Z) with (map countBytes []) in H.
        apply IH in H; [exact H|constructor| |].
        -- cbn [app].
           pose proof (plainSize_suffix (countBytes splitter)
                         (countBytes_nonneg splitter)
                         (map countBytes good ++ [countBytes f])
                         (map countBytes rest)) as Hs.
           rewrite <- app_assoc in Hs. specialize (Hs Hnn). cbn [app] in Hs.
           lia.
        -- apply Forall_app. split; [exact Est|].
           apply (Hrec f sub); [|exact Er].
           pose proof (plainSize_middle (countBytes splitter)
                         (countBytes_nonneg splitter)
                         (map countBytes good) [countBytes f]
                         (map countBytes rest) Hnn) as [_ Hm].
           cbn [plainSize fold_left app] in Hm. cbn [app]. lia.
      * pose proof (plainSize_grows (countBytes splitter)
                      (map countBytes good) (countBytes f :: map countBytes rest)
                      (countBytes_nonneg splitter) Hnn) as [_ Hg].
        lia.
Qed.

Lemma split_within (wf : Forall wellBehaved (PreservePatterns (opts c)))
      (size : Z) (fuel : nat) :
  forall (text : gostring) (depth : Z) (chunks : list gostring),
  (countBytes text <= Int.max_int)%Z ->
  split fuel c text size depth = Ok chunks ->
  Forall (fun chunk => (countBytes chunk <= size)%Z) chunks.
Proof.
  induction fuel as [|fuel IH]; intros text depth chunks Hmax H;
    [discriminate|].
  cbn [split] in H.
  pose proof (innerSplit_rejoins text (PreservePatterns (opts c)) wf) as Hjoin.
  destruct (innerSplit text (PreservePatterns (opts c))) as [[d ws] splits].
  unfold rejoins in Hjoin. cbn [fst snd] in Hjoin.
  change (@nil Z) with (map countBytes []) in H at 1.
  apply splitLoop_within in H; [exact H| |constructor| |constructor].
  - intros part r Hpart Hr. now apply IH in Hr.
  - cbn [app]. now rewrite plainSize_countBytes, Hjoin.
Qed.

End BudgetBytes.

Section BudgetExtras.

(** X22.  The chunk size bounds the chunks: with the number of bytes as
    the token count and an overlap that is not positive, every chunk
    [Split] returns has at most [chunkSize] bytes, given well-behaved
    preserve patterns and a text whose length is in the range of
    [int]. *)
Theorem Split_chunks_within_chunk_size :
  forall (fuel : nat) (c : TextSplitter) (text : gostring)
         (chunks : list gostring),
    (forall s, countTokenFunc c s = countBytes s) ->
    (overlap c <= 0)%Z ->
    Forall wellBehaved (PreservePatterns (opts c)) ->
    (countBytes text <= Int.max_int)%Z ->
    Split fuel c text = Ok chunks ->
    Forall (fun chunk => (countBytes chunk <= chunkSize c)%Z) chunks.
Proof.
  intros fuel c text chunks Hcount Hov Hwf Hmax H.
  exact (split_within c Hcount Hov Hwf (chunkSize c) fuel text 0%Z chunks
           Hmax H).
Qed.

Lemma Split_chunks_within_chunk_size_witness :
  Split 2 (bytesSplitter 8 0) (str "ab cd efghijklm no")
  = Ok [str "ab cd"; str "efghijkl"; str "m"; str "no"]
  /\ Forall (fun chunk =>
               (countBytes chunk <= chunkSize (bytesSplitter 8 0))%Z)
            [str "ab cd"; str "efghijkl"; str "m"; str "no"].
Proof.
  split; [reflexivity|].
  apply (Split_chunks_within_chunk_size
           2 (bytesSplitter 8 0) (str "ab cd efghijklm no")).
  - reflexivity.
  - discriminate.
  - constructor.
  - discriminate.
  - reflexivity.
Defined.

End BudgetExtras.

(** * Spans that are their own fragment *)
Section OwnFragment.

Variable c : TextSplitter.
Variable recurse : gostring -> result (list gostring).
Variable splitter : gostring.
Variable chunkSize : Z.

Lemma splitLoop_reaches (part : gostring) :
  (chunkSize <= countTokenFunc c part)%Z ->
  (forall r, recurse part <> Ok r) ->
  forall (splits : list gostring) (i : Z) (rets good : list gostring)
         (sizes ids : list Z) (r : list gostring),
  In part splits ->
  splitLoop recurse c splitter chunkSize splits i rets good sizes ids <> Ok r.
Proof.
  intros Hbad Hrec.
  induction splits as [|f rest IH]; intros i rets good sizes ids r Hin;
    [contradiction|].
  cbn [splitLoop].
  destruct (countTokenFunc c f <? chunkSize)%Z eqn:E.
  - destruct Hin as [->|Hin]; [apply Z.ltb_lt in E; lia|]. now apply IH.
  - destruct (if nonEmpty good then _ else _) as [st| |]; cbn [bind];
      try discriminate.
    destruct (recurse f) as [sub| |] eqn:Er; cbn [bind]; try discriminate.
    destruct Hin as [->|Hin]; [now contradiction (Hrec sub)|]. now apply IH.
Qed.

End OwnFragment.

Lemma split_own_fragment (c : TextSplitter) (text : gostring) (size : Z) :
  In text (snd (innerSplit text (PreservePatterns (opts c)))) ->
  (size <= countTokenFunc c text)%Z ->
  forall (fuel : nat) (depth : Z) (r : list gostring),
  split fuel c text size depth <> Ok r.
Proof.
  intros Hin Hbad.
  induction fuel as [|fuel IH]; intros depth r; [discriminate|].
  cbn [split].
  destruct (innerSplit text (PreservePatterns (opts c))) as [[d ws] splits].
  cbn [snd] in Hin.
  apply (splitLoop_reaches c _ d size text Hbad); [|exact Hin].
  intros r'. apply IH.
Qed.

Section OwnFragmentExtras.

(** X23.  [Split] does not return on a text that is one of its own
    fragments and whose token count is not under the chunk size: the
    recursion is called on the same text again at every depth.  Where
    the overlap is not positive, so that the merger cannot panic, the
    recursion does not end at any depth. *)
Theorem Split_never_returns_on_own_fragment :
  forall (c : TextSplitter) (text : gostring),
    In text (snd (innerSplit text (PreservePatterns (opts c)))) ->
    (chunkSize c <= countTokenFunc c text)%Z ->
    (forall fuel chunks, Split fuel c text <> Ok chunks)
    /\ ((overlap c <= 0)%Z -> forall fuel, Split fuel c text = OutOfFuel).
Proof.
  intros c text Hin Hbad.
  assert (H : forall fuel chunks, Split fuel c text <> Ok chunks).
  { intros fuel chunks. now apply split_own_fragment. }
  split; [exact H|]. intros Hov fuel.
  pose proof (split_no_panic c fuel) as Hp.
  specialize (H fuel). unfold Split in *.
  destruct (split fuel c text (chunkSize c) 0) as [r| |] eqn:E.
  - now contradiction (H r).
  - exfalso. revert E. apply Hp. now apply Z.ltb_ge.
  - reflexivity.
Qed.

Lemma Split_never_returns_on_own_fragment_witness :
  (chunkSize (bytesSplitter 1 0)
   <= countTokenFunc (bytesSplitter 1 0) (str "a"))%Z
  /\ (forall fuel chunks, Split fuel (bytesSplitter 1 0) (str "a") <> Ok chunks)
  /\ ((overlap (bytesSplitter 1 0) <= 0)%Z ->
      forall fuel, Split fuel (bytesSplitter 1 0) (str "a") = OutOfFuel).
Proof.
  split; [discriminate|].
  apply (Split_never_returns_on_own_fragment (bytesSplitter 1 0) (str "a")).
  - left. reflexivity.
  - discriminate.
Defined.

End OwnFragmentExtras.
